(** * A chaos-driven Mealy-machine cipher: the engine of [src/App.jsx]

    The development embeds the three algorithmic parts of [App.jsx]:
    the [LogisticMoore] generator, the [MealyMachine] cipher with its
    builder [buildMealyMachine], and the two metrics [calculateNPCR] and
    [calculateEntropy]; and the helpers of the component [App] that carry
    bytes to and from the cipher: the base64 and hexadecimal conversions,
    [handleDecrypt] and the pixel loops of the vault.

    Representation of JavaScript values.
    - A Number that the code keeps integral and below 2^53 in magnitude
      (hashes, array indices, table entries, counters) is a [Z]; the
      conversions [ToInt32], [ToUint32] and the typed-array stores are
      written out.
    - A Number that is genuinely fractional (the logistic state, the
      ratios of the metrics) is a binary64 [float], with IEEE-754
      operations.
    - A typed array is a [list Z]. A store outside its bounds is ignored,
      as typed arrays do. A read outside its bounds yields [undefined] in
      JavaScript, after which the code computes with [NaN] or throws a
      [TypeError]; the model does not follow a run beyond such a read and
      ends it with [Err Undefined]. A run that ends in [Ok] has read
      inside the bounds only, and is the JavaScript run.
    - A string is the list of its UTF-16 code units.
    - An object that a call may mutate is passed last and returned with
      the result; the generators also live in a store, where two of them
      can be told apart.
    - Limits of the host on the size of an array are not modelled. *)

From Stdlib Require Import ZArith Lia Floats.PrimFloat Floats.FloatOps
  Floats.SpecFloat Numbers.Cyclic.Int63.Uint63.
From stdpp Require Import base option list list_numbers strings pretty gmap.

(* Decimal literals such as 3.9999 denote the nearest binary64 value, as
   they do in JavaScript. *)
#[local] Set Warnings "-inexact-float".

#[local] Open Scope Z_scope.

(** ** Outcomes of a run *)

Inductive error : Type :=
  | Undefined    (* an indexed read found no element / no object *)
  | RangeError.  (* a typed array was requested with a negative length *)

Inductive result (A : Type) : Type :=
  | Ok (a : A)
  | Err (e : error).
Arguments Ok {A} a.
Arguments Err {A} e.

#[global] Instance result_ret : MRet result := λ A a, Ok a.
#[global] Instance result_bind : MBind result := λ A B f r,
  match r with
  | Ok a => f a
  | Err e => Err e
  end.
#[global] Instance result_fmap : FMap result := λ A B f r,
  match r with
  | Ok a => Ok (f a)
  | Err e => Err e
  end.

Definition is_Ok {A} (r : result A) : Prop := ∃ a, r = Ok a.

(** ** Loops

    [for_up lo k body] is [for (let i = lo; i < lo + k; i++) body(i)] and
    [for_down hi k body] is [for (let i = hi; i > hi - k; i--) body(i)],
    both threading the variables the body assigns. *)

Fixpoint for_up {St : Type} (i : Z) (k : nat) (body : Z → St → result St)
    (st : St) : result St :=
  match k with
  | O => Ok st
  | S k' => st' ← body i st; for_up (i + 1) k' body st'
  end.

Fixpoint for_down {St : Type} (i : Z) (k : nat) (body : Z → St → result St)
    (st : St) : result St :=
  match k with
  | O => Ok st
  | S k' => st' ← body i st; for_down (i - 1) k' body st'
  end.

(** ** Integer conversions and operators of the host *)

Definition ToInt32 (z : Z) : Z := (z + 2 ^ 31) mod 2 ^ 32 - 2 ^ 31.
Definition ToUint32 (z : Z) : Z := z mod 2 ^ 32.
Definition ToUint8 (z : Z) : Z := z mod 2 ^ 8.

(* [a << b] and [a | b] *)
Definition shl (a b : Z) : Z :=
  ToInt32 (Z.shiftl (ToInt32 a) (Z.land (ToUint32 b) 31)).
Definition bor (a b : Z) : Z := ToInt32 (Z.lor (ToInt32 a) (ToInt32 b)).

(* [a % b] on integral operands: the sign follows the dividend. The
   divisor is never zero where the code reaches it. *)
Definition js_rem (a b : Z) : Z := Z.rem a b.

(** ** Typed arrays *)

Definition alloc (len : Z) : result (list Z) :=
  if len <? 0 then Err RangeError else Ok (replicate (Z.to_nat len) 0).

Definition aget {A} (a : list A) (i : Z) : result A :=
  if i <? 0 then Err Undefined
  else match a !! Z.to_nat i with
       | Some v => Ok v
       | None => Err Undefined
       end.

Definition aset (wrap : Z → Z) (a : list Z) (i v : Z) : list Z :=
  if i <? 0 then a else <[Z.to_nat i := wrap v]> a.

(* [t[s][i] = v] on an array of typed arrays *)
Definition tset (wrap : Z → Z) (t : list (list Z)) (s i v : Z)
    : result (list (list Z)) :=
  row ← aget t s;
  Ok (<[Z.to_nat s := aset wrap row i v]> t).

(** ** Binary64 helpers *)

(* The Number of an integer of magnitude below 2^53 (exact). *)
Definition Z2F (z : Z) : float :=
  if z <? 0 then PrimFloat.opp (PrimFloat.of_uint63 (Uint63.of_Z (- z)))
  else PrimFloat.of_uint63 (Uint63.of_Z z).

Definition Math_floor (x : float) : float :=
  match Prim2SF x with
  | S754_finite sg mant e =>
      if 0 <=? e then x
      else
        let q := Z.pos mant / 2 ^ (- e) in
        let integral := Z.pos mant mod 2 ^ (- e) =? 0 in
        if integral then x
        else if sg then Z2F (- (q + 1)) else Z2F q
  | _ => x
  end.

(* [x >>> 0] on a Number *)
Definition ToUint32F (x : float) : Z :=
  match Prim2SF x with
  | S754_finite sg mant e =>
      let a := if 0 <=? e then Z.pos mant * 2 ^ e
               else Z.pos mant / 2 ^ (- e) in
      ToUint32 (if sg then - a else a)
  | _ => 0
  end.

(** ** The generator: [class LogisticMoore] *)

Module LogisticMoore.

Record t : Type := mk {
  r : float;
  stabilizationSteps : Z;
  state : float
}.

Definition hash_step (hash c : Z) : Z := bor (shl hash 5 - hash + c) 0.

(* The integer that the loop of [_initializeSeed] leaves in [hash]. *)
Definition key_hash (key : list Z) : Z := fold_left hash_step key 0.

Definition _initializeSeed (key : list Z) : float :=
  let hash := key_hash key in
  PrimFloat.add 0.1
    (PrimFloat.div (Z2F (js_rem (Z.abs hash) 800000)) 1000000.0).

Definition _transition (g : t) : t :=
  let next :=
    PrimFloat.mul (PrimFloat.mul (r g) (state g))
                  (PrimFloat.sub 1 (state g)) in
  let next :=
    if PrimFloat.leb next 0 || PrimFloat.leb 1 next then 0.5%float
    else next in
  mk (r g) (stabilizationSteps g) next.

Definition _stabilizeState (g : t) : t :=
  Nat.iter (Z.to_nat (stabilizationSteps g)) _transition g.

Definition new (keyString : list Z) (stabilizationSteps : Z) : t :=
  _stabilizeState (mk 3.9999 stabilizationSteps (_initializeSeed keyString)).

Definition produceOutput (g : t) : Z * t :=
  let g := _transition g in
  let magnified := Math_floor (PrimFloat.mul (state g) 1e14) in
  (ToUint32F (Math_floor (PrimFloat.div magnified 256)), g).

(* [stream[i] = this.produceOutput()] *)
Definition stream_step (i : Z) (st : list Z * t) : result (list Z * t) :=
  let '(stream, g) := st in
  let '(v, g) := produceOutput g in
  Ok (aset ToUint32 stream i v, g).

Definition generateStream (count : Z) (g : t) : result (list Z * t) :=
  stream ← alloc count;
  for_up 0 (Z.to_nat count) stream_step (stream, g).

End LogisticMoore.


(** ** The store of generator objects

    [new LogisticMoore(key)] allocates an object; a method call mutates
    the object behind the reference it is called on. *)

Abbreviation loc := positive (only parsing).
Abbreviation heap := (gmap positive LogisticMoore.t) (only parsing).

Definition new_LogisticMoore (key : list Z) (σ : heap) : loc * heap :=
  let l := fresh (dom σ) in
  (l, <[l := LogisticMoore.new key 1000]> σ).

Definition invoke {A} (l : loc)
    (method : LogisticMoore.t → result (A * LogisticMoore.t)) (σ : heap)
    : result (A * heap) :=
  match σ !! l with
  | Some g => '(a, g') ← method g; Ok (a, <[l := g']> σ)
  | None => Err Undefined
  end.

(** ** The cipher: [class MealyMachine] *)

Module Trajectory.
Record step : Type := mk { t : Z; s : Z; i : Z; sPrime : Z; o : Z }.
End Trajectory.

Module MealyMachine.

Record t : Type := mk {
  n : Z;
  m : Z;
  currentState : Z;
  delta : list (list Z);
  lambdaTable : list (list Z);
  lambdaInv : list (list Z)
}.

Definition set_currentState (M : t) (v : Z) : t :=
  mk (n M) (m M) v (delta M) (lambdaTable M) (lambdaInv M).
Definition set_delta (M : t) (d : list (list Z)) : t :=
  mk (n M) (m M) (currentState M) d (lambdaTable M) (lambdaInv M).
Definition set_lambdas (M : t) (lt li : list (list Z)) : t :=
  mk (n M) (m M) (currentState M) (delta M) lt li.

(* [Array.from({ length: nStates }, () => new Int32Array(mAlphabet))] *)
Definition new_table (nStates mAlphabet : Z) : result (list (list Z)) :=
  if nStates <=? 0 then Ok []
  else row ← alloc mAlphabet; Ok (replicate (Z.to_nat nStates) row).

Definition new (nStates mAlphabet : Z) : result t :=
  d ← new_table nStates mAlphabet;
  lt ← new_table nStates mAlphabet;
  li ← new_table nStates mAlphabet;
  Ok (mk nStates mAlphabet 0 d lt li).

Definition reset (M : t) : t := set_currentState M 0.

(* One pass of the warm-up loop, and the loop run for [k] passes. *)
Definition warm_step (j : Z) (M : t) : result t :=
  row ← aget (delta M) (currentState M);
  v ← aget row (js_rem j 256);
  Ok (set_currentState M v).

Definition warm_up (k : nat) (M : t) : result t := for_up 0 k warm_step M.

Definition encrypt_step (bytes : list Z) (i : Z)
    (st : t * list Z * list Trajectory.step)
    : result (t * list Z * list Trajectory.step) :=
  let '(M, ciphertext, trajectory) := st in
  let stateIdx := currentState M in
  input ← aget bytes i;
  lrow ← aget (lambdaTable M) stateIdx;
  output ← aget lrow input;
  drow ← aget (delta M) stateIdx;
  d ← aget drow input;
  let nextState := js_rem (d + i) (n M) in
  let ciphertext := aset ToUint8 ciphertext i output in
  let trajectory :=
    if i <? 20
    then trajectory ++ [Trajectory.mk i stateIdx input nextState output]
    else trajectory in
  Ok (set_currentState M nextState, ciphertext, trajectory).

Definition encryptBytes (bytes : list Z) (M : t)
    : result (list Z * list Trajectory.step * t) :=
  let M := reset M in
  M ← warm_up 500 M;
  ciphertext ← alloc (Z.of_nat (length bytes));
  '(M, ciphertext, trajectory) ←
    for_up 0 (length bytes) (encrypt_step bytes) (M, ciphertext, []);
  Ok (ciphertext, trajectory, M).

Definition decrypt_step (bytes : list Z) (i : Z)
    (st : t * list Z * list Trajectory.step)
    : result (t * list Z * list Trajectory.step) :=
  let '(M, plaintext, trajectory) := st in
  let stateIdx := currentState M in
  c ← aget bytes i;
  irow ← aget (lambdaInv M) stateIdx;
  recovered ← aget irow c;
  drow ← aget (delta M) stateIdx;
  d ← aget drow recovered;
  let nextState := js_rem (d + i) (n M) in
  let plaintext := aset ToUint8 plaintext i recovered in
  let trajectory :=
    if i <? 20
    then trajectory ++ [Trajectory.mk i stateIdx recovered nextState c]
    else trajectory in
  Ok (set_currentState M nextState, plaintext, trajectory).

Definition decryptBytes (bytes : list Z) (M : t)
    : result (list Z * list Trajectory.step * t) :=
  let M := reset M in
  M ← warm_up 500 M;
  plaintext ← alloc (Z.of_nat (length bytes));
  '(M, plaintext, trajectory) ←
    for_up 0 (length bytes) (decrypt_step bytes) (M, plaintext, []);
  Ok (plaintext, trajectory, M).

End MealyMachine.

(** ** The builder: [buildMealyMachine] *)

(* The body of the transition fill: [machine.delta[s][i] = ...; cursor++]. *)
Definition delta_step (entropy : list Z) (nStates s i : Z)
    (st : MealyMachine.t * Z) : result (MealyMachine.t * Z) :=
  let '(machine, cursor) := st in
  e ← aget entropy cursor;
  d ← tset ToInt32 (MealyMachine.delta machine) s i
         (js_rem (Z.abs e) nStates);
  Ok (MealyMachine.set_delta machine d, cursor + 1).

Definition fill_delta (entropy : list Z) (nStates mAlphabet : Z)
    (st : MealyMachine.t * Z) : result (MealyMachine.t * Z) :=
  for_up 0 (Z.to_nat nStates)
    (λ s, for_up 0 (Z.to_nat mAlphabet) (delta_step entropy nStates s)) st.

(* [for (let i = 0; i < mAlphabet; i++) perm[i] = i] on a fresh
   [Uint8Array]. *)
Definition init_perm (mAlphabet : Z) : result (list Z) :=
  perm ← alloc mAlphabet;
  for_up 0 (Z.to_nat mAlphabet) (λ i perm, Ok (aset ToUint8 perm i i)) perm.

Definition shuffle_step (entropy : list Z) (i : Z) (st : list Z * Z)
    : result (list Z * Z) :=
  let '(perm, cursor) := st in
  e ← aget entropy cursor;
  let j := js_rem (Z.abs e) (i + 1) in
  temp ← aget perm i;
  pj ← aget perm j;
  let perm := aset ToUint8 perm i pj in
  let perm := aset ToUint8 perm j temp in
  Ok (perm, cursor + 1).

Definition shuffle (entropy : list Z) (mAlphabet : Z) (st : list Z * Z)
    : result (list Z * Z) :=
  for_down (mAlphabet - 1) (Z.to_nat (mAlphabet - 1))
    (shuffle_step entropy) st.

Definition lambda_step (perm : list Z) (s i : Z) (machine : MealyMachine.t)
    : result MealyMachine.t :=
  val ← aget perm i;
  lt ← tset ToInt32 (MealyMachine.lambdaTable machine) s i val;
  li ← tset ToInt32 (MealyMachine.lambdaInv machine) s val i;
  Ok (MealyMachine.set_lambdas machine lt li).

Definition perm_step (entropy : list Z) (mAlphabet s : Z)
    (st : MealyMachine.t * Z) : result (MealyMachine.t * Z) :=
  let '(machine, cursor) := st in
  perm ← init_perm mAlphabet;
  '(perm, cursor) ← shuffle entropy mAlphabet (perm, cursor);
  machine ← for_up 0 (Z.to_nat mAlphabet) (lambda_step perm s) machine;
  Ok (machine, cursor).

Definition fill_lambda (entropy : list Z) (nStates mAlphabet : Z)
    (st : MealyMachine.t * Z) : result (MealyMachine.t * Z) :=
  for_up 0 (Z.to_nat nStates) (perm_step entropy mAlphabet) st.

(* Both fills over a given entropy array; the cursor starts at 0 and its
   last value is returned next to the machine. *)
Definition fill_tables (entropy : list Z) (nStates mAlphabet : Z)
    (machine : MealyMachine.t) : result (MealyMachine.t * Z) :=
  st ← fill_delta entropy nStates mAlphabet (machine, 0);
  fill_lambda entropy nStates mAlphabet st.

Definition buildMealyMachine (nStates mAlphabet : Z)
    (mooreGen : LogisticMoore.t) : result (MealyMachine.t * LogisticMoore.t) :=
  machine ← MealyMachine.new nStates mAlphabet;
  let totalNeeded := nStates * mAlphabet * 2 in
  '(entropy, mooreGen) ← LogisticMoore.generateStream totalNeeded mooreGen;
  '(machine, _) ← fill_tables entropy nStates mAlphabet machine;
  Ok (machine, mooreGen).

(* The code units of an ASCII literal. *)
Definition code_units (s : string) : list Z :=
  (λ c : Ascii.ascii, Z.of_N (Ascii.N_of_ascii c)) <$>
    String.list_ascii_of_string s.

(** ** The metrics: [calculateNPCR] and [calculateEntropy]

    Two functions of the host are parameters: [Math.log2], which
    ECMAScript leaves implementation-approximated, and the conversion
    [Number::toString], which [toFixed] falls back to for magnitudes of
    10^21 and more. *)

(* Decimal digits of a natural number, ["0"] for zero. *)
Definition decimal (n : Z) : string := pretty (Z.to_N n).

Fixpoint zeros (k : nat) : string :=
  match k with
  | O => EmptyString
  | S k' => String (Ascii.ascii_of_nat 48) (zeros k')
  end.

(* Steps 10.b to 10.d of [Number.prototype.toFixed]: the digits of [n]
   with a decimal point before the last [fd] of them. *)
Definition fixed_digits (n : Z) (fd : nat) : string :=
  let m := decimal n in
  match fd with
  | O => m
  | _ =>
      let k := String.length m in
      let m := if (k <=? fd)%nat then zeros (fd + 1 - k) +:+ m else m in
      let k := String.length m in
      String.substring 0 (k - fd) m +:+ "." +:+ String.substring (k - fd) fd m
  end.

(* The integer [n] for which [n / 10^fd - mant * 2^e] is closest to zero,
   the larger one of two. *)
Definition nearest_scaled (mant : positive) (e : Z) (fd : nat) : Z :=
  if 0 <=? e then Z.pos mant * 2 ^ e * 10 ^ Z.of_nat fd
  else (2 * Z.pos mant * 10 ^ Z.of_nat fd + 2 ^ (- e)) / 2 ^ (- e + 1).

Definition at_least_1e21 (mant : positive) (e : Z) : bool :=
  if 0 <=? e then 10 ^ 21 <=? Z.pos mant * 2 ^ e
  else 10 ^ 21 * 2 ^ (- e) <=? Z.pos mant.

Section Metrics.

Variable Math_log2 : float → float.
Variable Number_toString : float → string.

(* [x.toFixed(fd)] *)
Definition toFixed (x : float) (fd : nat) : string :=
  match Prim2SF x with
  | S754_nan => "NaN"
  | S754_infinity false => "Infinity"
  | S754_infinity true => "-Infinity"
  | S754_zero _ => fixed_digits 0 fd
  | S754_finite sg mant e =>
      if at_least_1e21 mant e then Number_toString x
      else (if sg then "-" else EmptyString) +:+
           fixed_digits (nearest_scaled mant e fd) fd
  end.

Definition npcr_step (plain cipher : list Z) (i diff : Z) : result Z :=
  p ← aget plain i;
  c ← aget cipher i;
  Ok (if bool_decide (p ≠ c) then diff + 1 else diff).

(* [null] and [undefined] arguments are [None]. *)
Definition calculateNPCR (plain cipher : option (list Z)) : result string :=
  match plain, cipher with
  | Some plain, Some cipher =>
      if bool_decide (length plain ≠ length cipher) then Ok "0.00"
      else
        diff ← for_up 0 (length plain) (npcr_step plain cipher) 0;
        Ok (toFixed
              (PrimFloat.mul
                 (PrimFloat.div (Z2F diff) (Z2F (Z.of_nat (length plain))))
                 100)
              2)
  | _, _ => Ok "0.00"
  end.

(* The object [freq]: its keys are array indices, which an object
   enumerates in ascending order. *)
Fixpoint obj_get (o : list (Z * Z)) (k : Z) : option Z :=
  match o with
  | [] => None
  | (k', v) :: o' => if k =? k' then Some v else obj_get o' k
  end.

Fixpoint obj_set (o : list (Z * Z)) (k v : Z) : list (Z * Z) :=
  match o with
  | [] => [(k, v)]
  | (k', v') :: o' =>
      if k <? k' then (k, v) :: o
      else if k =? k' then (k, v) :: o'
      else (k', v') :: obj_set o' k v
  end.

Definition Object_values (o : list (Z * Z)) : list Z := o.*2.

Definition count_step (freq : list (Z * Z)) (val : Z) : list (Z * Z) :=
  obj_set freq val (default 0 (obj_get freq val) + 1).

Definition entropy_step (total : Z) (entropy : float) (count : Z) : float :=
  let p := PrimFloat.div (Z2F count) (Z2F total) in
  PrimFloat.sub entropy (PrimFloat.mul p (Math_log2 p)).

Definition calculateEntropy (data : option (list Z)) : string :=
  match data with
  | None => "0.0000"
  | Some data =>
      if bool_decide (length data = 0%nat) then "0.0000"
      else
        let freq := fold_left count_step data [] in
        let total := Z.of_nat (length data) in
        let entropy :=
          fold_left (entropy_step total) (Object_values freq) 0%float in
        toFixed entropy 4
  end.

End Metrics.

(* A [Math.log2] that is exact on the powers of two and undefined (NaN)
   elsewhere, and a [Number::toString] that is never consulted: enough to
   run the metrics on the inputs of the scenarios. *)
Definition log2_pow2 (x : float) : float :=
  match Prim2SF x with
  | S754_finite false mant e =>
      if Z.pos mant =? 2 ^ 52 then Z2F (e + 52) else PrimFloat.nan
  | _ => PrimFloat.nan
  end.

Definition no_toString (x : float) : string := EmptyString.

(** ** The helpers of the component [App]

    [btoa], [atob] and the [decode] of a [TextDecoder] are functions of
    the host, and parameters here. [btoa] and [atob] throw on a string
    they do not accept: they return an [option]. The decoder of the
    component is not fatal: it returns a string on every input. *)

(* [b.toString(16)] on an integer *)
Definition hex_digit (d : Z) : Ascii.ascii :=
  Ascii.ascii_of_N (Z.to_N (if d <? 10 then 48 + d else 87 + d)).

Fixpoint hex_digits (fuel : nat) (z : Z) (acc : string) : string :=
  match fuel with
  | O => acc
  | S fuel' =>
      let acc := String (hex_digit (z mod 16)) acc in
      if z <? 16 then acc else hex_digits fuel' (z / 16) acc
  end.

Definition toString16 (z : Z) : string :=
  if z <? 0
  then "-" +:+ hex_digits (S (Z.to_nat (Z.log2 (- z)))) (- z) EmptyString
  else hex_digits (S (Z.to_nat (Z.log2 z))) z EmptyString.

(* [s.padStart(len, '0')] *)
Definition padStart0 (s : string) (len : nat) : string :=
  zeros (len - String.length s) +:+ s.

Definition uint8ToHex (arr : list Z) : string :=
  String.concat " " ((λ b, padStart0 (toString16 b) 2) <$> arr).

(* What [sendMessage] stores in [lastHex] for an image:
   [uint8ToHex(ciphertext).slice(0, 3000) +
    (ciphertext.length * 3 > 3000 ? "..." : "")]. *)
Definition lastHex_of_image (ciphertext : list Z) : string :=
  String.substring 0 3000 (uint8ToHex ciphertext) +:+
  (if 3000 <? Z.of_nat (length ciphertext) * 3 then "..." else EmptyString).

(* [String.fromCharCode(c)] keeps the low sixteen bits. *)
Definition fromCharCode (c : Z) : Z := c mod 2 ^ 16.

(* The text that [handleDecrypt] shows for an exception. *)
Definition DECRYPTION_ERROR : list Z := code_units "[DECRYPTION ERROR]".

Section Host.

Variable btoa : list Z → option (list Z).
Variable atob : list Z → option (list Z).
Variable decode : list Z → list Z.

Definition uint8ToB64 (arr : list Z) : option (list Z) :=
  let binary := fold_left (λ binary b, binary ++ [fromCharCode b]) arr [] in
  btoa binary.

(* [binary.charCodeAt(i)] is [NaN] outside the string, which a
   [Uint8Array] stores as 0. *)
Definition b64ToUint8 (b64 : list Z) : option (list Z) :=
  binary ← atob b64;
  let bytes := replicate (length binary) 0 in
  Some (fold_left
          (λ bytes i, aset ToUint8 bytes i (default 0 (binary !! Z.to_nat i)))
          (seqZ 0 (Z.of_nat (length binary))) bytes).

(* [b64] is a string; [!b64] holds of the empty one. [decryptBytes]
   requests an array of the length of [bytes], never a negative one: the
   exceptions that the [catch] sees are those of [atob]. *)
Definition handleDecrypt (b64 : list Z) (mealyMachine : MealyMachine.t)
    : result (list Z * list Trajectory.step * MealyMachine.t) :=
  if bool_decide (b64 = []) then Ok ([], [], mealyMachine)
  else
    match b64ToUint8 b64 with
    | None => Ok (DECRYPTION_ERROR, [], mealyMachine)
    | Some bytes =>
        '(plaintext, trajectory, mealyMachine) ←
          MealyMachine.decryptBytes bytes mealyMachine;
        Ok (decode plaintext, trajectory, mealyMachine)
    end.

End Host.

(** ** The pixel loops of [processVaultAction]

    The RGBA data of a canvas is a [Uint8ClampedArray]; [blank] is the
    data of [ctx.createImageData(width, height)]. *)

Definition ToUint8Clamp (z : Z) : Z := Z.max 0 (Z.min 255 z).

(* The body of [for (let i = 0; i < imgData.data.length; i += 4)], for
   [i = 4 * k]. *)
Definition rgb_step (data : list Z) (k : Z) (pixels : list Z)
    : result (list Z) :=
  let i := 4 * k in
  let base := i / 4 * 3 in
  r ← aget data i;
  let pixels := aset ToUint8 pixels base r in
  g ← aget data (i + 1);
  let pixels := aset ToUint8 pixels (base + 1) g in
  b ← aget data (i + 2);
  Ok (aset ToUint8 pixels (base + 2) b).

Definition rgb_stream (data : list Z) (width height : Z) : result (list Z) :=
  pixels ← alloc (width * height * 3);
  for_up 0 (Z.to_nat ((Z.of_nat (length data) + 3) / 4)) (rgb_step data)
    pixels.

Definition render_step (stream : list Z) (i : Z) (data : list Z)
    : result (list Z) :=
  r ← aget stream (i * 3);
  let data := aset ToUint8Clamp data (i * 4) r in
  g ← aget stream (i * 3 + 1);
  let data := aset ToUint8Clamp data (i * 4 + 1) g in
  b ← aget stream (i * 3 + 2);
  let data := aset ToUint8Clamp data (i * 4 + 2) b in
  Ok (aset ToUint8Clamp data (i * 4 + 3) 255).

Definition render (stream : list Z) (width height : Z) (blank : list Z)
    : result (list Z) :=
  for_up 0 (Z.to_nat (width * height)) (render_step stream) blank.

(** ** A host for running the helpers

    Base64 as [btoa] and [atob] compute it on the strings that the
    component passes (no white space to skip), and the decoding of UTF-8
    on ASCII bytes. *)

Definition b64_alphabet : list Z :=
  code_units
    "ABCDEFGHIJKLMNOPQRSTUVWXYZabcdefghijklmnopqrstuvwxyz0123456789+/".

Definition b64_char (sextet : Z) : Z :=
  default 0 (b64_alphabet !! Z.to_nat sextet).

Fixpoint b64_index (alphabet : list Z) (c : Z) : option Z :=
  match alphabet with
  | [] => None
  | a :: alphabet' =>
      if c =? a then Some 0 else Z.succ <$> b64_index alphabet' c
  end.

Fixpoint b64_encode (l : list Z) : list Z :=
  match l with
  | a :: b :: c :: l' =>
      [b64_char (a / 4); b64_char (a mod 4 * 16 + b / 16);
       b64_char (b mod 16 * 4 + c / 64); b64_char (c mod 64)] ++
      b64_encode l'
  | [a; b] =>
      [b64_char (a / 4); b64_char (a mod 4 * 16 + b / 16);
       b64_char (b mod 16 * 4); 61]
  | [a] => [b64_char (a / 4); b64_char (a mod 4 * 16); 61; 61]
  | [] => []
  end.

Fixpoint b64_decode (l : list Z) : list Z :=
  match l with
  | a :: b :: c :: d :: l' =>
      [a * 4 + b / 16; b mod 16 * 16 + c / 4; c mod 4 * 64 + d] ++
      b64_decode l'
  | [a; b; c] => [a * 4 + b / 16; b mod 16 * 16 + c / 4]
  | [a; b] => [a * 4 + b / 16]
  | _ => []
  end.

Definition btoa_base64 (binary : list Z) : option (list Z) :=
  if forallb (λ c, c <? 256) binary then Some (b64_encode binary) else None.

Definition strip_padding (s : list Z) : list Z :=
  if (length s mod 4 =? 0)%nat
  then match reverse s with
       | 61 :: 61 :: s' => reverse s'
       | 61 :: s' => reverse s'
       | _ => s
       end
  else s.

Definition atob_base64 (b64 : list Z) : option (list Z) :=
  let s := strip_padding b64 in
  if (length s mod 4 =? 1)%nat then None
  else b64_decode <$> mapM (b64_index b64_alphabet) s.

Definition decode_ascii (bytes : list Z) : list Z := bytes.

(** ** Definitions used to state the properties *)

(* The spec's accumulator: [hash*31 + charCode], masked to 32 bits and
   reinterpreted as signed, at each character. *)
Definition wrap32 (z : Z) : Z :=
  let u := z mod 2 ^ 32 in
  if u <? 2 ^ 31 then u else u - 2 ^ 32.

Definition hash_reference (key : list Z) : Z :=
  fold_left (λ hash c, wrap32 (hash * 31 + c)) key 0.

(* The seed as a function of [|hash| % 800000], the latter as a machine
   integer. *)
Definition seed_of_int (k : int) : float :=
  PrimFloat.add 0.1 (PrimFloat.div (PrimFloat.of_uint63 k) 1000000.0).

Definition in_open_01_09 (x : float) : bool :=
  PrimFloat.ltb 0.1 x && PrimFloat.ltb x 0.9.
Definition in_half_open_01_09 (x : float) : bool :=
  PrimFloat.leb 0.1 x && PrimFloat.ltb x 0.9.

Fixpoint all_from_int (i : int) (k : nat) (P : int → bool) : bool :=
  match k with
  | O => true
  | S k' => P i && all_from_int (Uint63.add i 1) k' P
  end.

Fixpoint all_from (i : Z) (k : nat) (P : Z → bool) : bool :=
  match k with
  | O => true
  | S k' => P i && all_from (i + 1) k' P
  end.

(* The first [k] outputs of a generator, without the array. *)
Fixpoint outputs (k : nat) (g : LogisticMoore.t) : list Z :=
  match k with
  | O => []
  | S k' =>
      let '(v, g') := LogisticMoore.produceOutput g in v :: outputs k' g'
  end.

(* A table of [n] rows of [m] entries, and its entry [x] of row [s]. *)
Definition table_shape (n m : Z) (t : list (list Z)) : Prop :=
  length t = Z.to_nat n ∧ Forall (λ row, length row = Z.to_nat m) t.

Definition entry (t : list (list Z)) (s x : Z) : option Z :=
  t !! Z.to_nat s ≫= λ row, row !! Z.to_nat x.

(* The transition fill has run up to the cursor [c]: every entry of
   [delta] whose row-major index is below [c] holds the entropy value at
   that index, reduced modulo [n]; nothing but [delta] has changed. *)
Definition delta_filled (entropy : list Z) (n m : Z) (M0 : MealyMachine.t)
    (c : Z) (st : MealyMachine.t * Z) : Prop :=
  st.2 = c ∧
  ∃ D, st.1 = MealyMachine.set_delta M0 D ∧ table_shape n m D ∧
    ∀ s i, 0 ≤ s < n → 0 ≤ i < m → s * m + i < c →
      ∃ e, entropy !! Z.to_nat (s * m + i) = Some e ∧
           entry D s i = Some (Z.abs e mod n).

(* Row [s] of the output tables after the permutation fill: [lambdaTable]
   holds what the shuffle made of the identity with the [m - 1] entropy
   values from [n*m + s*(m-1)] on, a permutation of [0, m), and
   [lambdaInv] holds its inverse. *)
Definition perm_row (entropy : list Z) (n m : Z) (LT LI : list (list Z))
    (s : Z) : Prop :=
  ∃ lrow irow,
    LT !! Z.to_nat s = Some lrow ∧ LI !! Z.to_nat s = Some irow ∧
    shuffle entropy m (seqZ 0 m, n * m + s * (m - 1)) =
      Ok (lrow, n * m + (s + 1) * (m - 1)) ∧
    lrow ≡ₚ seqZ 0 m ∧ length irow = Z.to_nat m ∧
    ∀ i v, lrow !! i = Some v → irow !! Z.to_nat v = Some (Z.of_nat i).

(* The permutation fill has done the rows below [s]; nothing but the two
   output tables has changed. *)
Definition lambda_filled (entropy : list Z) (n m : Z) (M1 : MealyMachine.t)
    (s : Z) (st : MealyMachine.t * Z) : Prop :=
  st.2 = n * m + s * (m - 1) ∧
  ∃ LT LI, st.1 = MealyMachine.set_lambdas M1 LT LI ∧
    table_shape n m LT ∧ table_shape n m LI ∧
    ∀ s', 0 ≤ s' < s → perm_row entropy n m LT LI s'.

(* The machine that the two fills make of a fresh one, in terms of the
   entropy array they read. *)
Definition built_from (entropy : list Z) (n m : Z) (M : MealyMachine.t)
    : Prop :=
  MealyMachine.n M = n ∧ MealyMachine.m M = m ∧
  MealyMachine.currentState M = 0 ∧
  table_shape n m (MealyMachine.delta M) ∧
  table_shape n m (MealyMachine.lambdaTable M) ∧
  table_shape n m (MealyMachine.lambdaInv M) ∧
  (∀ s i, 0 ≤ s < n → 0 ≤ i < m →
     ∃ e, entropy !! Z.to_nat (s * m + i) = Some e ∧
          entry (MealyMachine.delta M) s i = Some (Z.abs e mod n)) ∧
  (∀ s, 0 ≤ s < n →
     perm_row entropy n m (MealyMachine.lambdaTable M)
       (MealyMachine.lambdaInv M) s).

(* The machine that [new MealyMachine(n, m)] returns for positive [n]. *)
Definition fresh_machine (n m : Z) : MealyMachine.t :=
  MealyMachine.mk n m 0
    (replicate (Z.to_nat n) (replicate (Z.to_nat m) 0))
    (replicate (Z.to_nat n) (replicate (Z.to_nat m) 0))
    (replicate (Z.to_nat n) (replicate (Z.to_nat m) 0)).

(* Entry [x] of row [s], read totally (0 outside the table). *)
Definition at2 (t : list (list Z)) (s x : Z) : Z := default 0 (entry t s x).

(* A machine whose tables are fit for the cipher: [n] rows of 256 entries,
   transitions that stay among the states, and in every state an output
   row and an inverse row that undo one another on the bytes. *)
Definition wf (M : MealyMachine.t) : Prop :=
  0 < MealyMachine.n M ∧ MealyMachine.m M = 256 ∧
  table_shape (MealyMachine.n M) 256 (MealyMachine.delta M) ∧
  table_shape (MealyMachine.n M) 256 (MealyMachine.lambdaTable M) ∧
  table_shape (MealyMachine.n M) 256 (MealyMachine.lambdaInv M) ∧
  (∀ s x, 0 ≤ s < MealyMachine.n M → 0 ≤ x < 256 →
     ∃ d, entry (MealyMachine.delta M) s x = Some d ∧
          0 ≤ d < MealyMachine.n M) ∧
  (∀ s x, 0 ≤ s < MealyMachine.n M → 0 ≤ x < 256 →
     ∃ y, entry (MealyMachine.lambdaTable M) s x = Some y ∧ 0 ≤ y < 256 ∧
          entry (MealyMachine.lambdaInv M) s y = Some x) ∧
  (∀ s y, 0 ≤ s < MealyMachine.n M → 0 ≤ y < 256 →
     ∃ x, entry (MealyMachine.lambdaInv M) s y = Some x ∧ 0 ≤ x < 256 ∧
          entry (MealyMachine.lambdaTable M) s x = Some y).

Definition is_byte (b : Z) : Prop := 0 ≤ b < 256.

(* Two machines with the same parameters and tables. *)
Definition same_tables (M M' : MealyMachine.t) : Prop :=
  MealyMachine.n M' = MealyMachine.n M ∧
  MealyMachine.m M' = MealyMachine.m M ∧
  MealyMachine.delta M' = MealyMachine.delta M ∧
  MealyMachine.lambdaTable M' = MealyMachine.lambdaTable M ∧
  MealyMachine.lambdaInv M' = MealyMachine.lambdaInv M.

(* Element [i] of a byte sequence, 0 past its end. *)
Definition byte_at (bytes : list Z) (i : nat) : Z := default 0 (bytes !! i).

(* The state after [k] warm-up transitions from state 0. *)
Fixpoint warm_state (δ : list (list Z)) (k : nat) : Z :=
  match k with
  | O => 0
  | S k' => at2 δ (warm_state δ k') (Z.of_nat k' mod 256)
  end.

(* The state in which byte [i] of an encryption is processed, the byte
   emitted there, and the trajectory entry recorded there. *)
Fixpoint enc_state (M : MealyMachine.t) (bytes : list Z) (i : nat) : Z :=
  match i with
  | O => warm_state (MealyMachine.delta M) 500
  | S i' =>
      (at2 (MealyMachine.delta M) (enc_state M bytes i') (byte_at bytes i')
       + Z.of_nat i') mod MealyMachine.n M
  end.

Definition enc_output (M : MealyMachine.t) (bytes : list Z) (i : nat) : Z :=
  at2 (MealyMachine.lambdaTable M) (enc_state M bytes i) (byte_at bytes i).

Definition enc_entry (M : MealyMachine.t) (bytes : list Z) (t : nat)
    : Trajectory.step :=
  Trajectory.mk (Z.of_nat t) (enc_state M bytes t) (byte_at bytes t)
    (enc_state M bytes (S t)) (enc_output M bytes t).

(* The same for a decryption. *)
Definition dec_output_at (M : MealyMachine.t) (s c : Z) : Z :=
  at2 (MealyMachine.lambdaInv M) s c.

Fixpoint dec_state (M : MealyMachine.t) (bytes : list Z) (i : nat) : Z :=
  match i with
  | O => warm_state (MealyMachine.delta M) 500
  | S i' =>
      (at2 (MealyMachine.delta M) (dec_state M bytes i')
         (dec_output_at M (dec_state M bytes i') (byte_at bytes i'))
       + Z.of_nat i') mod MealyMachine.n M
  end.

Definition dec_output (M : MealyMachine.t) (bytes : list Z) (i : nat) : Z :=
  dec_output_at M (dec_state M bytes i) (byte_at bytes i).

Definition dec_entry (M : MealyMachine.t) (bytes : list Z) (t : nat)
    : Trajectory.step :=
  Trajectory.mk (Z.of_nat t) (dec_state M bytes t) (dec_output M bytes t)
    (dec_state M bytes (S t)) (byte_at bytes t).

(* The machines that calls of [reset], [encryptBytes] and [decryptBytes]
   make of a machine. *)
Inductive reachable (M : MealyMachine.t) : MealyMachine.t → Prop :=
  | reach_here : reachable M M
  | reach_reset M' :
      reachable M M' → reachable M (MealyMachine.reset M')
  | reach_encrypt M' bytes ct tr M'' :
      reachable M M' →
      MealyMachine.encryptBytes bytes M' = Ok (ct, tr, M'') →
      reachable M M''
  | reach_decrypt M' bytes pt tr M'' :
      reachable M M' →
      MealyMachine.decryptBytes bytes M' = Ok (pt, tr, M'') →
      reachable M M''.

(* Row [irow] undoes row [lrow], and the other way round. *)
Definition inverse_rows (lrow irow : list Z) : Prop :=
  (∀ x y, lrow !! x = Some y → irow !! Z.to_nat y = Some (Z.of_nat x)) ∧
  (∀ y x, irow !! y = Some x → lrow !! Z.to_nat x = Some (Z.of_nat y)).

(* The number of positions at which two sequences differ. *)
Fixpoint count_diff (a b : list Z) : Z :=
  match a, b with
  | x :: a', y :: b' =>
      (if bool_decide (x ≠ y) then 1 else 0) + count_diff a' b'
  | _, _ => 0
  end.

(* The number of occurrences of a value in a sequence. *)
Definition occurrences (data : list Z) (v : Z) : Z :=
  Z.of_nat (length (filter (λ x, x = v) data)).

(* The bins of a histogram [f] over the values [lo, lo + len): the values
   that occur, in ascending order, each with its count. *)
Definition bins (lo : Z) (len : nat) (f : Z → Z) : list (Z * Z) :=
  filter (λ p, p.2 ≠ 0) ((λ v, (v, f v)) <$> seqZ lo (Z.of_nat len)).

(* The counts of the byte values that occur in [data], in ascending order
   of the value. *)
Definition histogram (data : list Z) : list Z :=
  filter (λ c, c ≠ 0) (occurrences data <$> seqZ 0 256).

(* [h] hundredths is a two-decimal value nearest to the percentage
   [100 * d / L]. *)
Definition nearest_hundredth (d L h : Z) : Prop :=
  2 * Z.abs (h * L - 10000 * d) ≤ L.

(* The check of [nearest_hundredth] on what [calculateNPCR] prints for
   [d] differing positions out of [L]. *)
Definition npcr_cell (L d : Z) : bool :=
  match Prim2SF (PrimFloat.mul (PrimFloat.div (Z2F d) (Z2F L)) 100) with
  | S754_zero _ => d =? 0
  | S754_finite false mant e =>
      negb (at_least_1e21 mant e) &&
      (2 * Z.abs (nearest_scaled mant e 2 * L - 10000 * d) <=? L)
  | _ => false
  end.

(* A machine of two states from key ["test"], for running the cipher. *)
Definition small_machine : result MealyMachine.t :=
  fst <$> buildMealyMachine 2 256 (LogisticMoore.new (code_units "test") 1000).

(* RGBA data with every fourth value, the alpha of a pixel, set to 255. *)
Definition opaque (data : list Z) : list Z :=
  imap (λ i v, if Z.of_nat i mod 4 =? 3 then 255 else v) data.

(* A machine of two states, in state [s]: every byte moves it to the
   other state, and it emits the byte it reads. *)
Definition flip_machine (s : Z) : MealyMachine.t :=
  MealyMachine.mk 2 256 s
    [replicate 256 1; replicate 256 0]
    [seqZ 0 256; seqZ 0 256] [seqZ 0 256; seqZ 0 256].

(** * Properties *)

(** ** The model at work on concrete inputs *)

Example key_hash_test : LogisticMoore.key_hash (code_units "test") = 3556498.
Proof. reflexivity. Qed.

Example key_hash_default_key :
  LogisticMoore.key_hash (code_units "Butterfly_Effect_2026") = 433434340.
Proof. vm_compute. reflexivity. Qed.

Example key_hash_wraps :
  LogisticMoore.key_hash (code_units "secret") = -906277200.
Proof. vm_compute. reflexivity. Qed.

Example seed_test :
  LogisticMoore._initializeSeed (code_units "test")
  = 0.45649799999999996%float.
Proof. vm_compute. reflexivity. Qed.

Example stabilized_state_test :
  LogisticMoore.state (LogisticMoore.new (code_units "test") 1000)
  = 0.00023206045392701693%float.
Proof. vm_compute. reflexivity. Qed.

Example stream_test :
  fst <$> LogisticMoore.generateStream 5
            (LogisticMoore.new (code_units "test") 1000)
  = Ok [362501252; 1448623184; 1477892384; 1274776182; 4092270021].
Proof. vm_compute. reflexivity. Qed.

Example stream_negative_count g :
  LogisticMoore.generateStream (-1) g = Err RangeError.
Proof. reflexivity. Qed.

Example Math_floor_examples :
  Math_floor 0.5 = 0%float ∧ Math_floor (-0.5) = (-1)%float ∧
  Math_floor 2.5 = 2%float ∧ Math_floor (-2.5) = (-3)%float ∧
  Math_floor 45649799999999.996 = 45649799999999%float.
Proof. vm_compute. done. Qed.

Example ToUint32F_examples :
  ToUint32F 4294967297.5 = 1 ∧ ToUint32F (-1) = 4294967295 ∧
  ToUint32F 178319531249 = 2225872113.
Proof. vm_compute. done. Qed.

Example toFixed_examples :
  toFixed no_toString 1.005 2 = "1.00" ∧
  toFixed no_toString 0.125 2 = "0.13" ∧
  toFixed no_toString 66.66666666666667 2 = "66.67" ∧
  toFixed no_toString (-0.001) 2 = "-0.00" ∧
  toFixed no_toString 2.5 0 = "3" ∧
  toFixed no_toString 0.000001 4 = "0.0000" ∧
  toFixed no_toString (PrimFloat.div 0 0) 2 = "NaN".
Proof. vm_compute. done. Qed.

(* One machine, three calls: an encryption, the decryption of its
   ciphertext, and an encryption that reads outside the alphabet, where
   the run stops at the read that finds nothing. *)
Example small_machine_calls :
  (small_machine ≫= λ M,
     Ok (MealyMachine.encryptBytes [72; 105; 1; 2; 3] M,
         fst <$> MealyMachine.decryptBytes [147; 200; 227; 249; 175] M,
         MealyMachine.encryptBytes [300] M))
  = (small_machine ≫= λ M,
       Ok (Ok ([147; 200; 227; 249; 175],
               [Trajectory.mk 0 0 72 1 147; Trajectory.mk 1 1 105 1 200;
                Trajectory.mk 2 1 1 0 227; Trajectory.mk 3 0 2 1 249;
                Trajectory.mk 4 1 3 0 175],
               MealyMachine.set_currentState M 0),
           Ok ([72; 105; 1; 2; 3],
               [Trajectory.mk 0 0 72 1 147; Trajectory.mk 1 1 105 1 200;
                Trajectory.mk 2 1 1 0 227; Trajectory.mk 3 0 2 1 249;
                Trajectory.mk 4 1 3 0 175]),
           Err Undefined)).
Proof. vm_compute. reflexivity. Qed.

(* Two states over four symbols: the tables, and the cursor that stops
   two short of the sixteen values. *)
Example tiny_fill :
  fill_tables
    (outputs 16 (LogisticMoore.new (code_units "test") 1000))
    2 4 (fresh_machine 2 4)
  = Ok (MealyMachine.mk 2 4 0
          [[0; 0; 0; 0]; [1; 1; 0; 1]]
          [[0; 1; 3; 2]; [3; 1; 0; 2]]
          [[0; 1; 3; 2]; [2; 1; 3; 0]],
        14).
Proof. vm_compute. reflexivity. Qed.

(* A [Uint8Array] keeps the low eight bits: beyond 256 symbols the
   identity that the shuffle starts from repeats values. *)
Example init_perm_wraps :
  init_perm 300 = Ok (seqZ 0 256 ++ seqZ 0 44).
Proof. vm_compute. reflexivity. Qed.

Example npcr_both_empty :
  calculateNPCR no_toString (Some []) (Some []) = Ok "NaN".
Proof. vm_compute. reflexivity. Qed.

Example npcr_one_in_three :
  calculateNPCR no_toString (Some [1; 2; 3]) (Some [1; 9; 9]) = Ok "66.67".
Proof. vm_compute. reflexivity. Qed.

Example entropy_of_four_values :
  calculateEntropy log2_pow2 no_toString (Some [3; 1; 2; 0; 1; 2; 3; 0])
  = "2.0000".
Proof. vm_compute. reflexivity. Qed.

(** ** Loops and arrays *)

Lemma bind_Ok {A B} (a : A) (f : A → result B) : (Ok a ≫= f) = f a.
Proof. reflexivity. Qed.

Lemma bind_is_Ok {A B} (r : result A) (f : A → result B) b :
  r ≫= f = Ok b ↔ ∃ a, r = Ok a ∧ f a = Ok b.
Proof.
  split.
  - destruct r as [a|e]; cbn; [|done]. intros H. by exists a.
  - by intros (a & -> & H).
Qed.

Lemma for_up_inv {St} (I : Z → St → Prop) (body : Z → St → result St) lo k st :
  I lo st →
  (∀ i st, lo ≤ i < lo + Z.of_nat k → I i st →
     ∃ st', body i st = Ok st' ∧ I (i + 1) st') →
  ∃ st', for_up lo k body st = Ok st' ∧ I (lo + Z.of_nat k) st'.
Proof.
  revert lo st. induction k as [|k IH]; intros lo st H0 Hstep.
  - exists st. split; [done|]. by replace (lo + Z.of_nat 0) with lo by lia.
  - destruct (Hstep lo st) as (st1 & Hb & H1); [lia|done|].
    destruct (IH (lo + 1) st1) as (st2 & Hl & H2); [done| |].
    { intros i st' Hi. apply Hstep. lia. }
    exists st2. split.
    + cbn [for_up]. rewrite Hb. exact Hl.
    + by replace (lo + Z.of_nat (S k)) with (lo + 1 + Z.of_nat k) by lia.
Qed.

Lemma for_down_inv {St} (I : Z → St → Prop) (body : Z → St → result St) hi k st :
  I hi st →
  (∀ i st, hi - Z.of_nat k < i ≤ hi → I i st →
     ∃ st', body i st = Ok st' ∧ I (i - 1) st') →
  ∃ st', for_down hi k body st = Ok st' ∧ I (hi - Z.of_nat k) st'.
Proof.
  revert hi st. induction k as [|k IH]; intros hi st H0 Hstep.
  - exists st. split; [done|]. by replace (hi - Z.of_nat 0) with hi by lia.
  - destruct (Hstep hi st) as (st1 & Hb & H1); [lia|done|].
    destruct (IH (hi - 1) st1) as (st2 & Hl & H2); [done| |].
    { intros i st' Hi. apply Hstep. lia. }
    exists st2. split.
    + cbn [for_down]. rewrite Hb. exact Hl.
    + by replace (hi - Z.of_nat (S k)) with (hi - 1 - Z.of_nat k) by lia.
Qed.

Lemma aget_Ok {A} (a : list A) (i : Z) v :
  aget a i = Ok v ↔ 0 ≤ i ∧ a !! Z.to_nat i = Some v.
Proof.
  unfold aget. destruct (Z.ltb_spec i 0).
  - split; [done|lia].
  - destruct (a !! Z.to_nat i) as [w|].
    + split; [intros [= ->]; by split|intros [_ [= ->]]; done].
    + split; [done|by intros [_ ?]].
Qed.

Lemma aget_lookup {A} (a : list A) (i : nat) v :
  a !! i = Some v → aget a (Z.of_nat i) = Ok v.
Proof. intros. apply aget_Ok. rewrite Nat2Z.id. split; [lia|done]. Qed.

Lemma aget_in_range {A} (a : list A) (i : Z) :
  0 ≤ i < Z.of_nat (length a) → ∃ v, aget a i = Ok v ∧ a !! Z.to_nat i = Some v.
Proof.
  intros Hi. destruct (lookup_lt_is_Some_2 a (Z.to_nat i)) as [v Hv]; [lia|].
  exists v. split; [|done]. apply aget_Ok. split; [lia|done].
Qed.

Lemma length_aset wrap a i v : length (aset wrap a i v) = length a.
Proof. unfold aset. destruct (i <? 0); [done|]. apply length_insert. Qed.

Lemma aset_nonneg wrap a i v :
  0 ≤ i → aset wrap a i v = <[Z.to_nat i := wrap v]> a.
Proof. unfold aset. intros. destruct (Z.ltb_spec i 0); [lia|done]. Qed.

Lemma tset_Ok wrap (t : list (list Z)) s i v row :
  0 ≤ s → t !! Z.to_nat s = Some row →
  tset wrap t s i v = Ok (<[Z.to_nat s := aset wrap row i v]> t).
Proof.
  intros Hs Hrow. unfold tset.
  assert (aget t s = Ok row) as -> by (apply aget_Ok; done). done.
Qed.

Lemma alloc_Ok len : 0 ≤ len → alloc len = Ok (replicate (Z.to_nat len) 0).
Proof. unfold alloc. intros. destruct (Z.ltb_spec len 0); [lia|done]. Qed.

Lemma js_rem_mod a b : 0 ≤ a → 0 < b → js_rem a b = a mod b.
Proof. intros. unfold js_rem. apply Z.rem_mod_nonneg; lia. Qed.

Lemma js_rem_abs_range e b : 0 < b → 0 ≤ js_rem (Z.abs e) b < b.
Proof. intros. rewrite js_rem_mod by lia. by apply Z.mod_pos_bound. Qed.

(** ** Conversions to 32 bits *)

Lemma ToInt32_wrap32 z : ToInt32 z = wrap32 z.
Proof.
  unfold ToInt32, wrap32. cbv zeta.
  pose proof (Z.mod_pos_bound z (2 ^ 32) ltac:(lia)) as Hz.
  pose proof (Z.div_mod z (2 ^ 32) ltac:(lia)) as Hdm.
  destruct (Z.ltb_spec (z mod 2 ^ 32) (2 ^ 31)).
  - rewrite <- (Z.mod_unique (z + 2 ^ 31) (2 ^ 32) (z / 2 ^ 32)
                  (z mod 2 ^ 32 + 2 ^ 31)); lia.
  - rewrite <- (Z.mod_unique (z + 2 ^ 31) (2 ^ 32) (z / 2 ^ 32 + 1)
                  (z mod 2 ^ 32 - 2 ^ 31)); lia.
Qed.

Lemma ToInt32_congr a b :
  a mod 2 ^ 32 = b mod 2 ^ 32 → ToInt32 a = ToInt32 b.
Proof. intros H. rewrite !ToInt32_wrap32. unfold wrap32. by rewrite H. Qed.

Lemma ToInt32_mod z : ToInt32 z mod 2 ^ 32 = z mod 2 ^ 32.
Proof.
  unfold ToInt32. rewrite Zminus_mod, Z.mod_mod by lia.
  rewrite <- Zminus_mod. f_equal. lia.
Qed.

Lemma ToInt32_small z : - 2 ^ 31 ≤ z < 2 ^ 31 → ToInt32 z = z.
Proof. intros. unfold ToInt32. rewrite Z.mod_small; lia. Qed.

Lemma ToUint8_small z : 0 ≤ z < 256 → ToUint8 z = z.
Proof. intros. unfold ToUint8. rewrite Z.mod_small; lia. Qed.

Lemma hash_step_reference hash c :
  LogisticMoore.hash_step hash c = wrap32 (hash * 31 + c).
Proof.
  unfold LogisticMoore.hash_step, bor, shl.
  change (ToInt32 0) with 0. rewrite Z.lor_0_r.
  change (Z.land (ToUint32 5) 31) with 5.
  rewrite Z.shiftl_mul_pow2 by lia.
  rewrite <- ToInt32_wrap32. apply ToInt32_congr.
  rewrite ToInt32_mod.
  rewrite Zplus_mod, Zminus_mod, ToInt32_mod, (Zmult_mod (ToInt32 hash)),
    ToInt32_mod.
  rewrite <- Zmult_mod, <- Zminus_mod, <- Zplus_mod. f_equal. lia.
Qed.

Lemma fold_left_pointwise {A B} (f g : A → B → A) (l : list B) (a : A) :
  (∀ a b, f a b = g a b) → fold_left f l a = fold_left g l a.
Proof.
  intros Hfg. revert a. induction l as [|b l IH]; intros a; [done|].
  cbn [fold_left]. rewrite Hfg. apply IH.
Qed.

(** C7. For every key, the hash that [_initializeSeed] accumulates with
    [((hash << 5) - hash + charCode) | 0] is the hash of the reference
    accumulator, which wraps [hash*31 + charCode] to a signed 32-bit
    integer at each character. *)
Theorem hash_refines_reference (key : list Z) :
  LogisticMoore.key_hash key = hash_reference key.
Proof. apply fold_left_pointwise, hash_step_reference. Qed.

(** ** The seed *)

Lemma all_from_spec k P lo i :
  all_from lo k P = true → lo ≤ i < lo + Z.of_nat k → P i = true.
Proof.
  revert lo. induction k as [|k IH]; intros lo; [lia|].
  cbn [all_from]. intros [HP Hk]%andb_prop Hi.
  destruct (decide (i = lo)) as [->|]; [done|].
  apply (IH (lo + 1)); [done|lia].
Qed.

Lemma all_from_int_spec k P i d :
  all_from_int i k P = true → (d < k)%nat →
  P (Nat.iter d (λ x, Uint63.add x 1) i) = true.
Proof.
  revert i d. induction k as [|k IH]; intros i d; [lia|].
  cbn [all_from_int]. intros [HP Hk]%andb_prop Hd.
  destruct d as [|d]; [done|].
  rewrite Nat.iter_succ_r. apply IH; [done|lia].
Qed.

Lemma iter_succ_to_Z d i :
  Uint63.to_Z i + Z.of_nat d < 2 ^ 63 →
  Uint63.to_Z (Nat.iter d (λ x, Uint63.add x 1) i)
  = Uint63.to_Z i + Z.of_nat d.
Proof.
  induction d as [|d IH]; intros Hd; [cbn; lia|].
  rewrite Nat.iter_succ, Uint63.add_spec, IH, Uint63.to_Z_1 by lia.
  pose proof (Uint63.to_Z_bounded i) as Hi.
  change Uint63.wB with (2 ^ 63) in *. rewrite Z.mod_small; lia.
Qed.

Lemma iter_succ_of_Z j :
  1 ≤ j < 2 ^ 63 →
  Nat.iter (Z.to_nat (j - 1)) (λ x, Uint63.add x 1) 1%uint63 = Uint63.of_Z j.
Proof.
  intros Hj. apply Uint63.to_Z_inj.
  rewrite iter_succ_to_Z, Uint63.to_Z_1, Uint63.of_Z_spec
    by (rewrite Uint63.to_Z_1; lia).
  change Uint63.wB with (2 ^ 63). rewrite Z.mod_small; lia.
Qed.

(* All the seeds but the one of index 0 are inside the open interval. *)
Lemma seed_index_table :
  all_from_int 1 (Z.to_nat 799999)
    (λ k, in_half_open_01_09 (seed_of_int k) && in_open_01_09 (seed_of_int k))
  = true.
Proof. vm_cast_no_check (eq_refl true). Qed.

Lemma seed_index_range key :
  0 ≤ js_rem (Z.abs (LogisticMoore.key_hash key)) 800000 < 800000.
Proof. apply js_rem_abs_range. lia. Qed.

Lemma seed_of_index key :
  LogisticMoore._initializeSeed key =
  seed_of_int (Uint63.of_Z (js_rem (Z.abs (LogisticMoore.key_hash key)) 800000)).
Proof.
  pose proof (seed_index_range key) as Hr.
  unfold LogisticMoore._initializeSeed, seed_of_int, Z2F. cbv zeta.
  by destruct (Z.ltb_spec (js_rem (Z.abs (LogisticMoore.key_hash key)) 800000)
                 0); [lia|].
Qed.

(** C6, as the code has it. For every key the seed lies in the half-open
    interval [0.1, 0.9): it is at least 0.1, below 0.9, and above 0.1
    exactly when [|hash| % 800000] is not zero. *)
Theorem seed_in_half_open_interval (key : list Z) :
  in_half_open_01_09 (LogisticMoore._initializeSeed key) = true ∧
  PrimFloat.ltb 0.1 (LogisticMoore._initializeSeed key) =
    negb (js_rem (Z.abs (LogisticMoore.key_hash key)) 800000 =? 0).
Proof.
  pose proof (seed_index_range key) as Hr. rewrite seed_of_index.
  destruct (Z.eqb_spec (js_rem (Z.abs (LogisticMoore.key_hash key)) 800000) 0)
    as [->|Hne].
  - by vm_compute.
  - pose proof (all_from_int_spec _ _ _
                  (Z.to_nat
                     (js_rem (Z.abs (LogisticMoore.key_hash key)) 800000 - 1))
                  seed_index_table ltac:(lia)) as Hcell.
    cbv beta in Hcell. rewrite iter_succ_of_Z in Hcell by lia.
    apply andb_prop in Hcell as [Hhalf Hopen].
    unfold in_open_01_09 in Hopen. apply andb_prop in Hopen as [Hlo _].
    by rewrite Hhalf, Hlo.
Qed.

(** C6, as the spec states it, fails on the empty key: its hash is 0 and
    its seed is 0.1 itself, which is not inside the open interval. *)
Lemma seed_of_empty_key_not_in_open_interval :
  in_open_01_09 (LogisticMoore._initializeSeed []) = false.
Proof. vm_compute. reflexivity. Qed.

(** ** The generator *)

Lemma ToUint32F_range x : 0 ≤ ToUint32F x < 2 ^ 32.
Proof.
  unfold ToUint32F, ToUint32.
  destruct (Prim2SF x); try lia. apply Z.mod_pos_bound. lia.
Qed.

Lemma ToUint32_small z : 0 ≤ z < 2 ^ 32 → ToUint32 z = z.
Proof. intros. unfold ToUint32. by apply Z.mod_small. Qed.

Lemma produceOutput_range g : 0 ≤ (LogisticMoore.produceOutput g).1 < 2 ^ 32.
Proof. apply ToUint32F_range. Qed.

Lemma length_outputs k g : length (outputs k g) = k.
Proof.
  revert g. induction k as [|k IH]; intros g; [done|].
  cbn [outputs]. destruct (LogisticMoore.produceOutput g) as [v g'].
  cbn. by rewrite IH.
Qed.

Lemma outputs_range k g : Forall (λ v, 0 ≤ v < 2 ^ 32) (outputs k g).
Proof.
  revert g. induction k as [|k IH]; intros g; [constructor|].
  cbn [outputs]. pose proof (produceOutput_range g) as Hr.
  destruct (LogisticMoore.produceOutput g) as [v g']. by constructor.
Qed.

Lemma stream_step_eq i stream g :
  LogisticMoore.stream_step i (stream, g) =
  Ok (aset ToUint32 stream i (LogisticMoore.produceOutput g).1,
      LogisticMoore._transition g).
Proof. done. Qed.

Lemma outputs_S k g :
  outputs (S k) g =
  (LogisticMoore.produceOutput g).1 :: outputs k (LogisticMoore._transition g).
Proof. done. Qed.

Lemma stream_loop k lo (stream : list Z) g :
  (lo + k ≤ length stream)%nat →
  for_up (Z.of_nat lo) k LogisticMoore.stream_step (stream, g) =
  Ok (take lo stream ++ outputs k g ++ drop (lo + k) stream,
      Nat.iter k LogisticMoore._transition g).
Proof.
  revert lo stream g. induction k as [|k IH]; intros lo stream g Hlen.
  - cbn. by rewrite Nat.add_0_r, take_drop.
  - cbn [for_up]. rewrite stream_step_eq, bind_Ok, outputs_S.
    pose proof (produceOutput_range g) as Hr.
    set (v := (LogisticMoore.produceOutput g).1) in *.
    rewrite aset_nonneg, ToUint32_small, Nat2Z.id by lia.
    replace (Z.of_nat lo + 1) with (Z.of_nat (S lo)) by lia.
    rewrite IH by (rewrite length_insert; lia).
    rewrite Nat.iter_succ_r. f_equal. f_equal.
    rewrite (take_S_r _ _ v) by (apply list_lookup_insert_eq; lia).
    rewrite take_insert_ge, drop_insert_lt by lia.
    rewrite <- app_assoc. cbn. do 4 f_equal. lia.
Qed.

Lemma generateStream_spec count g :
  0 ≤ count →
  LogisticMoore.generateStream count g =
  Ok (outputs (Z.to_nat count) g,
      Nat.iter (Z.to_nat count) LogisticMoore._transition g).
Proof.
  intros Hc. unfold LogisticMoore.generateStream.
  rewrite alloc_Ok, bind_Ok by done.
  rewrite (stream_loop _ 0) by (rewrite length_replicate; lia).
  rewrite take_0, drop_replicate, Nat.sub_diag. cbn. by rewrite app_nil_r.
Qed.

Lemma generateStream_negative count g :
  count < 0 → LogisticMoore.generateStream count g = Err RangeError.
Proof.
  intros Hc. unfold LogisticMoore.generateStream, alloc.
  by destruct (Z.ltb_spec count 0); [|lia].
Qed.

(** ** Tables *)

Lemma table_shape_row n m t s :
  table_shape n m t → 0 ≤ s < n →
  ∃ row, t !! Z.to_nat s = Some row ∧ length row = Z.to_nat m.
Proof.
  intros [Hlen Hrows] Hs.
  destruct (lookup_lt_is_Some_2 t (Z.to_nat s)) as [row Hrow]; [lia|].
  exists row. split; [done|]. by eapply (Forall_lookup_1 _ _ _ _ Hrows).
Qed.

Lemma table_shape_insert n m t s row :
  table_shape n m t → length row = Z.to_nat m →
  table_shape n m (<[s := row]> t).
Proof.
  intros [Hlen Hrows] Hrow. split; [by rewrite length_insert|].
  by apply Forall_insert.
Qed.

Lemma table_shape_replicate n m :
  table_shape n m (replicate (Z.to_nat n) (replicate (Z.to_nat m) 0)).
Proof.
  split; [by rewrite length_replicate|].
  apply Forall_replicate. by rewrite length_replicate.
Qed.

Lemma entry_insert t s row s' x :
  0 ≤ s → 0 ≤ s' → (Z.to_nat s < length t)%nat →
  entry (<[Z.to_nat s := row]> t) s' x =
  if decide (s' = s) then row !! Z.to_nat x else entry t s' x.
Proof.
  intros Hs Hs' Hlen. unfold entry. case_decide as Heq.
  - subst s'. by rewrite list_lookup_insert_eq.
  - rewrite list_lookup_insert_ne; [done|lia].
Qed.

Lemma lookup_aset wrap row i v x :
  0 ≤ i → 0 ≤ x → (Z.to_nat i < length row)%nat →
  aset wrap row i v !! Z.to_nat x =
  if decide (x = i) then Some (wrap v) else row !! Z.to_nat x.
Proof.
  intros Hi Hx Hlen. rewrite aset_nonneg by done. case_decide as Heq.
  - subst x. by rewrite list_lookup_insert_eq.
  - rewrite list_lookup_insert_ne; [done|lia].
Qed.

Lemma new_table_Ok n m :
  0 < n → 0 ≤ m →
  MealyMachine.new_table n m =
  Ok (replicate (Z.to_nat n) (replicate (Z.to_nat m) 0)).
Proof.
  intros Hn Hm. unfold MealyMachine.new_table.
  destruct (Z.leb_spec n 0); [lia|]. by rewrite alloc_Ok.
Qed.

Lemma MealyMachine_new_Ok n m :
  0 < n → 0 ≤ m → MealyMachine.new n m = Ok (fresh_machine n m).
Proof.
  intros Hn Hm. unfold MealyMachine.new. by rewrite new_table_Ok.
Qed.

(** ** The transition fill *)

Section delta_fill.
Context (entropy : list Z) (n m : Z) (M0 : MealyMachine.t).
Hypothesis Hn : 0 < n ≤ 2 ^ 31.
Hypothesis Hm : 0 ≤ m.
Hypothesis Hent : n * m ≤ Z.of_nat (length entropy).

Lemma delta_step_filled s i st :
  0 ≤ s < n → 0 ≤ i < m →
  delta_filled entropy n m M0 (s * m + i) st →
  ∃ st', delta_step entropy n s i st = Ok st' ∧
         delta_filled entropy n m M0 (s * m + (i + 1)) st'.
Proof.
  intros Hs Hi. destruct st as [M c].
  intros (Hc & D & HM & Hshape & Hdone). cbn in Hc, HM. subst c M.
  assert (0 ≤ s * m + i < n * m) as Hidx by nia.
  destruct (aget_in_range entropy (s * m + i)) as (e & Hget & He); [lia|].
  destruct (table_shape_row _ _ _ _ Hshape Hs) as (row & Hrow & Hlrow).
  unfold delta_step. rewrite Hget, bind_Ok. cbn [MealyMachine.delta
    MealyMachine.set_delta].
  rewrite (tset_Ok _ _ _ _ _ row), bind_Ok by (done || lia).
  eexists. split; [done|]. split; [cbn; lia|].
  eexists. split; [done|]. split.
  { apply table_shape_insert; [done|]. by rewrite length_aset. }
  intros s' i' Hs' Hi' Hlt.
  pose proof (js_rem_abs_range e n ltac:(lia)) as Hv.
  rewrite entry_insert by (destruct Hshape; lia).
  case_decide as Hss.
  - subst s'. rewrite lookup_aset by lia. case_decide as Hii.
    + subst i'. exists e. split; [done|].
      rewrite ToInt32_small by lia. by rewrite js_rem_mod by lia.
    + destruct (Hdone s i') as (e' & ? & He'); [done|done|lia|].
      exists e'. split; [done|]. unfold entry in He'.
      by rewrite Hrow in He'.
  - apply Hdone; [done|done|nia].
Qed.

Lemma fill_delta_filled :
  table_shape n m (MealyMachine.delta M0) →
  ∃ st, fill_delta entropy n m (M0, 0) = Ok st ∧
        delta_filled entropy n m M0 (n * m) st.
Proof.
  intros Hshape. unfold fill_delta.
  destruct (for_up_inv (λ s, delta_filled entropy n m M0 (s * m))
              (λ s, for_up 0 (Z.to_nat m) (delta_step entropy n s))
              0 (Z.to_nat n) (M0, 0)) as (st & Hrun & Hst).
  - split; [done|]. exists (MealyMachine.delta M0).
    split; [by destruct M0|]. split; [done|]. intros; lia.
  - intros s st Hs Hst.
    destruct (for_up_inv (λ i, delta_filled entropy n m M0 (s * m + i))
                (delta_step entropy n s) 0 (Z.to_nat m) st)
      as (st' & Hrun & Hst').
    + by rewrite Z.add_0_r.
    + intros i st' Hi. apply delta_step_filled; lia.
    + exists st'. split; [done|].
      replace ((s + 1) * m) with (s * m + (0 + Z.of_nat (Z.to_nat m)))
        by lia. done.
  - exists st. split; [done|].
    by replace (n * m) with ((0 + Z.of_nat (Z.to_nat n)) * m) by lia.
Qed.

End delta_fill.


(** ** The output-permutation fill *)

Lemma seqZ_snoc i : 0 ≤ i → seqZ 0 (i + 1) = seqZ 0 i ++ [i].
Proof.
  intros Hi. rewrite seqZ_app by lia. f_equal.
Qed.

Lemma init_perm_Ok m : 0 ≤ m ≤ 256 → init_perm m = Ok (seqZ 0 m).
Proof.
  intros Hm. unfold init_perm. rewrite alloc_Ok, bind_Ok by lia.
  destruct (for_up_inv
              (λ i perm, perm = seqZ 0 i ++ replicate (Z.to_nat (m - i)) 0)
              (λ i perm, Ok (aset ToUint8 perm i i)) 0 (Z.to_nat m)
              (replicate (Z.to_nat m) 0)) as (perm & Hrun & Hperm).
  - by rewrite seqZ_nil, Z.sub_0_r by lia.
  - intros i perm Hi ->. eexists. split; [done|].
    rewrite aset_nonneg, ToUint8_small by lia.
    rewrite insert_app_r_alt by (rewrite length_seqZ; lia).
    rewrite length_seqZ, Nat.sub_diag.
    replace (Z.to_nat (m - i)) with (S (Z.to_nat (m - (i + 1)))) by lia.
    cbn. rewrite seqZ_snoc by lia. by rewrite <- app_assoc.
  - rewrite Hrun, Hperm.
    replace (m - (0 + Z.of_nat (Z.to_nat m))) with 0 by lia.
    cbn. rewrite app_nil_r. do 2 f_equal. lia.
Qed.

Lemma perm_of_range_length (perm : list Z) m :
  perm ≡ₚ seqZ 0 m → length perm = Z.to_nat m.
Proof. intros ->. apply length_seqZ. Qed.

Lemma perm_of_range_lookup (perm : list Z) m i v :
  perm ≡ₚ seqZ 0 m → perm !! i = Some v → 0 ≤ v < m.
Proof.
  intros Hp Hv. apply list_elem_of_lookup_2 in Hv.
  rewrite Hp in Hv. apply elem_of_seqZ in Hv. lia.
Qed.

Section perm_fill.
Context (entropy : list Z) (n m : Z).
Hypothesis Hn : 0 < n.
Hypothesis Hm : 1 ≤ m ≤ 256.

Lemma shuffle_step_Permutation i perm cursor :
  1 ≤ i < m → 0 ≤ cursor < Z.of_nat (length entropy) →
  perm ≡ₚ seqZ 0 m →
  ∃ perm', shuffle_step entropy i (perm, cursor) = Ok (perm', cursor + 1) ∧
           perm' ≡ₚ seqZ 0 m.
Proof.
  intros Hi Hc Hp. pose proof (perm_of_range_length _ _ Hp) as Hlen.
  destruct (aget_in_range entropy cursor) as (e & Hget & _); [done|].
  pose proof (js_rem_abs_range e (i + 1) ltac:(lia)) as Hj.
  destruct (aget_in_range perm i) as (temp & Hgi & Hti); [lia|].
  destruct (aget_in_range perm (js_rem (Z.abs e) (i + 1)))
    as (pj & Hgj & Htj); [lia|].
  pose proof (perm_of_range_lookup _ _ _ _ Hp Hti).
  pose proof (perm_of_range_lookup _ _ _ _ Hp Htj).
  unfold shuffle_step. rewrite Hget, bind_Ok, Hgi, bind_Ok, Hgj, bind_Ok.
  eexists. split; [done|].
  rewrite !aset_nonneg, !ToUint8_small by lia.
  by rewrite Permutation_insert_swap.
Qed.

Lemma shuffle_Permutation cursor :
  0 ≤ cursor → cursor + (m - 1) ≤ Z.of_nat (length entropy) →
  ∃ perm, shuffle entropy m (seqZ 0 m, cursor) = Ok (perm, cursor + (m - 1)) ∧
          perm ≡ₚ seqZ 0 m.
Proof.
  intros Hc Hent. unfold shuffle.
  destruct (for_down_inv
              (λ i (st : list Z * Z),
                 st.2 = cursor + (m - 1 - i) ∧ st.1 ≡ₚ seqZ 0 m)
              (shuffle_step entropy) (m - 1) (Z.to_nat (m - 1))
              (seqZ 0 m, cursor)) as ([perm c] & Hrun & Hc' & Hp).
  - split; [cbn; lia|done].
  - intros i [perm c] Hi [Hc' Hp]. cbn in Hc', Hp. subst c.
    destruct (shuffle_step_Permutation i perm (cursor + (m - 1 - i)))
      as (perm' & Hstep & Hp'); [lia|lia|done|].
    eexists. split; [done|]. split; [cbn; lia|done].
  - cbn in Hc', Hp. exists perm. split; [|done].
    rewrite Hrun. do 2 f_equal. lia.
Qed.

Lemma lambda_loop perm s M :
  0 ≤ s < n → perm ≡ₚ seqZ 0 m →
  table_shape n m (MealyMachine.lambdaTable M) →
  table_shape n m (MealyMachine.lambdaInv M) →
  ∃ irow,
    for_up 0 (Z.to_nat m) (lambda_step perm s) M =
      Ok (MealyMachine.set_lambdas M
            (<[Z.to_nat s := perm]> (MealyMachine.lambdaTable M))
            (<[Z.to_nat s := irow]> (MealyMachine.lambdaInv M))) ∧
    length irow = Z.to_nat m ∧
    ∀ i v, perm !! i = Some v → irow !! Z.to_nat v = Some (Z.of_nat i).
Proof.
  intros Hs Hp HLT HLI. pose proof (perm_of_range_length _ _ Hp) as Hlen.
  assert (NoDup perm) as Hnd by (rewrite Hp; apply NoDup_seqZ).
  destruct (table_shape_row _ _ _ _ HLT Hs) as (lrow0 & Hlrow0 & Hll0).
  destruct (table_shape_row _ _ _ _ HLI Hs) as (irow0 & Hirow0 & Hil0).
  destruct HLT as [HLTn _], HLI as [HLIn _].
  destruct (for_up_inv
    (λ i M', ∃ lrow irow,
       M' = MealyMachine.set_lambdas M
              (<[Z.to_nat s := lrow]> (MealyMachine.lambdaTable M))
              (<[Z.to_nat s := irow]> (MealyMachine.lambdaInv M)) ∧
       length lrow = Z.to_nat m ∧ length irow = Z.to_nat m ∧
       (∀ i', (i' < Z.to_nat i)%nat → lrow !! i' = perm !! i') ∧
       (∀ i' v, (i' < Z.to_nat i)%nat → perm !! i' = Some v →
                irow !! Z.to_nat v = Some (Z.of_nat i')))
    (lambda_step perm s) 0 (Z.to_nat m) M)
    as (M' & Hrun & lrow & irow & -> & Hll & Hil & Hl & Hi).
  - exists lrow0, irow0. split.
    { rewrite !list_insert_id by done. by destruct M. }
    repeat split; [done|done|intros; lia|intros; lia].
  - intros i M' Hi (lrow & irow & -> & Hll & Hil & Hl & Hinv).
    destruct (aget_in_range perm i) as (val & Hget & Hval); [lia|].
    pose proof (perm_of_range_lookup _ _ _ _ Hp Hval) as Hvr.
    unfold lambda_step. rewrite Hget, bind_Ok. cbn [MealyMachine.lambdaTable
      MealyMachine.lambdaInv MealyMachine.set_lambdas].
    rewrite (tset_Ok _ (<[_ := lrow]> _) _ _ _ lrow), bind_Ok
      by (lia || (apply list_lookup_insert_eq; lia)).
    rewrite (tset_Ok _ (<[_ := irow]> _) _ _ _ irow), bind_Ok
      by (lia || (apply list_lookup_insert_eq; lia)).
    rewrite !list_insert_insert_eq.
    eexists. split; [done|].
    exists (aset ToInt32 lrow i val), (aset ToInt32 irow val i).
    split; [done|]. rewrite !length_aset. split; [done|]. split; [done|].
    rewrite !aset_nonneg, !ToInt32_small by lia. split.
    + intros i' Hi'. destruct (decide (i' = Z.to_nat i)) as [->|].
      * by rewrite list_lookup_insert_eq, Hval by lia.
      * rewrite list_lookup_insert_ne by done. apply Hl. lia.
    + intros i' v Hi' Hv. destruct (decide (i' = Z.to_nat i)) as [->|].
      * assert (v = val) as -> by congruence.
        rewrite list_lookup_insert_eq by lia. f_equal. lia.
      * rewrite list_lookup_insert_ne.
        { apply Hinv; [lia|done]. }
        intros Heq. apply n0.
        apply (NoDup_lookup perm _ _ val Hnd); [|done].
        pose proof (perm_of_range_lookup _ _ _ _ Hp Hv).
        replace val with v by lia. done.
  - exists irow. split; [|split; [done|]].
    + rewrite Hrun. do 3 f_equal.
      apply list_eq. intros i'.
      destruct (decide (i' < Z.to_nat m)%nat).
      * apply Hl. lia.
      * by rewrite !lookup_ge_None_2 by lia.
    + intros i' v Hv. apply Hi; [|done].
      apply lookup_lt_Some in Hv. lia.
Qed.

Lemma perm_step_filled M1 s st :
  n * m + n * (m - 1) ≤ Z.of_nat (length entropy) →
  0 ≤ s < n →
  lambda_filled entropy n m M1 s st →
  ∃ st', perm_step entropy m s st = Ok st' ∧
         lambda_filled entropy n m M1 (s + 1) st'.
Proof.
  intros Hent Hs. destruct st as [M c].
  intros (Hc & LT & LI & HM & HLT & HLI & Hrows). cbn in Hc, HM. subst c M.
  destruct (shuffle_Permutation (n * m + s * (m - 1)))
    as (perm & Hsh & Hp); [nia|nia|].
  destruct (lambda_loop perm s (MealyMachine.set_lambdas M1 LT LI))
    as (irow & Hloop & Hil & Hinv); [done..|].
  cbn [MealyMachine.lambdaTable MealyMachine.lambdaInv
       MealyMachine.set_lambdas] in Hloop.
  unfold perm_step. rewrite init_perm_Ok, bind_Ok, Hsh, bind_Ok by lia.
  rewrite Hloop, bind_Ok.
  eexists. split; [done|]. split; [cbn; lia|].
  destruct HLT as [HLTn HLTr], HLI as [HLIn HLIr].
  exists (<[Z.to_nat s := perm]> LT), (<[Z.to_nat s := irow]> LI).
  split; [done|].
  split; [by apply table_shape_insert, perm_of_range_length|].
  split; [by apply table_shape_insert|].
  intros s' Hs'. destruct (decide (s' = s)) as [->|Hne].
  - exists perm, irow. rewrite !list_lookup_insert_eq by lia.
    replace (n * m + s * (m - 1) + (m - 1))
      with (n * m + (s + 1) * (m - 1)) in Hsh by lia.
    done.
  - destruct (Hrows s') as (lrow' & irow' & ? & ? & ?); [lia|].
    exists lrow', irow'. rewrite !list_lookup_insert_ne by lia. done.
Qed.

Lemma fill_lambda_filled M1 :
  n * m + n * (m - 1) ≤ Z.of_nat (length entropy) →
  table_shape n m (MealyMachine.lambdaTable M1) →
  table_shape n m (MealyMachine.lambdaInv M1) →
  ∃ st, fill_lambda entropy n m (M1, n * m) = Ok st ∧
        lambda_filled entropy n m M1 n st.
Proof.
  intros Hent HLT HLI. unfold fill_lambda.
  destruct (for_up_inv (lambda_filled entropy n m M1)
              (perm_step entropy m) 0 (Z.to_nat n) (M1, n * m))
    as (st & Hrun & Hst).
  - split; [cbn; lia|].
    exists (MealyMachine.lambdaTable M1), (MealyMachine.lambdaInv M1).
    split; [by destruct M1|]. split; [done|]. split; [done|]. intros; lia.
  - intros s st Hs. apply perm_step_filled; [done|lia].
  - exists st. split; [done|].
    by replace (0 + Z.of_nat (Z.to_nat n)) with n in Hst by lia.
Qed.

End perm_fill.

(** ** The builder *)

Lemma fill_tables_spec entropy n m :
  0 < n ≤ 2 ^ 31 → 1 ≤ m ≤ 256 →
  n * m + n * (m - 1) ≤ Z.of_nat (length entropy) →
  ∃ M, fill_tables entropy n m (fresh_machine n m) =
         Ok (M, n * m + n * (m - 1)) ∧
       built_from entropy n m M.
Proof.
  intros Hn Hm Hent. unfold fill_tables.
  destruct (fill_delta_filled entropy n m (fresh_machine n m))
    as ([M1 c1] & Hrun1 & Hc1 & D & HM1 & HD & Hdelta);
    [done|lia|nia|apply table_shape_replicate|].
  cbn in Hc1, HM1. subst c1 M1. rewrite Hrun1, bind_Ok.
  destruct (fill_lambda_filled entropy n m ltac:(lia) Hm
              (MealyMachine.set_delta (fresh_machine n m) D))
    as ([M c] & Hrun2 & Hc & LT & LI & HM & HLT & HLI & Hrows);
    [done|apply table_shape_replicate..|].
  cbn in Hc, HM. subst c M. rewrite Hrun2.
  eexists. split; [done|].
  split; [done|]. split; [done|]. split; [done|]. split; [done|].
  split; [done|]. split; [done|]. split; [|done].
  intros s i Hs Hi. apply Hdelta; [done|done|nia].
Qed.

Lemma buildMealyMachine_spec n m g :
  0 < n ≤ 2 ^ 31 → 1 ≤ m ≤ 256 →
  ∃ M, buildMealyMachine n m g =
         Ok (M, Nat.iter (Z.to_nat (n * m * 2)) LogisticMoore._transition g) ∧
       built_from (outputs (Z.to_nat (n * m * 2)) g) n m M.
Proof.
  intros Hn Hm. unfold buildMealyMachine.
  rewrite MealyMachine_new_Ok, bind_Ok by lia.
  rewrite generateStream_spec, bind_Ok by nia.
  destruct (fill_tables_spec (outputs (Z.to_nat (n * m * 2)) g) n m)
    as (M & Hrun & HM); [done|done|rewrite length_outputs; nia|].
  rewrite Hrun, bind_Ok. by exists M.
Qed.


(** ** Well-formed machines *)

Lemma entry_at2 t s x v : entry t s x = Some v → at2 t s x = v.
Proof. unfold at2. by intros ->. Qed.

Lemma entry_aget (t : list (list Z)) s x v :
  0 ≤ s → 0 ≤ x → entry t s x = Some v →
  ∃ row, aget t s = Ok row ∧ aget row x = Ok v.
Proof.
  intros Hs Hx. unfold entry.
  destruct (t !! Z.to_nat s) as [row|] eqn:Hrow; [|done].
  cbn. intros Hv. exists row. split; by apply aget_Ok.
Qed.

Lemma built_from_wf entropy n M :
  0 < n → built_from entropy n 256 M → wf M.
Proof.
  intros Hn (Hnn & Hm & _ & HD & HLT & HLI & Hdelta & Hrows). subst n.
  split; [done|]. split; [done|]. split; [done|]. split; [done|].
  split; [done|]. split; [|split].
  - intros s x Hs Hx. destruct (Hdelta s x Hs Hx) as (e & _ & He).
    eexists. split; [done|]. apply Z.mod_pos_bound. lia.
  - intros s x Hs Hx.
    destruct (Hrows s Hs) as (lrow & irow & Hl & Hi & _ & Hp & Hil & Hinv).
    pose proof (perm_of_range_length _ _ Hp) as Hlen.
    destruct (lookup_lt_is_Some_2 lrow (Z.to_nat x)) as [y Hy]; [lia|].
    pose proof (perm_of_range_lookup _ _ _ _ Hp Hy).
    exists y. unfold entry. rewrite Hl, Hi. cbn.
    split; [done|]. split; [lia|].
    rewrite (Hinv _ _ Hy). f_equal. lia.
  - intros s y Hs Hy.
    destruct (Hrows s Hs) as (lrow & irow & Hl & Hi & _ & Hp & Hil & Hinv).
    assert (y ∈ lrow) as [i Hiy]%list_elem_of_lookup_1.
    { rewrite Hp. apply elem_of_seqZ. lia. }
    pose proof (perm_of_range_length _ _ Hp) as Hlen.
    pose proof (lookup_lt_Some _ _ _ Hiy).
    exists (Z.of_nat i). unfold entry. rewrite Hl, Hi. cbn.
    split; [by apply Hinv|]. split; [lia|]. by rewrite Nat2Z.id.
Qed.

Lemma same_tables_set_currentState M v :
  same_tables M (MealyMachine.set_currentState M v).
Proof. done. Qed.

Lemma same_tables_trans M1 M2 M3 :
  same_tables M1 M2 → same_tables M2 M3 → same_tables M1 M3.
Proof.
  intros (? & ? & ? & ? & ?) (? & ? & ? & ? & ?).
  repeat split; congruence.
Qed.

Section cipher.
Context (M : MealyMachine.t).
Hypothesis Hwf : wf M.

Lemma delta_range s x :
  0 ≤ s < MealyMachine.n M → is_byte x →
  entry (MealyMachine.delta M) s x = Some (at2 (MealyMachine.delta M) s x) ∧
  0 ≤ at2 (MealyMachine.delta M) s x < MealyMachine.n M.
Proof.
  intros Hs Hx. destruct Hwf as (_ & _ & _ & _ & _ & Hd & _).
  destruct (Hd s x Hs Hx) as (d & Hed & Hdr).
  by rewrite (entry_at2 _ _ _ _ Hed).
Qed.

Lemma lambda_range s x :
  0 ≤ s < MealyMachine.n M → is_byte x →
  entry (MealyMachine.lambdaTable M) s x =
    Some (at2 (MealyMachine.lambdaTable M) s x) ∧
  is_byte (at2 (MealyMachine.lambdaTable M) s x) ∧
  at2 (MealyMachine.lambdaInv M) s (at2 (MealyMachine.lambdaTable M) s x) = x.
Proof.
  intros Hs Hx. destruct Hwf as (_ & _ & _ & _ & _ & _ & Hl & _).
  destruct (Hl s x Hs Hx) as (y & Hey & Hyr & Hinv).
  rewrite (entry_at2 _ _ _ _ Hey). by rewrite (entry_at2 _ _ _ _ Hinv).
Qed.

Lemma lambdaInv_range s y :
  0 ≤ s < MealyMachine.n M → is_byte y →
  entry (MealyMachine.lambdaInv M) s y =
    Some (at2 (MealyMachine.lambdaInv M) s y) ∧
  is_byte (at2 (MealyMachine.lambdaInv M) s y) ∧
  at2 (MealyMachine.lambdaTable M) s (at2 (MealyMachine.lambdaInv M) s y) = y.
Proof.
  intros Hs Hy. destruct Hwf as (_ & _ & _ & _ & _ & _ & _ & Hi).
  destruct (Hi s y Hs Hy) as (x & Hex & Hxr & Hinv).
  rewrite (entry_at2 _ _ _ _ Hex). by rewrite (entry_at2 _ _ _ _ Hinv).
Qed.

Lemma n_positive : 0 < MealyMachine.n M.
Proof. by destruct Hwf. Qed.

Lemma warm_state_range k :
  0 ≤ warm_state (MealyMachine.delta M) k < MealyMachine.n M.
Proof.
  induction k as [|k IH]; cbn [warm_state].
  - pose proof n_positive. lia.
  - apply delta_range; [done|]. apply Z.mod_pos_bound. lia.
Qed.

Lemma warm_step_spec j M' :
  same_tables M M' → 0 ≤ j →
  MealyMachine.currentState M' =
    warm_state (MealyMachine.delta M) (Z.to_nat j) →
  MealyMachine.warm_step j M' =
  Ok (MealyMachine.set_currentState M'
        (warm_state (MealyMachine.delta M) (Z.to_nat (j + 1)))).
Proof.
  intros (Hn & Hm & Hd & Hl & Hi) Hj Hst.
  pose proof (warm_state_range (Z.to_nat j)) as Hr.
  assert (is_byte (j mod 256)) as Hb by (apply Z.mod_pos_bound; lia).
  destruct (delta_range _ _ Hr Hb) as [He _].
  apply entry_aget in He as (row & Hrow & Hv); [|lia|by destruct Hb].
  unfold MealyMachine.warm_step. rewrite Hd, Hst, Hrow, bind_Ok.
  rewrite js_rem_mod by lia. rewrite Hv, bind_Ok.
  replace (Z.to_nat (j + 1)) with (S (Z.to_nat j)) by lia.
  cbn [warm_state]. by rewrite Z2Nat.id.
Qed.

Lemma warm_up_spec k M' :
  same_tables M M' → MealyMachine.currentState M' = 0 →
  MealyMachine.warm_up k M' =
  Ok (MealyMachine.set_currentState M' (warm_state (MealyMachine.delta M) k)).
Proof.
  intros Hsame H0. unfold MealyMachine.warm_up.
  destruct (for_up_inv
    (λ j M'', M'' = MealyMachine.set_currentState M'
                      (warm_state (MealyMachine.delta M) (Z.to_nat j)))
    MealyMachine.warm_step 0 k M') as (M'' & Hrun & ->).
  - change (Z.to_nat 0) with 0%nat. cbn [warm_state].
    rewrite <- H0. by destruct M'.
  - intros j ? Hj ->. eexists. split; [|done].
    rewrite (warm_step_spec j); [done| |lia|done].
    eapply same_tables_trans; [done|]. apply same_tables_set_currentState.
  - rewrite Hrun. do 3 f_equal. lia.
Qed.

Context (bytes : list Z).
Hypothesis Hbytes : Forall is_byte bytes.

Lemma byte_at_is_byte i : is_byte (byte_at bytes i).
Proof.
  unfold byte_at. destruct (bytes !! i) as [b|] eqn:Hb; cbn.
  - by eapply (Forall_lookup_1 _ _ _ _ Hbytes).
  - unfold is_byte. lia.
Qed.

Lemma byte_at_lookup i : (i < length bytes)%nat →
  aget bytes (Z.of_nat i) = Ok (byte_at bytes i).
Proof.
  intros Hi. destruct (lookup_lt_is_Some_2 bytes i Hi) as [b Hb].
  unfold byte_at. rewrite Hb. by apply aget_lookup.
Qed.

Lemma enc_state_range i : 0 ≤ enc_state M bytes i < MealyMachine.n M.
Proof.
  destruct i as [|i]; cbn [enc_state]; [apply warm_state_range|].
  apply Z.mod_pos_bound, n_positive.
Qed.

Lemma enc_output_is_byte i : is_byte (enc_output M bytes i).
Proof. apply lambda_range; [apply enc_state_range|apply byte_at_is_byte]. Qed.

Lemma encrypt_step_spec i M' ct tr :
  same_tables M M' → (i < length bytes)%nat →
  MealyMachine.currentState M' = enc_state M bytes i →
  MealyMachine.encrypt_step bytes (Z.of_nat i) (M', ct, tr) =
  Ok (MealyMachine.set_currentState M' (enc_state M bytes (S i)),
      aset ToUint8 ct (Z.of_nat i) (enc_output M bytes i),
      if Z.of_nat i <? 20 then tr ++ [enc_entry M bytes i] else tr).
Proof.
  intros (Hn & Hm & Hd & Hl & Hi) Hlt Hst.
  pose proof (enc_state_range i) as Hs.
  pose proof (byte_at_is_byte i) as Hb.
  destruct (lambda_range _ _ Hs Hb) as (Hlam & _ & _).
  destruct (delta_range _ _ Hs Hb) as (Hdel & Hdr).
  apply entry_aget in Hlam as (lrow & Hlrow & Hout); [|lia|by destruct Hb].
  apply entry_aget in Hdel as (drow & Hdrow & Hdv); [|lia|by destruct Hb].
  unfold MealyMachine.encrypt_step.
  rewrite byte_at_lookup, bind_Ok by done.
  rewrite Hl, Hd, Hn, Hst.
  rewrite Hlrow, bind_Ok, Hout, bind_Ok, Hdrow, bind_Ok, Hdv, bind_Ok.
  rewrite js_rem_mod by (pose proof n_positive; lia).
  done.
Qed.

Lemma encrypt_loop k M0 :
  same_tables M M0 → (k ≤ length bytes)%nat →
  MealyMachine.currentState M0 = enc_state M bytes 0 →
  ∃ ct tr,
    for_up 0 k (MealyMachine.encrypt_step bytes)
      (M0, replicate (length bytes) 0, []) =
    Ok (MealyMachine.set_currentState M0 (enc_state M bytes k), ct, tr) ∧
    length ct = length bytes ∧
    (∀ i, (i < k)%nat → ct !! i = Some (enc_output M bytes i)) ∧
    tr = enc_entry M bytes <$> seq 0 (k `min` 20).
Proof.
  intros Hsame Hk H0.
  destruct (for_up_inv
    (λ i (st : MealyMachine.t * list Z * list Trajectory.step),
       st.1.1 = MealyMachine.set_currentState M0
                  (enc_state M bytes (Z.to_nat i)) ∧
       length st.1.2 = length bytes ∧
       (∀ i', (i' < Z.to_nat i)%nat →
              st.1.2 !! i' = Some (enc_output M bytes i')) ∧
       st.2 = enc_entry M bytes <$> seq 0 (Z.to_nat i `min` 20))
    (MealyMachine.encrypt_step bytes) 0 k
    (M0, replicate (length bytes) 0, []))
    as ([[M' ct] tr] & Hrun & HM' & Hlen & Hct & Htr).
  - change (Z.to_nat 0) with 0%nat. cbn [fst snd].
    split; [rewrite <- H0; by destruct M0|].
    split; [apply length_replicate|]. split; [intros; lia|done].
  - intros i [[M' ct] tr] Hi (HM' & Hlen & Hct & Htr).
    cbn [fst snd] in *. subst M' tr. eexists. split.
    { rewrite <- (Z2Nat.id i) at 1 by lia.
      apply encrypt_step_spec; [|lia|done].
      eapply same_tables_trans; [done|]. apply same_tables_set_currentState. }
    cbn [fst snd]. replace (Z.to_nat (i + 1)) with (S (Z.to_nat i)) by lia.
    split; [done|]. split; [by rewrite length_aset|]. split.
    + intros i' Hi'. rewrite aset_nonneg, Nat2Z.id by lia.
      rewrite ToUint8_small by apply enc_output_is_byte.
      destruct (decide (i' = Z.to_nat i)) as [->|].
      * apply list_lookup_insert_eq. lia.
      * rewrite list_lookup_insert_ne by done. apply Hct. lia.
    + destruct (Z.ltb_spec (Z.of_nat (Z.to_nat i)) 20).
      * rewrite !Nat.min_l by lia. by rewrite seq_S, fmap_app.
      * by rewrite !Nat.min_r by lia.
  - cbn [fst snd] in *. exists ct, tr.
    replace (Z.to_nat (0 + Z.of_nat k)) with k in * by lia.
    rewrite Hrun, HM'. done.
Qed.

Lemma dec_state_range i : 0 ≤ dec_state M bytes i < MealyMachine.n M.
Proof.
  destruct i as [|i]; cbn [dec_state]; [apply warm_state_range|].
  apply Z.mod_pos_bound, n_positive.
Qed.

Lemma dec_output_is_byte i : is_byte (dec_output M bytes i).
Proof.
  apply lambdaInv_range; [apply dec_state_range|apply byte_at_is_byte].
Qed.

Lemma decrypt_step_spec i M' pt tr :
  same_tables M M' → (i < length bytes)%nat →
  MealyMachine.currentState M' = dec_state M bytes i →
  MealyMachine.decrypt_step bytes (Z.of_nat i) (M', pt, tr) =
  Ok (MealyMachine.set_currentState M' (dec_state M bytes (S i)),
      aset ToUint8 pt (Z.of_nat i) (dec_output M bytes i),
      if Z.of_nat i <? 20 then tr ++ [dec_entry M bytes i] else tr).
Proof.
  intros (Hn & Hm & Hd & Hl & Hi) Hlt Hst.
  pose proof (dec_state_range i) as Hs.
  pose proof (byte_at_is_byte i) as Hb.
  destruct (lambdaInv_range _ _ Hs Hb) as (Hinv & Hrb & _).
  destruct (delta_range _ _ Hs Hrb) as (Hdel & Hdr).
  apply entry_aget in Hinv as (irow & Hirow & Hrec); [|lia|by destruct Hb].
  apply entry_aget in Hdel as (drow & Hdrow & Hdv); [|lia|by destruct Hrb].
  unfold MealyMachine.decrypt_step.
  rewrite byte_at_lookup, bind_Ok by done.
  rewrite Hi, Hd, Hn, Hst.
  rewrite Hirow, bind_Ok, Hrec, bind_Ok, Hdrow, bind_Ok, Hdv, bind_Ok.
  rewrite js_rem_mod by (pose proof n_positive; lia).
  done.
Qed.

Lemma decrypt_loop k M0 :
  same_tables M M0 → (k ≤ length bytes)%nat →
  MealyMachine.currentState M0 = dec_state M bytes 0 →
  ∃ pt tr,
    for_up 0 k (MealyMachine.decrypt_step bytes)
      (M0, replicate (length bytes) 0, []) =
    Ok (MealyMachine.set_currentState M0 (dec_state M bytes k), pt, tr) ∧
    length pt = length bytes ∧
    (∀ i, (i < k)%nat → pt !! i = Some (dec_output M bytes i)) ∧
    tr = dec_entry M bytes <$> seq 0 (k `min` 20).
Proof.
  intros Hsame Hk H0.
  destruct (for_up_inv
    (λ i (st : MealyMachine.t * list Z * list Trajectory.step),
       st.1.1 = MealyMachine.set_currentState M0
                  (dec_state M bytes (Z.to_nat i)) ∧
       length st.1.2 = length bytes ∧
       (∀ i', (i' < Z.to_nat i)%nat →
              st.1.2 !! i' = Some (dec_output M bytes i')) ∧
       st.2 = dec_entry M bytes <$> seq 0 (Z.to_nat i `min` 20))
    (MealyMachine.decrypt_step bytes) 0 k
    (M0, replicate (length bytes) 0, []))
    as ([[M' pt] tr] & Hrun & HM' & Hlen & Hpt & Htr).
  - change (Z.to_nat 0) with 0%nat. cbn [fst snd].
    split; [rewrite <- H0; by destruct M0|].
    split; [apply length_replicate|]. split; [intros; lia|done].
  - intros i [[M' pt] tr] Hi (HM' & Hlen & Hpt & Htr).
    cbn [fst snd] in *. subst M' tr. eexists. split.
    { rewrite <- (Z2Nat.id i) at 1 by lia.
      apply decrypt_step_spec; [|lia|done].
      eapply same_tables_trans; [done|]. apply same_tables_set_currentState. }
    cbn [fst snd]. replace (Z.to_nat (i + 1)) with (S (Z.to_nat i)) by lia.
    split; [done|]. split; [by rewrite length_aset|]. split.
    + intros i' Hi'. rewrite aset_nonneg, Nat2Z.id by lia.
      rewrite ToUint8_small by apply dec_output_is_byte.
      destruct (decide (i' = Z.to_nat i)) as [->|].
      * apply list_lookup_insert_eq. lia.
      * rewrite list_lookup_insert_ne by done. apply Hpt. lia.
    + destruct (Z.ltb_spec (Z.of_nat (Z.to_nat i)) 20).
      * rewrite !Nat.min_l by lia. by rewrite seq_S, fmap_app.
      * by rewrite !Nat.min_r by lia.
  - cbn [fst snd] in *. exists pt, tr.
    replace (Z.to_nat (0 + Z.of_nat k)) with k in * by lia.
    rewrite Hrun, HM'. done.
Qed.

End cipher.

Lemma fmap_seq_eq {A} (f : nat → A) (l : list A) :
  (∀ i, (i < length l)%nat → l !! i = Some (f i)) →
  l = f <$> seq 0 (length l).
Proof.
  intros Hl. apply list_eq. intros i.
  rewrite list_lookup_fmap.
  destruct (decide (i < length l)%nat).
  - rewrite lookup_seq_lt by done. by rewrite Hl.
  - rewrite lookup_seq_ge, lookup_ge_None_2 by lia. done.
Qed.

Lemma encryptBytes_spec M M' bytes :
  wf M → same_tables M M' → Forall is_byte bytes →
  MealyMachine.encryptBytes bytes M' =
  Ok (enc_output M bytes <$> seq 0 (length bytes),
      enc_entry M bytes <$> seq 0 (length bytes `min` 20),
      MealyMachine.set_currentState M' (enc_state M bytes (length bytes))).
Proof.
  intros Hwf Hsame Hbytes. unfold MealyMachine.encryptBytes.
  rewrite (warm_up_spec M Hwf), bind_Ok;
    [|by eapply same_tables_trans; [|apply same_tables_set_currentState]
     |done].
  rewrite alloc_Ok, bind_Ok, Nat2Z.id by lia.
  destruct (encrypt_loop M Hwf bytes Hbytes (length bytes)
              (MealyMachine.set_currentState (MealyMachine.reset M')
                 (warm_state (MealyMachine.delta M) 500)))
    as (ct & tr & Hrun & Hlen & Hct & ->); [|done|done|].
  { eapply same_tables_trans; [done|]. done. }
  rewrite Hrun, bind_Ok. rewrite <- Hlen in Hct.
  rewrite (fmap_seq_eq _ _ Hct), Hlen. done.
Qed.

Lemma decryptBytes_spec M M' bytes :
  wf M → same_tables M M' → Forall is_byte bytes →
  MealyMachine.decryptBytes bytes M' =
  Ok (dec_output M bytes <$> seq 0 (length bytes),
      dec_entry M bytes <$> seq 0 (length bytes `min` 20),
      MealyMachine.set_currentState M' (dec_state M bytes (length bytes))).
Proof.
  intros Hwf Hsame Hbytes. unfold MealyMachine.decryptBytes.
  rewrite (warm_up_spec M Hwf), bind_Ok;
    [|by eapply same_tables_trans; [|apply same_tables_set_currentState]
     |done].
  rewrite alloc_Ok, bind_Ok, Nat2Z.id by lia.
  destruct (decrypt_loop M Hwf bytes Hbytes (length bytes)
              (MealyMachine.set_currentState (MealyMachine.reset M')
                 (warm_state (MealyMachine.delta M) 500)))
    as (pt & tr & Hrun & Hlen & Hpt & ->); [|done|done|].
  { eapply same_tables_trans; [done|]. done. }
  rewrite Hrun, bind_Ok. rewrite <- Hlen in Hpt.
  rewrite (fmap_seq_eq _ _ Hpt), Hlen. done.
Qed.


(** ** Decryption undoes encryption *)

Section roundtrip.
Context (M : MealyMachine.t) (P : list Z).
Hypothesis Hwf : wf M.
Hypothesis HP : Forall is_byte P.

Lemma ciphertext_is_bytes :
  Forall is_byte (enc_output M P <$> seq 0 (length P)).
Proof.
  apply Forall_fmap, Forall_forall. intros i _. by apply enc_output_is_byte.
Qed.

Lemma ciphertext_byte_at i :
  (i < length P)%nat →
  byte_at (enc_output M P <$> seq 0 (length P)) i = enc_output M P i.
Proof.
  intros Hi. unfold byte_at.
  by rewrite list_lookup_fmap, lookup_seq_lt.
Qed.

Lemma dec_state_of_ciphertext i :
  (i ≤ length P)%nat →
  dec_state M (enc_output M P <$> seq 0 (length P)) i = enc_state M P i.
Proof.
  induction i as [|i IH]; intros Hi; [done|].
  cbn [dec_state enc_state]. rewrite IH, ciphertext_byte_at by lia.
  unfold dec_output_at, enc_output.
  destruct (lambda_range M Hwf (enc_state M P i) (byte_at P i))
    as (_ & _ & ->); [by apply enc_state_range|by apply byte_at_is_byte|].
  done.
Qed.

Lemma dec_output_of_ciphertext i :
  (i < length P)%nat →
  dec_output M (enc_output M P <$> seq 0 (length P)) i = byte_at P i.
Proof.
  intros Hi. unfold dec_output.
  rewrite dec_state_of_ciphertext, ciphertext_byte_at by lia.
  unfold dec_output_at, enc_output.
  by destruct (lambda_range M Hwf (enc_state M P i) (byte_at P i))
    as (_ & _ & ->); [by apply enc_state_range|by apply byte_at_is_byte|].
Qed.

Lemma decrypted_ciphertext :
  dec_output M (enc_output M P <$> seq 0 (length P)) <$> seq 0 (length P) = P.
Proof.
  apply list_eq. intros i. rewrite list_lookup_fmap.
  destruct (decide (i < length P)%nat) as [Hi|Hi].
  - rewrite lookup_seq_lt by done. cbn.
    rewrite dec_output_of_ciphertext by done. unfold byte_at.
    by destruct (lookup_lt_is_Some_2 P i Hi) as [b ->].
  - by rewrite lookup_seq_ge, lookup_ge_None_2 by lia.
Qed.

Lemma roundtrip_wf M1 M2 :
  same_tables M M1 → same_tables M M2 →
  ∃ ct tr M1' tr' M2',
    MealyMachine.encryptBytes P M1 = Ok (ct, tr, M1') ∧
    same_tables M M1' ∧
    MealyMachine.decryptBytes ct M2 = Ok (P, tr', M2').
Proof.
  intros H1 H2.
  exists (enc_output M P <$> seq 0 (length P)). do 4 eexists.
  split; [by apply encryptBytes_spec|]. split.
  { eapply same_tables_trans; [exact H1|].
    apply same_tables_set_currentState. }
  rewrite (decryptBytes_spec M M2) by (done || apply ciphertext_is_bytes).
  rewrite length_fmap, length_seq, decrypted_ciphertext. done.
Qed.

End roundtrip.

Lemma build_wf n g :
  0 < n ≤ 2 ^ 31 →
  ∃ M, buildMealyMachine n 256 g =
         Ok (M, Nat.iter (Z.to_nat (n * 256 * 2)) LogisticMoore._transition g) ∧
       built_from (outputs (Z.to_nat (n * 256 * 2)) g) n 256 M ∧ wf M.
Proof.
  intros Hn. destruct (buildMealyMachine_spec n 256 g) as (M & Hb & HM);
    [done|lia|].
  exists M. split; [done|]. split; [done|].
  eapply built_from_wf; [|done]. lia.
Qed.

(** C1. For every key and every sequence of bytes, the machine built
    from the key encrypts the sequence, and decrypting the ciphertext,
    on the machine that encrypted or on the machine as built, gives the
    sequence back. The number of states is any [n] that an [Int32Array]
    can index; the application builds with 1024. *)
Theorem encrypt_decrypt_roundtrip (K P : list Z) (n : Z) :
  0 < n ≤ 2 ^ 31 → Forall is_byte P →
  ∃ M g ct tr M1,
    buildMealyMachine n 256 (LogisticMoore.new K 1000) = Ok (M, g) ∧
    MealyMachine.encryptBytes P M = Ok (ct, tr, M1) ∧
    (∃ tr' M2, MealyMachine.decryptBytes ct M1 = Ok (P, tr', M2)) ∧
    (∃ tr' M2, MealyMachine.decryptBytes ct M = Ok (P, tr', M2)).
Proof.
  intros Hn HP.
  destruct (build_wf n (LogisticMoore.new K 1000) Hn) as (M & Hb & _ & Hwf).
  assert (same_tables M M) as Hrefl by done.
  destruct (roundtrip_wf M P Hwf HP M M Hrefl Hrefl)
    as (ct & tr & M1 & tr' & M2 & Henc & Hsame & Hdec).
  destruct (roundtrip_wf M P Hwf HP M M1 Hrefl Hsame)
    as (ct' & tr0 & M1' & tr1 & M2' & Henc' & _ & Hdec').
  rewrite Henc in Henc'. injection Henc' as <- <- <-.
  eexists M, _, ct, tr, M1. split; [exact Hb|]. split; [exact Henc|].
  split; eauto.
Qed.

(** The scenario of the spec: key ["test"], plaintext [[72, 105]], 1024
    states. *)
Lemma encrypt_decrypt_roundtrip_Hi :
  ∃ M g ct tr M1,
    buildMealyMachine 1024 256
      (LogisticMoore.new (code_units "test") 1000) = Ok (M, g) ∧
    MealyMachine.encryptBytes [72; 105] M = Ok (ct, tr, M1) ∧
    (∃ tr' M2, MealyMachine.decryptBytes ct M1 = Ok ([72; 105], tr', M2)) ∧
    (∃ tr' M2, MealyMachine.decryptBytes ct M = Ok ([72; 105], tr', M2)).
Proof.
  apply (encrypt_decrypt_roundtrip (code_units "test") [72; 105] 1024).
  - lia.
  - repeat constructor; unfold is_byte; lia.
Defined.


(** ** The tables never change after construction *)

Lemma for_up_preserves {St} (P : St → Prop) (body : Z → St → result St)
    lo k st st' :
  (∀ i st st', P st → body i st = Ok st' → P st') →
  P st → for_up lo k body st = Ok st' → P st'.
Proof.
  intros Hbody. revert lo st. induction k as [|k IH]; intros lo st Hst.
  - cbn. by intros [= <-].
  - cbn [for_up]. intros (st1 & H1 & Hrest)%bind_is_Ok.
    eapply IH; [|exact Hrest]. by eapply Hbody.
Qed.

Lemma warm_step_same_tables j M1 M2 :
  MealyMachine.warm_step j M1 = Ok M2 → same_tables M1 M2.
Proof.
  unfold MealyMachine.warm_step.
  intros (row & _ & (v & _ & [= <-])%bind_is_Ok)%bind_is_Ok. done.
Qed.

Lemma warm_up_same_tables k M1 M2 :
  MealyMachine.warm_up k M1 = Ok M2 → same_tables M1 M2.
Proof.
  apply (for_up_preserves (same_tables M1)); [|done].
  intros j M' M'' HM' Hstep. eapply same_tables_trans; [done|].
  by eapply warm_step_same_tables.
Qed.

Lemma encrypt_step_same_tables bytes i st st' :
  MealyMachine.encrypt_step bytes i st = Ok st' →
  same_tables st.1.1 st'.1.1.
Proof.
  destruct st as [[M1 ct] tr]. unfold MealyMachine.encrypt_step.
  intros (x & _ & (lrow & _ & (y & _ & (drow & _ & (d & _ & [= <-]
    )%bind_is_Ok)%bind_is_Ok)%bind_is_Ok)%bind_is_Ok)%bind_is_Ok. done.
Qed.

Lemma decrypt_step_same_tables bytes i st st' :
  MealyMachine.decrypt_step bytes i st = Ok st' →
  same_tables st.1.1 st'.1.1.
Proof.
  destruct st as [[M1 pt] tr]. unfold MealyMachine.decrypt_step.
  intros (c & _ & (irow & _ & (x & _ & (drow & _ & (d & _ & [= <-]
    )%bind_is_Ok)%bind_is_Ok)%bind_is_Ok)%bind_is_Ok)%bind_is_Ok. done.
Qed.

Lemma encryptBytes_same_tables bytes M1 ct tr M2 :
  MealyMachine.encryptBytes bytes M1 = Ok (ct, tr, M2) → same_tables M1 M2.
Proof.
  unfold MealyMachine.encryptBytes.
  intros (Mw & Hw & (ct0 & _ & ([[M' ct'] tr'] & Hloop & [= _ _ <-]
    )%bind_is_Ok)%bind_is_Ok)%bind_is_Ok.
  apply warm_up_same_tables in Hw.
  apply (for_up_preserves (λ st, same_tables M1 st.1.1)) in Hloop; [done| |].
  - intros i st st' Hst Hstep. eapply same_tables_trans; [done|].
    by eapply encrypt_step_same_tables.
  - done.
Qed.

Lemma decryptBytes_same_tables bytes M1 pt tr M2 :
  MealyMachine.decryptBytes bytes M1 = Ok (pt, tr, M2) → same_tables M1 M2.
Proof.
  unfold MealyMachine.decryptBytes.
  intros (Mw & Hw & (pt0 & _ & ([[M' pt'] tr'] & Hloop & [= _ _ <-]
    )%bind_is_Ok)%bind_is_Ok)%bind_is_Ok.
  apply warm_up_same_tables in Hw.
  apply (for_up_preserves (λ st, same_tables M1 st.1.1)) in Hloop; [done| |].
  - intros i st st' Hst Hstep. eapply same_tables_trans; [done|].
    by eapply decrypt_step_same_tables.
  - done.
Qed.

Lemma reachable_same_tables M M' : reachable M M' → same_tables M M'.
Proof.
  induction 1 as [|M' _ IH|M' bytes ct tr M'' _ IH Hcall
                 |M' bytes pt tr M'' _ IH Hcall].
  - done.
  - done.
  - eapply same_tables_trans; [done|by eapply encryptBytes_same_tables].
  - eapply same_tables_trans; [done|by eapply decryptBytes_same_tables].
Qed.

Lemma perm_row_inverse_rows entropy n m LT LI s :
  perm_row entropy n m LT LI s →
  ∃ lrow irow,
    LT !! Z.to_nat s = Some lrow ∧ LI !! Z.to_nat s = Some irow ∧
    lrow ≡ₚ seqZ 0 m ∧ length irow = Z.to_nat m ∧ inverse_rows lrow irow.
Proof.
  intros (lrow & irow & Hl & Hi & _ & Hp & Hlen & Hinv).
  exists lrow, irow. do 4 (split; [done|]). split; [done|].
  intros y x Hy. pose proof (lookup_lt_Some _ _ _ Hy) as Hylt.
  assert (Z.of_nat y ∈ lrow) as [i Hiy]%list_elem_of_lookup_1.
  { rewrite Hp. apply elem_of_seqZ. lia. }
  pose proof (Hinv _ _ Hiy) as Hback. rewrite Nat2Z.id in Hback.
  assert (x = Z.of_nat i) as -> by congruence. by rewrite Nat2Z.id.
Qed.

(** C2. Every machine that [buildMealyMachine] returns, for an alphabet
    of up to 256 symbols, has in every state an output row that is a
    permutation of [0, m) and an inverse row that is its exact inverse;
    and so has every machine that later calls of [reset], [encryptBytes]
    and [decryptBytes] make of it. *)
Theorem permutation_invariant (n m : Z) (g : LogisticMoore.t) :
  0 < n ≤ 2 ^ 31 → 1 ≤ m ≤ 256 →
  ∃ M g', buildMealyMachine n m g = Ok (M, g') ∧
    ∀ M', reachable M M' → ∀ s, 0 ≤ s < n →
      ∃ lrow irow,
        MealyMachine.lambdaTable M' !! Z.to_nat s = Some lrow ∧
        MealyMachine.lambdaInv M' !! Z.to_nat s = Some irow ∧
        lrow ≡ₚ seqZ 0 m ∧ length irow = Z.to_nat m ∧
        inverse_rows lrow irow.
Proof.
  intros Hn Hm.
  destruct (buildMealyMachine_spec n m g Hn Hm) as (M & Hb & HM).
  eexists M, _. split; [exact Hb|].
  intros M' (_ & _ & _ & -> & ->)%reachable_same_tables s Hs.
  destruct HM as (_ & _ & _ & _ & _ & _ & _ & Hrows).
  exact (perm_row_inverse_rows _ _ _ _ _ _ (Hrows s Hs)).
Qed.

(** The same at the parameters of the application, for the generator of
    key ["test"]. *)
Lemma permutation_invariant_1024 :
  ∃ M g', buildMealyMachine 1024 256
            (LogisticMoore.new (code_units "test") 1000) = Ok (M, g') ∧
    ∀ M', reachable M M' → ∀ s, 0 ≤ s < 1024 →
      ∃ lrow irow,
        MealyMachine.lambdaTable M' !! Z.to_nat s = Some lrow ∧
        MealyMachine.lambdaInv M' !! Z.to_nat s = Some irow ∧
        lrow ≡ₚ seqZ 0 256 ∧ length irow = Z.to_nat 256 ∧
        inverse_rows lrow irow.
Proof.
  apply (permutation_invariant 1024 256
           (LogisticMoore.new (code_units "test") 1000)); lia.
Defined.


(** ** The encryption algorithm *)

(** C4. On a machine built for [n] states, every call of [encryptBytes]
    on a sequence of bytes first brings the state to the one that 500
    warm-up transitions [delta[state][j mod 256]], [j] from 0, make of
    state 0; it then emits [lambdaTable[s][x]] for the byte [x] at index
    [i] met in state [s] and moves to [(delta[s][x] + i) mod n]. The
    ciphertext is as long as the input; the trajectory has
    [min(length, 20)] entries, entry [t] holding [t], the state before,
    the input byte, the state after and the output byte. *)
Theorem encrypt_algorithm (n : Z) (g : LogisticMoore.t) (bytes : list Z) :
  0 < n ≤ 2 ^ 31 → Forall is_byte bytes →
  ∃ M g', buildMealyMachine n 256 g = Ok (M, g') ∧
    (* the states that the spec's recurrences name *)
    warm_state (MealyMachine.delta M) 0 = 0 ∧
    (∀ j, warm_state (MealyMachine.delta M) (S j) =
          at2 (MealyMachine.delta M) (warm_state (MealyMachine.delta M) j)
            (Z.of_nat j mod 256)) ∧
    enc_state M bytes 0 = warm_state (MealyMachine.delta M) 500 ∧
    (∀ i, enc_state M bytes (S i) =
          (at2 (MealyMachine.delta M) (enc_state M bytes i) (byte_at bytes i)
           + Z.of_nat i) mod n) ∧
    (* what a call does *)
    ∀ M', reachable M M' →
      MealyMachine.warm_up 500 (MealyMachine.reset M') =
        Ok (MealyMachine.set_currentState M' (enc_state M bytes 0)) ∧
      ∃ ct tr M'',
        MealyMachine.encryptBytes bytes M' = Ok (ct, tr, M'') ∧
        length ct = length bytes ∧
        (∀ i x, bytes !! i = Some x →
           ct !! i = Some (at2 (MealyMachine.lambdaTable M)
                             (enc_state M bytes i) x)) ∧
        MealyMachine.currentState M'' = enc_state M bytes (length bytes) ∧
        length tr = (length bytes `min` 20)%nat ∧
        (∀ t x y, (t < 20)%nat → bytes !! t = Some x → ct !! t = Some y →
           tr !! t = Some (Trajectory.mk (Z.of_nat t) (enc_state M bytes t) x
                             (enc_state M bytes (S t)) y)).
Proof.
  intros Hn Hbytes.
  destruct (build_wf n g Hn) as (M & Hb & HM & Hwf).
  assert (MealyMachine.n M = n) as HnM by (by destruct HM).
  eexists M, _. split; [exact Hb|].
  split; [done|]. split; [done|]. split; [done|].
  split; [intros i; cbn [enc_state]; by rewrite HnM|].
  intros M' Hsame%reachable_same_tables. split.
  { rewrite (warm_up_spec M Hwf); [done| |done].
    eapply same_tables_trans; [done|]. apply same_tables_set_currentState. }
  rewrite (encryptBytes_spec M M' bytes Hwf Hsame Hbytes).
  do 3 eexists. split; [done|].
  split; [by rewrite length_fmap, length_seq|].
  split; [|split; [done|split]].
  - intros i x Hx. pose proof (lookup_lt_Some _ _ _ Hx).
    rewrite list_lookup_fmap, lookup_seq_lt by done. cbn.
    unfold enc_output, byte_at. by rewrite Hx.
  - by rewrite length_fmap, length_seq.
  - intros t x y Ht Hx. pose proof (lookup_lt_Some _ _ _ Hx).
    rewrite !list_lookup_fmap, !lookup_seq_lt by lia. cbn -[enc_state].
    intros [= <-]. unfold enc_entry, byte_at at 1. by rewrite Hx.
Qed.

(** The same on the two bytes of ["Hi"], for 1024 states and the
    generator of key ["test"]. *)
Lemma encrypt_algorithm_Hi :
  ∃ M g', buildMealyMachine 1024 256
            (LogisticMoore.new (code_units "test") 1000) = Ok (M, g') ∧
    warm_state (MealyMachine.delta M) 0 = 0 ∧
    (∀ j, warm_state (MealyMachine.delta M) (S j) =
          at2 (MealyMachine.delta M) (warm_state (MealyMachine.delta M) j)
            (Z.of_nat j mod 256)) ∧
    enc_state M [72; 105] 0 = warm_state (MealyMachine.delta M) 500 ∧
    (∀ i, enc_state M [72; 105] (S i) =
          (at2 (MealyMachine.delta M) (enc_state M [72; 105] i)
             (byte_at [72; 105] i)
           + Z.of_nat i) mod 1024) ∧
    ∀ M', reachable M M' →
      MealyMachine.warm_up 500 (MealyMachine.reset M') =
        Ok (MealyMachine.set_currentState M' (enc_state M [72; 105] 0)) ∧
      ∃ ct tr M'',
        MealyMachine.encryptBytes [72; 105] M' = Ok (ct, tr, M'') ∧
        length ct = length [72; 105] ∧
        (∀ i x, [72; 105] !! i = Some x →
           ct !! i = Some (at2 (MealyMachine.lambdaTable M)
                             (enc_state M [72; 105] i) x)) ∧
        MealyMachine.currentState M'' =
          enc_state M [72; 105] (length [72; 105]) ∧
        length tr = (length [72; 105] `min` 20)%nat ∧
        (∀ t x y, (t < 20)%nat → [72; 105] !! t = Some x → ct !! t = Some y →
           tr !! t = Some (Trajectory.mk (Z.of_nat t)
                             (enc_state M [72; 105] t) x
                             (enc_state M [72; 105] (S t)) y)).
Proof.
  apply (encrypt_algorithm 1024
           (LogisticMoore.new (code_units "test") 1000) [72; 105]).
  - lia.
  - repeat constructor; unfold is_byte; lia.
Defined.

(** ** Every table access is in bounds *)

(** C10. On a machine built for [n] states all entries of [delta] are
    states, and in every call on a sequence of bytes the state is in
    [0, n) after any number of warm-up passes and after any number of
    per-byte steps of either loop; both calls return normally. A read
    outside a table would end the run with [Err Undefined]. *)
Theorem in_bounds_safety (n : Z) (g : LogisticMoore.t) (bytes : list Z) :
  0 < n ≤ 2 ^ 31 → Forall is_byte bytes →
  ∃ M g', buildMealyMachine n 256 g = Ok (M, g') ∧
    (∀ s x, 0 ≤ s < n → 0 ≤ x < 256 →
       ∃ d, entry (MealyMachine.delta M) s x = Some d ∧ 0 ≤ d < n) ∧
    ∀ M', reachable M M' →
      (∀ k, (k ≤ 500)%nat →
         ∃ Mk, MealyMachine.warm_up k (MealyMachine.reset M') = Ok Mk ∧
               0 ≤ MealyMachine.currentState Mk < n) ∧
      ∃ Mw, MealyMachine.warm_up 500 (MealyMachine.reset M') = Ok Mw ∧
        (∀ k, (k ≤ length bytes)%nat →
           ∃ st, for_up 0 k (MealyMachine.encrypt_step bytes)
                   (Mw, replicate (length bytes) 0, []) = Ok st ∧
                 0 ≤ MealyMachine.currentState st.1.1 < n) ∧
        (∀ k, (k ≤ length bytes)%nat →
           ∃ st, for_up 0 k (MealyMachine.decrypt_step bytes)
                   (Mw, replicate (length bytes) 0, []) = Ok st ∧
                 0 ≤ MealyMachine.currentState st.1.1 < n) ∧
        is_Ok (MealyMachine.encryptBytes bytes M') ∧
        is_Ok (MealyMachine.decryptBytes bytes M').
Proof.
  intros Hn Hbytes.
  destruct (build_wf n g Hn) as (M & Hb & HM & Hwf).
  assert (MealyMachine.n M = n) as HnM by (by destruct HM).
  eexists M, _. split; [exact Hb|]. split.
  { destruct Hwf as (_ & _ & _ & _ & _ & Hd & _). by rewrite HnM in Hd. }
  intros M' Hsame%reachable_same_tables.
  assert (same_tables M (MealyMachine.reset M')) as Hreset.
  { eapply same_tables_trans; [done|]. apply same_tables_set_currentState. }
  split.
  { intros k _. eexists. split; [by apply (warm_up_spec M Hwf)|].
    cbn. rewrite <- HnM. by apply warm_state_range. }
  eexists. split; [by apply (warm_up_spec M Hwf)|].
  set (Mw := MealyMachine.set_currentState _ _).
  assert (same_tables M Mw) as Hw.
  { eapply same_tables_trans; [exact Hreset|].
    apply same_tables_set_currentState. }
  split; [|split; [|split]].
  - intros k Hk.
    destruct (encrypt_loop M Hwf bytes Hbytes k Mw Hw Hk)
      as (ct & tr & Hrun & _); [done|].
    eexists. split; [exact Hrun|]. cbn. rewrite <- HnM.
    by apply enc_state_range.
  - intros k Hk.
    destruct (decrypt_loop M Hwf bytes Hbytes k Mw Hw Hk)
      as (pt & tr & Hrun & _); [done|].
    eexists. split; [exact Hrun|]. cbn. rewrite <- HnM.
    by apply dec_state_range.
  - eexists. by apply (encryptBytes_spec M).
  - eexists. by apply (decryptBytes_spec M).
Qed.

(** The same on the two bytes of ["Hi"], for 1024 states and the
    generator of key ["test"]. *)
Lemma in_bounds_safety_Hi :
  ∃ M g', buildMealyMachine 1024 256
            (LogisticMoore.new (code_units "test") 1000) = Ok (M, g') ∧
    (∀ s x, 0 ≤ s < 1024 → 0 ≤ x < 256 →
       ∃ d, entry (MealyMachine.delta M) s x = Some d ∧ 0 ≤ d < 1024) ∧
    ∀ M', reachable M M' →
      (∀ k, (k ≤ 500)%nat →
         ∃ Mk, MealyMachine.warm_up k (MealyMachine.reset M') = Ok Mk ∧
               0 ≤ MealyMachine.currentState Mk < 1024) ∧
      ∃ Mw, MealyMachine.warm_up 500 (MealyMachine.reset M') = Ok Mw ∧
        (∀ k, (k ≤ length [72; 105])%nat →
           ∃ st, for_up 0 k (MealyMachine.encrypt_step [72; 105])
                   (Mw, replicate (length [72; 105]) 0, []) = Ok st ∧
                 0 ≤ MealyMachine.currentState st.1.1 < 1024) ∧
        (∀ k, (k ≤ length [72; 105])%nat →
           ∃ st, for_up 0 k (MealyMachine.decrypt_step [72; 105])
                   (Mw, replicate (length [72; 105]) 0, []) = Ok st ∧
                 0 ≤ MealyMachine.currentState st.1.1 < 1024) ∧
        is_Ok (MealyMachine.encryptBytes [72; 105] M') ∧
        is_Ok (MealyMachine.decryptBytes [72; 105] M').
Proof.
  apply (in_bounds_safety 1024
           (LogisticMoore.new (code_units "test") 1000) [72; 105]).
  - lia.
  - repeat constructor; unfold is_byte; lia.
Defined.


(** ** How the builder consumes the entropy *)

Lemma for_down_ext {St} (I : Z → St → Prop) (b1 b2 : Z → St → result St)
    hi k st :
  I hi st →
  (∀ i st, hi - Z.of_nat k < i ≤ hi → I i st →
     b1 i st = b2 i st ∧ ∀ st', b1 i st = Ok st' → I (i - 1) st') →
  for_down hi k b1 st = for_down hi k b2 st.
Proof.
  revert hi st. induction k as [|k IH]; intros hi st H0 Hstep; [done|].
  cbn [for_down]. destruct (Hstep hi st) as [Heq Hnext]; [lia|done|].
  rewrite <- Heq. destruct (b1 hi st) as [st1|e]; [|done].
  rewrite !bind_Ok. apply IH; [by apply Hnext|].
  intros i st' Hi. apply Hstep. lia.
Qed.

Lemma aget_agree (e e' : list Z) c :
  e !! Z.to_nat c = e' !! Z.to_nat c → aget e c = aget e' c.
Proof. unfold aget. by intros ->. Qed.

Lemma shuffle_agree (e e' : list Z) m perm c :
  0 ≤ c →
  (∀ c', c ≤ c' < c + (m - 1) → e !! Z.to_nat c' = e' !! Z.to_nat c') →
  shuffle e m (perm, c) = shuffle e' m (perm, c).
Proof.
  intros Hc Hagree. unfold shuffle.
  apply (for_down_ext (λ i (st : list Z * Z), st.2 = c + (m - 1 - i))).
  - cbn. lia.
  - intros i [p cur] Hi Hcur. cbn in Hcur. subst cur.
    unfold shuffle_step.
    rewrite (aget_agree e e') by (apply Hagree; lia). split; [done|].
    intros [p' cur'].
    intros (x & _ & (t & _ & (pj & _ & [= _ <-]
      )%bind_is_Ok)%bind_is_Ok)%bind_is_Ok.
    cbn. lia.
Qed.

Lemma table_eq n m (T T' : list (list Z)) :
  table_shape n m T → table_shape n m T' →
  (∀ s x, 0 ≤ s < n → 0 ≤ x < m → entry T s x = entry T' s x) →
  T = T'.
Proof.
  intros HT HT' Hentries. apply list_eq. intros s.
  destruct (decide (s < Z.to_nat n)%nat) as [Hs|Hs].
  - destruct (table_shape_row n m T (Z.of_nat s)) as (row & Hrow & Hlen);
      [done|lia|].
    destruct (table_shape_row n m T' (Z.of_nat s)) as (row' & Hrow' & Hlen');
      [done|lia|].
    rewrite Nat2Z.id in Hrow, Hrow'. rewrite Hrow, Hrow'. f_equal.
    apply list_eq. intros x.
    destruct (decide (x < Z.to_nat m)%nat) as [Hx|Hx].
    + specialize (Hentries (Z.of_nat s) (Z.of_nat x) ltac:(lia) ltac:(lia)).
      unfold entry in Hentries. rewrite !Nat2Z.id, Hrow, Hrow' in Hentries.
      done.
    + by rewrite !lookup_ge_None_2 by lia.
  - destruct HT, HT'. by rewrite !lookup_ge_None_2 by lia.
Qed.

Lemma inverse_row_unique (lrow irow irow' : list Z) m :
  lrow ≡ₚ seqZ 0 m →
  length irow = Z.to_nat m → length irow' = Z.to_nat m →
  (∀ i v, lrow !! i = Some v → irow !! Z.to_nat v = Some (Z.of_nat i)) →
  (∀ i v, lrow !! i = Some v → irow' !! Z.to_nat v = Some (Z.of_nat i)) →
  irow = irow'.
Proof.
  intros Hp Hlen Hlen' Hinv Hinv'. apply list_eq. intros y.
  destruct (decide (y < Z.to_nat m)%nat) as [Hy|Hy].
  - assert (Z.of_nat y ∈ lrow) as [i Hi]%list_elem_of_lookup_1.
    { rewrite Hp. apply elem_of_seqZ. lia. }
    pose proof (Hinv _ _ Hi) as H1. pose proof (Hinv' _ _ Hi) as H2.
    rewrite Nat2Z.id in H1, H2. by rewrite H1, H2.
  - by rewrite !lookup_ge_None_2 by lia.
Qed.

Lemma built_from_agree e e' n m M M' :
  0 < n → 1 ≤ m →
  (∀ c, 0 ≤ c < n * m + n * (m - 1) → e' !! Z.to_nat c = e !! Z.to_nat c) →
  built_from e n m M → built_from e' n m M' → M' = M.
Proof.
  intros Hn Hm Hagree
    (HMn & HMm & HMc & HD & HLT & HLI & Hdelta & Hrows)
    (HMn' & HMm' & HMc' & HD' & HLT' & HLI' & Hdelta' & Hrows').
  assert (MealyMachine.delta M' = MealyMachine.delta M) as Hd.
  { apply (table_eq n m); [done|done|]. intros s x Hs Hx.
    destruct (Hdelta s x Hs Hx) as (v & Hv & ->).
    destruct (Hdelta' s x Hs Hx) as (v' & Hv' & ->).
    rewrite Hagree in Hv' by nia. congruence. }
  assert (∀ s, 0 ≤ s < n →
            MealyMachine.lambdaTable M' !! Z.to_nat s =
              MealyMachine.lambdaTable M !! Z.to_nat s ∧
            MealyMachine.lambdaInv M' !! Z.to_nat s =
              MealyMachine.lambdaInv M !! Z.to_nat s) as Hrow.
  { intros s Hs.
    destruct (Hrows s Hs) as (lrow & irow & Hl & Hi & Hsh & Hp & Hil & Hinv).
    destruct (Hrows' s Hs)
      as (lrow' & irow' & Hl' & Hi' & Hsh' & Hp' & Hil' & Hinv').
    rewrite (shuffle_agree e' e) in Hsh' by (nia || (intros; apply Hagree; nia)).
    assert (lrow' = lrow) as -> by congruence.
    rewrite Hl, Hl', Hi, Hi'. split; [done|]. f_equal.
    by eapply inverse_row_unique. }
  assert (MealyMachine.lambdaTable M' = MealyMachine.lambdaTable M) as Hlt.
  { apply list_eq. intros s.
    destruct (decide (s < Z.to_nat n)%nat).
    - destruct (Hrow (Z.of_nat s)) as [H _]; [lia|]. by rewrite Nat2Z.id in H.
    - destruct HLT, HLT'. by rewrite !lookup_ge_None_2 by lia. }
  assert (MealyMachine.lambdaInv M' = MealyMachine.lambdaInv M) as Hli.
  { apply list_eq. intros s.
    destruct (decide (s < Z.to_nat n)%nat).
    - destruct (Hrow (Z.of_nat s)) as [_ H]; [lia|]. by rewrite Nat2Z.id in H.
    - destruct HLI, HLI'. by rewrite !lookup_ge_None_2 by lia. }
  destruct M, M'. cbn in *. congruence.
Qed.

(** C3, as the code has it. The builder asks the generator for exactly
    [2*n*m] values, in one call, and reads them through one cursor that
    only moves forward: the transition fill reads the first [n*m], entry
    [delta[s][i]] taking the value at [s*m + i]; the permutation fill
    reads the next [n*(m-1)], the shuffle of state [s] taking the [m-1]
    values from [n*m + s*(m-1)] on. The cursor stops at [2*n*m - n]: the
    last [n] values are never read, and the machine is the same whatever
    they are. *)
Theorem builder_entropy_consumption (n m : Z) (g : LogisticMoore.t) :
  0 < n ≤ 2 ^ 31 → 1 ≤ m ≤ 256 →
  ∃ entropy g' M1 M,
    LogisticMoore.generateStream (n * m * 2) g = Ok (entropy, g') ∧
    Z.of_nat (length entropy) = 2 * n * m ∧
    g' = Nat.iter (Z.to_nat (2 * n * m)) LogisticMoore._transition g ∧
    buildMealyMachine n m g = Ok (M, g') ∧
    fill_delta entropy n m (fresh_machine n m, 0) = Ok (M1, n * m) ∧
    (∀ s i, 0 ≤ s < n → 0 ≤ i < m →
       ∃ e, entropy !! Z.to_nat (s * m + i) = Some e ∧
            entry (MealyMachine.delta M1) s i = Some (Z.abs e mod n)) ∧
    fill_lambda entropy n m (M1, n * m) = Ok (M, 2 * n * m - n) ∧
    (∀ s, 0 ≤ s < n →
       perm_row entropy n m (MealyMachine.lambdaTable M)
         (MealyMachine.lambdaInv M) s) ∧
    (∀ entropy',
       (∀ c, 0 ≤ c < 2 * n * m - n →
             entropy' !! Z.to_nat c = entropy !! Z.to_nat c) →
       fill_tables entropy' n m (fresh_machine n m) = Ok (M, 2 * n * m - n)).
Proof.
  intros Hn Hm.
  replace (2 * n * m - n) with (n * m + n * (m - 1)) by ring.
  replace (2 * n * m) with (n * m * 2) by ring.
  set (entropy := outputs (Z.to_nat (n * m * 2)) g).
  assert (Z.of_nat (length entropy) = n * m * 2) as Hlen.
  { unfold entropy. rewrite length_outputs. nia. }
  destruct (buildMealyMachine_spec n m g Hn Hm) as (M & Hb & HM).
  fold entropy in HM.
  destruct (fill_tables_spec entropy n m Hn Hm) as (M0 & Hfill & HM0);
    [nia|].
  assert (M0 = M) as ->.
  { apply (built_from_agree entropy entropy n m); [lia|lia|done|done|done]. }
  destruct (fill_delta_filled entropy n m (fresh_machine n m))
    as ([M1 c1] & Hrun1 & Hc1 & D & HM1 & HD & Hdelta);
    [done|lia|nia|apply table_shape_replicate|].
  cbn in Hc1, HM1. subst c1.
  eexists entropy, _, M1, M.
  split; [apply generateStream_spec; nia|]. split; [done|].
  split; [done|]. split; [exact Hb|]. split; [exact Hrun1|]. split.
  { intros s i Hs Hi. subst M1. apply Hdelta; [done|done|nia]. }
  split.
  { unfold fill_tables in Hfill. by rewrite Hrun1, bind_Ok in Hfill. }
  split; [by destruct HM as (_ & _ & _ & _ & _ & _ & _ & Hrows)|].
  intros entropy' Hagree.
  assert (n * m + n * (m - 1) ≤ Z.of_nat (length entropy')) as Hlen'.
  { assert (0 ≤ n * m + n * (m - 1) - 1 < n * m + n * (m - 1)) as Hlast
      by nia.
    pose proof (Hagree _ Hlast) as Heq.
    destruct (lookup_lt_is_Some_2 entropy
                (Z.to_nat (n * m + n * (m - 1) - 1))) as [v Hv]; [nia|].
    rewrite Hv in Heq. apply lookup_lt_Some in Heq. lia. }
  destruct (fill_tables_spec entropy' n m Hn Hm Hlen') as (M' & Hfill' & HM').
  rewrite Hfill'. do 2 f_equal.
  apply (built_from_agree entropy entropy' n m); [lia|lia|done|done|done].
Qed.

(** The same at the parameters of the application, for the generator of
    key ["test"]. *)
Lemma builder_entropy_consumption_1024 :
  ∃ entropy g' M1 M,
    LogisticMoore.generateStream (1024 * 256 * 2)
      (LogisticMoore.new (code_units "test") 1000) = Ok (entropy, g') ∧
    Z.of_nat (length entropy) = 2 * 1024 * 256 ∧
    g' = Nat.iter (Z.to_nat (2 * 1024 * 256)) LogisticMoore._transition
           (LogisticMoore.new (code_units "test") 1000) ∧
    buildMealyMachine 1024 256
      (LogisticMoore.new (code_units "test") 1000) = Ok (M, g') ∧
    fill_delta entropy 1024 256 (fresh_machine 1024 256, 0) =
      Ok (M1, 1024 * 256) ∧
    (∀ s i, 0 ≤ s < 1024 → 0 ≤ i < 256 →
       ∃ e, entropy !! Z.to_nat (s * 256 + i) = Some e ∧
            entry (MealyMachine.delta M1) s i = Some (Z.abs e mod 1024)) ∧
    fill_lambda entropy 1024 256 (M1, 1024 * 256) =
      Ok (M, 2 * 1024 * 256 - 1024) ∧
    (∀ s, 0 ≤ s < 1024 →
       perm_row entropy 1024 256 (MealyMachine.lambdaTable M)
         (MealyMachine.lambdaInv M) s) ∧
    (∀ entropy',
       (∀ c, 0 ≤ c < 2 * 1024 * 256 - 1024 →
             entropy' !! Z.to_nat c = entropy !! Z.to_nat c) →
       fill_tables entropy' 1024 256 (fresh_machine 1024 256) =
         Ok (M, 2 * 1024 * 256 - 1024)).
Proof.
  apply (builder_entropy_consumption 1024 256
           (LogisticMoore.new (code_units "test") 1000)); lia.
Defined.

(** C3, as the spec states it, fails at the parameters of the
    application: over the [2*1024*256] values that the generator of key
    ["test"] produces, the two fills do not end with the cursor at
    [2*1024*256]. *)
Lemma fills_do_not_consume_all_entropy :
  ¬ ∃ M, fill_tables
           (outputs (Z.to_nat (2 * 1024 * 256))
              (LogisticMoore.new (code_units "test") 1000))
           1024 256 (fresh_machine 1024 256) = Ok (M, 2 * 1024 * 256).
Proof.
  intros [M HM].
  destruct (fill_tables_spec
              (outputs (Z.to_nat (2 * 1024 * 256))
                 (LogisticMoore.new (code_units "test") 1000)) 1024 256)
    as (M' & Hfill & _); [lia|lia|rewrite length_outputs; lia|].
  rewrite Hfill in HM. injection HM as _ Hc. lia.
Qed.


(** ** Determinism *)

Lemma new_LogisticMoore_fresh key (σ : gmap positive LogisticMoore.t) :
  σ !! (new_LogisticMoore key σ).1 = None ∧
  (new_LogisticMoore key σ).2 =
    <[(new_LogisticMoore key σ).1 := LogisticMoore.new key 1000]> σ.
Proof.
  split; [|done]. cbn. apply not_elem_of_dom, is_fresh.
Qed.

Lemma invoke_Ok {A} l (method : LogisticMoore.t → result (A * LogisticMoore.t))
    (σ : gmap positive LogisticMoore.t) g a g' :
  σ !! l = Some g → method g = Ok (a, g') →
  invoke l method σ = Ok (a, <[l := g']> σ).
Proof. intros Hl Hm. unfold invoke. by rewrite Hl, Hm. Qed.

(** C5. Two generators made from the same key in one store are distinct
    objects; asked for [N] values one after the other they return the
    same [N] values, and two machines built from them one after the other
    are equal in every field: [delta], [lambdaTable] and [lambdaInv]
    agree entry for entry. *)
Theorem same_key_same_stream_and_tables
    (σ : gmap positive LogisticMoore.t) (K : list Z) (N : nat) (n m : Z) :
  0 < n ≤ 2 ^ 31 → 1 ≤ m ≤ 256 →
  let a := (new_LogisticMoore K σ).1 in
  let σ1 := (new_LogisticMoore K σ).2 in
  let b := (new_LogisticMoore K σ1).1 in
  let σ2 := (new_LogisticMoore K σ1).2 in
  a ≠ b ∧
  (∃ stream σ3 σ4,
     invoke a (LogisticMoore.generateStream (Z.of_nat N)) σ2 =
       Ok (stream, σ3) ∧
     invoke b (LogisticMoore.generateStream (Z.of_nat N)) σ3 =
       Ok (stream, σ4) ∧
     length stream = N) ∧
  (∃ M σ3 σ4,
     invoke a (buildMealyMachine n m) σ2 = Ok (M, σ3) ∧
     invoke b (buildMealyMachine n m) σ3 = Ok (M, σ4)).
Proof.
  intros Hn Hm a σ1 b σ2.
  destruct (new_LogisticMoore_fresh K σ) as [Ha Hσ1].
  destruct (new_LogisticMoore_fresh K σ1) as [Hb Hσ2].
  fold a in Ha, Hσ1. fold σ1 in Hσ1, Hb, Hσ2. fold b in Hb, Hσ2.
  fold σ2 in Hσ2.
  assert (a ≠ b) as Hab.
  { intros Heq. rewrite Hσ1, <- Heq, lookup_insert_eq in Hb. done. }
  assert (σ2 !! a = Some (LogisticMoore.new K 1000)) as Ha2.
  { by rewrite Hσ2, lookup_insert_ne, Hσ1, lookup_insert_eq. }
  assert (∀ g', <[a := g']> σ2 !! b = Some (LogisticMoore.new K 1000)) as Hb3.
  { intros g'. by rewrite lookup_insert_ne, Hσ2, lookup_insert_eq. }
  split; [done|]. split.
  - do 3 eexists. split; [|split].
    + eapply invoke_Ok; [exact Ha2|]. apply generateStream_spec. lia.
    + eapply invoke_Ok; [apply Hb3|]. apply generateStream_spec. lia.
    + rewrite length_outputs. lia.
  - destruct (buildMealyMachine_spec n m (LogisticMoore.new K 1000) Hn Hm)
      as (M & Hbuild & _).
    exists M. do 2 eexists. split.
    + eapply invoke_Ok; [exact Ha2|exact Hbuild].
    + eapply invoke_Ok; [apply Hb3|exact Hbuild].
Qed.

(** The same in the empty store, for key ["test"], 16 values and the
    parameters of the application. *)
Lemma same_key_same_stream_and_tables_test :
  let a := (new_LogisticMoore (code_units "test") ∅).1 in
  let σ1 := (new_LogisticMoore (code_units "test") ∅).2 in
  let b := (new_LogisticMoore (code_units "test") σ1).1 in
  let σ2 := (new_LogisticMoore (code_units "test") σ1).2 in
  a ≠ b ∧
  (∃ stream σ3 σ4,
     invoke a (LogisticMoore.generateStream (Z.of_nat 16)) σ2 =
       Ok (stream, σ3) ∧
     invoke b (LogisticMoore.generateStream (Z.of_nat 16)) σ3 =
       Ok (stream, σ4) ∧
     length stream = 16%nat) ∧
  (∃ M σ3 σ4,
     invoke a (buildMealyMachine 1024 256) σ2 = Ok (M, σ3) ∧
     invoke b (buildMealyMachine 1024 256) σ3 = Ok (M, σ4)).
Proof.
  apply (same_key_same_stream_and_tables ∅ (code_units "test") 16 1024 256);
    lia.
Defined.


(** ** The metrics *)

Lemma npcr_step_at (plain cipher : list Z) i p c diff :
  plain !! i = Some p → cipher !! i = Some c →
  npcr_step plain cipher (Z.of_nat i) diff =
  Ok (if bool_decide (p ≠ c) then diff + 1 else diff).
Proof.
  intros Hp Hc. unfold npcr_step.
  by rewrite (aget_lookup _ _ _ Hp), bind_Ok, (aget_lookup _ _ _ Hc).
Qed.

Lemma npcr_loop (pa pb a b : list Z) acc :
  length pa = length pb → length a = length b →
  for_up (Z.of_nat (length pa)) (length a) (npcr_step (pa ++ a) (pb ++ b)) acc
  = Ok (acc + count_diff a b).
Proof.
  revert pa pb b acc. induction a as [|x a IH]; intros pa pb b acc Hp Hab.
  - destruct b; [|done]. cbn. by rewrite Z.add_0_r.
  - destruct b as [|y b]; [done|]. cbn [length for_up count_diff].
    rewrite (npcr_step_at _ _ _ x y), bind_Ok; cycle 1.
    { by rewrite lookup_app_r, Nat.sub_diag by lia. }
    { by rewrite Hp, lookup_app_r, Nat.sub_diag by lia. }
    replace (Z.of_nat (length pa) + 1) with (Z.of_nat (length (pa ++ [x])))
      by (rewrite length_app; cbn; lia).
    rewrite (cons_middle x pa a), (cons_middle y pb b), !app_assoc.
    rewrite IH by (rewrite ?length_app; cbn in *; lia).
    f_equal. case_bool_decide; lia.
Qed.

(** C8. [calculateNPCR] never fails. On sequences of different lengths,
    or when an argument is [null], it returns ["0.00"]; on sequences of
    one length it returns the count of differing positions, divided by
    the length and multiplied by 100 in binary64, as [toFixed(2)] prints
    it. It returns ["0.00"] on [[1,2,3]] against itself and ["100.00"]
    on [[1,2,3]] against [[9,9,9]]. *)
Theorem npcr_behaviour (Number_toString : float → string) (a b : list Z) :
  calculateNPCR Number_toString (Some a) (Some b) =
    Ok (if bool_decide (length a ≠ length b) then "0.00"
        else toFixed Number_toString
               (PrimFloat.mul
                  (PrimFloat.div (Z2F (count_diff a b))
                     (Z2F (Z.of_nat (length a))))
                  100)
               2) ∧
  calculateNPCR Number_toString None (Some b) = Ok "0.00" ∧
  calculateNPCR Number_toString (Some a) None = Ok "0.00" ∧
  calculateNPCR Number_toString (Some [1; 2; 3]) (Some [1; 2; 3]) = Ok "0.00" ∧
  calculateNPCR Number_toString (Some [1; 2; 3]) (Some [9; 9; 9])
    = Ok "100.00".
Proof.
  split; [|by vm_compute].
  unfold calculateNPCR. case_bool_decide as Hlen; [done|].
  pose proof (npcr_loop [] [] a b 0 eq_refl Hlen) as Hloop.
  cbn [length app] in Hloop. change (Z.of_nat 0) with 0 in Hloop.
  rewrite Hloop, bind_Ok. done.
Qed.

Lemma count_diff_range a b : 0 ≤ count_diff a b ≤ Z.of_nat (length a).
Proof.
  revert b. induction a as [|x a IH]; intros b; [cbn; lia|].
  destruct b as [|y b]; [cbn; lia|]. cbn [count_diff length].
  specialize (IH b). case_bool_decide; lia.
Qed.

Lemma npcr_table :
  all_from 1 32 (λ L, all_from 0 (Z.to_nat (L + 1)) (npcr_cell L)) = true.
Proof. vm_cast_no_check (eq_refl true). Qed.

(** X16. On sequences of one length, up to 32 elements, what
    [calculateNPCR] prints is a two-decimal value nearest to the exact
    percentage of differing positions: the binary64 arithmetic loses
    nothing there. *)
Lemma npcr_nearest_hundredth (Number_toString : float → string)
    (a b : list Z) :
  length a = length b → (0 < length a ≤ 32)%nat →
  ∃ h, calculateNPCR Number_toString (Some a) (Some b) =
         Ok (fixed_digits h 2) ∧
       nearest_hundredth (count_diff a b) (Z.of_nat (length a)) h.
Proof.
  intros Hlen Hbound. unfold calculateNPCR.
  rewrite bool_decide_eq_false_2 by (by intros ?).
  pose proof (npcr_loop [] [] a b 0 eq_refl Hlen) as Hloop.
  cbn [length app] in Hloop. change (Z.of_nat 0) with 0 in Hloop.
  rewrite Hloop, bind_Ok, Z.add_0_l.
  pose proof (count_diff_range a b) as Hd.
  pose proof (all_from_spec _ _ _ (Z.of_nat (length a)) npcr_table
                ltac:(lia)) as Hrow.
  cbv beta in Hrow.
  pose proof (all_from_spec _ _ _ (count_diff a b) Hrow ltac:(lia)) as Hcell.
  unfold npcr_cell in Hcell. unfold toFixed, nearest_hundredth.
  destruct (Prim2SF _) as [sg|sg| |sg mant e]; try done.
  - apply Z.eqb_eq in Hcell. exists 0. split; [done|]. lia.
  - destruct sg; [done|]. apply andb_prop in Hcell as [Hbig Hnear].
    apply negb_true_iff in Hbig. rewrite Hbig.
    eexists. split; [done|]. lia.
Qed.

(** The same for [[1, 2, 3]] against [[1, 9, 9]]. *)
Lemma npcr_nearest_hundredth_two_in_three :
  ∃ h, calculateNPCR no_toString (Some [1; 2; 3]) (Some [1; 9; 9]) =
         Ok (fixed_digits h 2) ∧
       nearest_hundredth (count_diff [1; 2; 3] [1; 9; 9])
         (Z.of_nat (length [1; 2; 3])) h.
Proof.
  apply (npcr_nearest_hundredth no_toString [1; 2; 3] [1; 9; 9]).
  - reflexivity.
  - cbn. lia.
Defined.

Lemma bins_S lo len f :
  bins lo (S len) f =
  (if decide (f lo ≠ 0) then [(lo, f lo)] else []) ++ bins (lo + 1) len f.
Proof.
  unfold bins. rewrite seqZ_cons by lia. rewrite fmap_cons, filter_cons.
  replace (Z.pred (Z.of_nat (S len))) with (Z.of_nat len) by lia.
  replace (Z.succ lo) with (lo + 1) by lia.
  cbn [snd]. by case_decide.
Qed.

Lemma bins_keys lo len f p : p ∈ bins lo len f → lo ≤ p.1.
Proof.
  unfold bins. intros [_ Hp]%list_elem_of_filter.
  apply list_elem_of_fmap in Hp as (v & -> & Hv).
  apply elem_of_seqZ in Hv. cbn. lia.
Qed.

Lemma bins_ext lo len f g :
  (∀ x, lo ≤ x < lo + Z.of_nat len → f x = g x) →
  bins lo len f = bins lo len g.
Proof.
  revert lo. induction len as [|len IH]; intros lo Hfg; [done|].
  rewrite !bins_S, Hfg by lia. f_equal. apply IH. intros x Hx.
  apply Hfg. lia.
Qed.

Lemma bins_zero lo len f : (∀ x, f x = 0) → bins lo len f = [].
Proof.
  intros Hf. revert lo. induction len as [|len IH]; intros lo; [done|].
  rewrite bins_S, Hf, IH. by case_decide.
Qed.

Lemma obj_get_bins lo len f k :
  obj_get (bins lo len f) k =
  if decide (lo ≤ k < lo + Z.of_nat len ∧ f k ≠ 0) then Some (f k) else None.
Proof.
  revert lo. induction len as [|len IH]; intros lo.
  - cbn. case_decide; [lia|done].
  - rewrite bins_S. destruct (decide (f lo ≠ 0)) as [Hlo|Hlo]; cbn [app obj_get].
    + destruct (Z.eqb_spec k lo) as [->|Hne].
      * rewrite decide_True; [done|lia].
      * rewrite IH. repeat case_decide; (done || lia).
    + rewrite IH. repeat case_decide; try (done || lia).
      destruct (decide (k = lo)) as [->|]; [tauto|lia].
Qed.

Lemma obj_set_below (o : list (Z * Z)) k v :
  (∀ p, p ∈ o → k < p.1) → obj_set o k v = (k, v) :: o.
Proof.
  destruct o as [|[k' v'] o]; [done|]. intros Hall. cbn [obj_set].
  specialize (Hall (k', v') ltac:(left)). cbn in Hall.
  by destruct (Z.ltb_spec k k'); [|lia].
Qed.

Lemma obj_set_bins lo len f k v :
  lo ≤ k < lo + Z.of_nat len → v ≠ 0 →
  obj_set (bins lo len f) k v =
  bins lo len (λ x, if decide (x = k) then v else f x).
Proof.
  revert lo. induction len as [|len IH]; intros lo Hk Hv; [lia|].
  rewrite !bins_S. destruct (decide (k = lo)) as [->|Hne].
  - rewrite (decide_True (P := lo = lo)) by done.
    rewrite (decide_True (P := v ≠ 0)) by done.
    rewrite (bins_ext (lo + 1) len
               (λ x, if decide (x = lo) then v else f x) f)
      by (intros x Hx; rewrite decide_False; [done|lia]).
    destruct (decide (f lo ≠ 0)); cbn [app].
    + cbn [obj_set]. destruct (Z.ltb_spec lo lo); [lia|].
      by rewrite Z.eqb_refl.
    + apply obj_set_below. intros p Hp%bins_keys. lia.
  - rewrite (decide_False (P := lo = k)) by done.
    destruct (decide (f lo ≠ 0)); cbn [app].
    + cbn [obj_set]. destruct (Z.ltb_spec k lo); [lia|].
      destruct (Z.eqb_spec k lo); [lia|]. f_equal. apply IH; [lia|done].
    + apply IH; [lia|done].
Qed.

Lemma Object_values_bins lo len f :
  Object_values (bins lo len f) =
  filter (λ c, c ≠ 0) (f <$> seqZ lo (Z.of_nat len)).
Proof.
  revert lo. induction len as [|len IH]; intros lo; [done|].
  rewrite bins_S. unfold Object_values in *. rewrite fmap_app, IH.
  rewrite (seqZ_cons lo) by lia. rewrite fmap_cons, filter_cons.
  replace (Z.pred (Z.of_nat (S len))) with (Z.of_nat len) by lia.
  replace (Z.succ lo) with (lo + 1) by lia.
  by case_decide.
Qed.

Lemma occurrences_nonneg data v : 0 ≤ occurrences data v.
Proof. unfold occurrences. lia. Qed.

Lemma occurrences_snoc data val v :
  occurrences (data ++ [val]) v =
  if decide (v = val) then occurrences data v + 1 else occurrences data v.
Proof.
  unfold occurrences. rewrite filter_app, length_app.
  rewrite filter_cons, filter_nil.
  destruct (decide (val = v)) as [->|Hne].
  - rewrite decide_True by done. cbn. lia.
  - rewrite decide_False by congruence. cbn. lia.
Qed.

Lemma count_step_bins pre val :
  is_byte val →
  count_step (bins 0 256 (occurrences pre)) val =
  bins 0 256 (occurrences (pre ++ [val])).
Proof.
  intros Hval. unfold count_step. rewrite obj_get_bins.
  pose proof (occurrences_nonneg pre val) as Hocc.
  assert (default 0
            (if decide (0 ≤ val < 0 + Z.of_nat 256 ∧ occurrences pre val ≠ 0)
             then Some (occurrences pre val) else None)
          = occurrences pre val) as ->.
  { case_decide as Hc; [done|]. cbn. destruct Hval.
    destruct (decide (occurrences pre val = 0)); [lia|].
    exfalso. apply Hc. lia. }
  rewrite obj_set_bins by (destruct Hval; lia).
  apply bins_ext. intros x _. rewrite occurrences_snoc.
  by case_decide; subst.
Qed.

Lemma count_loop data pre :
  Forall is_byte data →
  fold_left count_step data (bins 0 256 (occurrences pre)) =
  bins 0 256 (occurrences (pre ++ data)).
Proof.
  revert pre. induction data as [|val data IH]; intros pre Hdata.
  - by rewrite app_nil_r.
  - apply Forall_cons in Hdata as [Hval Hdata]. cbn [fold_left].
    rewrite count_step_bins by done. rewrite IH by done.
    by rewrite <- app_assoc.
Qed.

(** C9. [calculateEntropy] returns ["0.0000"] on [null] and on the empty
    sequence. On a non-empty sequence of bytes it returns, as
    [toFixed(4)] prints it, the binary64 value reached from 0 by
    subtracting [p * log2(p)], [p = count / length], for the count of
    each byte value that occurs, in ascending order of the value. When
    [Math.log2] is exact at 1 and at 0.5, it returns ["0.0000"] on
    [[0,0,0,0]] and ["1.0000"] on [[0,1]]. *)
Theorem entropy_behaviour (Math_log2 : float → float)
    (Number_toString : float → string) (data : list Z) :
  Math_log2 1%float = 0%float → Math_log2 0.5%float = (-1)%float →
  Forall is_byte data →
  calculateEntropy Math_log2 Number_toString None = "0.0000" ∧
  calculateEntropy Math_log2 Number_toString (Some data) =
    match data with
    | [] => "0.0000"
    | _ =>
        toFixed Number_toString
          (fold_left
             (λ entropy count,
                let p := PrimFloat.div (Z2F count)
                           (Z2F (Z.of_nat (length data))) in
                PrimFloat.sub entropy (PrimFloat.mul p (Math_log2 p)))
             (histogram data) 0%float)
          4
    end ∧
  calculateEntropy Math_log2 Number_toString (Some [0; 0; 0; 0]) = "0.0000" ∧
  calculateEntropy Math_log2 Number_toString (Some [0; 1]) = "1.0000".
Proof.
  intros Hone Hhalf Hdata.
  assert (∀ d, Forall is_byte d → d ≠ [] →
            calculateEntropy Math_log2 Number_toString (Some d) =
            toFixed Number_toString
              (fold_left (entropy_step Math_log2 (Z.of_nat (length d)))
                 (histogram d) 0%float) 4) as Hgen.
  { intros d Hd Hne. unfold calculateEntropy.
    rewrite bool_decide_eq_false_2 by (by destruct d).
    rewrite <- (bins_zero 0 256 (occurrences [])) at 1 by done.
    rewrite count_loop by done. by rewrite Object_values_bins. }
  split; [done|]. split; [|split].
  - destruct data as [|x data]; [done|]. by rewrite Hgen.
  - rewrite Hgen by (repeat constructor; unfold is_byte; lia || done).
    replace (histogram [0; 0; 0; 0]) with [4] by (by vm_compute).
    cbn [fold_left length]. unfold entropy_step.
    replace (PrimFloat.div (Z2F 4) (Z2F (Z.of_nat 4))) with 1%float
      by (by vm_compute).
    rewrite Hone. by vm_compute.
  - rewrite Hgen by (repeat constructor; unfold is_byte; lia || done).
    replace (histogram [0; 1]) with [1; 1] by (by vm_compute).
    cbn [fold_left length]. unfold entropy_step.
    replace (PrimFloat.div (Z2F 1) (Z2F (Z.of_nat 2))) with 0.5%float
      by (by vm_compute).
    rewrite Hhalf. by vm_compute.
Qed.

(** The same with a [Math.log2] that is exact on the powers of two, on
    the bytes [[0, 1]]. *)
Lemma entropy_behaviour_pow2 :
  calculateEntropy log2_pow2 no_toString None = "0.0000" ∧
  calculateEntropy log2_pow2 no_toString (Some [0; 1]) =
    toFixed no_toString
      (fold_left
         (λ entropy count,
            let p := PrimFloat.div (Z2F count)
                       (Z2F (Z.of_nat (length [0; 1]))) in
            PrimFloat.sub entropy (PrimFloat.mul p (log2_pow2 p)))
         (histogram [0; 1]) 0%float)
      4 ∧
  calculateEntropy log2_pow2 no_toString (Some [0; 0; 0; 0]) = "0.0000" ∧
  calculateEntropy log2_pow2 no_toString (Some [0; 1]) = "1.0000".
Proof.
  apply (entropy_behaviour log2_pow2 no_toString [0; 1]).
  - vm_compute. reflexivity.
  - vm_compute. reflexivity.
  - repeat constructor; unfold is_byte; lia.
Defined.


(** * Further properties of the code *)

(** ** The cipher as a bijection, byte by byte *)

Section inverse_roundtrip.
Context (M : MealyMachine.t) (C : list Z).
Hypothesis Hwf : wf M.
Hypothesis HC : Forall is_byte C.

Lemma plaintext_is_bytes :
  Forall is_byte (dec_output M C <$> seq 0 (length C)).
Proof.
  apply Forall_fmap, Forall_forall. intros i _. by apply dec_output_is_byte.
Qed.

Lemma plaintext_byte_at i :
  (i < length C)%nat →
  byte_at (dec_output M C <$> seq 0 (length C)) i = dec_output M C i.
Proof.
  intros Hi. unfold byte_at.
  by rewrite list_lookup_fmap, lookup_seq_lt.
Qed.

Lemma enc_state_of_plaintext i :
  (i ≤ length C)%nat →
  enc_state M (dec_output M C <$> seq 0 (length C)) i = dec_state M C i.
Proof.
  induction i as [|i IH]; intros Hi; [done|].
  cbn [dec_state enc_state]. rewrite IH, plaintext_byte_at by lia. done.
Qed.

Lemma enc_output_of_plaintext i :
  (i < length C)%nat →
  enc_output M (dec_output M C <$> seq 0 (length C)) i = byte_at C i.
Proof.
  intros Hi. unfold enc_output.
  rewrite enc_state_of_plaintext, plaintext_byte_at by lia.
  unfold dec_output, dec_output_at.
  by destruct (lambdaInv_range M Hwf (dec_state M C i) (byte_at C i))
    as (_ & _ & ->); [by apply dec_state_range|by apply byte_at_is_byte|].
Qed.

Lemma encrypted_plaintext :
  enc_output M (dec_output M C <$> seq 0 (length C)) <$> seq 0 (length C) = C.
Proof.
  apply list_eq. intros i. rewrite list_lookup_fmap.
  destruct (decide (i < length C)%nat) as [Hi|Hi].
  - rewrite lookup_seq_lt by done. cbn.
    rewrite enc_output_of_plaintext by done. unfold byte_at.
    by destruct (lookup_lt_is_Some_2 C i Hi) as [b ->].
  - by rewrite lookup_seq_ge, lookup_ge_None_2 by lia.
Qed.

Lemma inverse_roundtrip_wf M1 M2 :
  same_tables M M1 → same_tables M M2 →
  ∃ pt tr M1' tr' M2',
    MealyMachine.decryptBytes C M1 = Ok (pt, tr, M1') ∧
    length pt = length C ∧ Forall is_byte pt ∧
    MealyMachine.encryptBytes pt M2 = Ok (C, tr', M2').
Proof.
  intros H1 H2.
  exists (dec_output M C <$> seq 0 (length C)). do 4 eexists.
  split; [by apply decryptBytes_spec|].
  split; [by rewrite length_fmap, length_seq|].
  split; [apply plaintext_is_bytes|].
  rewrite (encryptBytes_spec M M2) by (done || apply plaintext_is_bytes).
  rewrite length_fmap, length_seq, encrypted_plaintext. done.
Qed.

End inverse_roundtrip.

(** X1. On a built machine [decryptBytes] is also a right inverse: every
    sequence of bytes decrypts to a sequence of bytes of the same length
    whose encryption is the sequence itself. With the round trip this
    makes [encryptBytes] a bijection on the byte sequences of each
    length. *)
Theorem decrypt_then_encrypt (n : Z) (g : LogisticMoore.t) (C : list Z) :
  0 < n ≤ 2 ^ 31 → Forall is_byte C →
  ∃ M g', buildMealyMachine n 256 g = Ok (M, g') ∧
    ∀ M1 M2, reachable M M1 → reachable M M2 →
      ∃ pt tr M1' tr' M2',
        MealyMachine.decryptBytes C M1 = Ok (pt, tr, M1') ∧
        length pt = length C ∧ Forall is_byte pt ∧
        MealyMachine.encryptBytes pt M2 = Ok (C, tr', M2').
Proof.
  intros Hn HC. destruct (build_wf n g Hn) as (M & Hb & _ & Hwf).
  eexists M, _. split; [exact Hb|].
  intros M1 M2 H1%reachable_same_tables H2%reachable_same_tables.
  exact (inverse_roundtrip_wf M C Hwf HC M1 M2 H1 H2).
Qed.

(** The same for 1024 states, the generator of key ["test"] and the bytes
    [[0, 255, 7]]. *)
Lemma decrypt_then_encrypt_1024 :
  ∃ M g', buildMealyMachine 1024 256
            (LogisticMoore.new (code_units "test") 1000) = Ok (M, g') ∧
    ∀ M1 M2, reachable M M1 → reachable M M2 →
      ∃ pt tr M1' tr' M2',
        MealyMachine.decryptBytes [0; 255; 7] M1 = Ok (pt, tr, M1') ∧
        length pt = length [0; 255; 7] ∧ Forall is_byte pt ∧
        MealyMachine.encryptBytes pt M2 = Ok ([0; 255; 7], tr', M2').
Proof.
  apply (decrypt_then_encrypt 1024
           (LogisticMoore.new (code_units "test") 1000) [0; 255; 7]).
  - lia.
  - repeat constructor; unfold is_byte; lia.
Defined.

(** ** The two trajectories of a round trip *)

Lemma dec_entry_of_ciphertext M P t :
  wf M → Forall is_byte P → (t < length P)%nat →
  dec_entry M (enc_output M P <$> seq 0 (length P)) t = enc_entry M P t.
Proof.
  intros Hwf HP Ht. unfold dec_entry, enc_entry.
  rewrite !dec_state_of_ciphertext by (done || lia).
  rewrite dec_output_of_ciphertext, ciphertext_byte_at by done. done.
Qed.

(** X2. Decrypting a ciphertext retraces the encryption: on a built
    machine the trajectory that [decryptBytes] returns for the ciphertext
    of a sequence of bytes is, entry for entry, the trajectory that
    [encryptBytes] returned, and both calls leave the machine in the same
    state. *)
Theorem decrypt_retraces_encrypt (n : Z) (g : LogisticMoore.t) (P : list Z) :
  0 < n ≤ 2 ^ 31 → Forall is_byte P →
  ∃ M g', buildMealyMachine n 256 g = Ok (M, g') ∧
    ∀ M1 M2, reachable M M1 → reachable M M2 →
      ∃ ct tr M1' M2',
        MealyMachine.encryptBytes P M1 = Ok (ct, tr, M1') ∧
        MealyMachine.decryptBytes ct M2 = Ok (P, tr, M2') ∧
        MealyMachine.currentState M1' = MealyMachine.currentState M2'.
Proof.
  intros Hn HP. destruct (build_wf n g Hn) as (M & Hb & _ & Hwf).
  eexists M, _. split; [exact Hb|].
  intros M1 M2 H1%reachable_same_tables H2%reachable_same_tables.
  do 4 eexists. split; [by apply (encryptBytes_spec M)|].
  rewrite (decryptBytes_spec M M2)
    by (done || by apply ciphertext_is_bytes).
  rewrite !length_fmap, !length_seq, decrypted_ciphertext by done.
  rewrite dec_state_of_ciphertext by done.
  assert (dec_entry M (enc_output M P <$> seq 0 (length P)) <$>
            seq 0 (length P `min` 20)
          = enc_entry M P <$> seq 0 (length P `min` 20)) as ->.
  { apply list_fmap_ext. intros i t Ht. apply lookup_seq in Ht as [-> Ht].
    apply dec_entry_of_ciphertext; [done|done|lia]. }
  by split.
Qed.

(** The same for 1024 states, the generator of key ["test"] and the bytes
    of ["Hi"]. *)
Lemma decrypt_retraces_encrypt_Hi :
  ∃ M g', buildMealyMachine 1024 256
            (LogisticMoore.new (code_units "test") 1000) = Ok (M, g') ∧
    ∀ M1 M2, reachable M M1 → reachable M M2 →
      ∃ ct tr M1' M2',
        MealyMachine.encryptBytes [72; 105] M1 = Ok (ct, tr, M1') ∧
        MealyMachine.decryptBytes ct M2 = Ok ([72; 105], tr, M2') ∧
        MealyMachine.currentState M1' = MealyMachine.currentState M2'.
Proof.
  apply (decrypt_retraces_encrypt 1024
           (LogisticMoore.new (code_units "test") 1000) [72; 105]).
  - lia.
  - repeat constructor; unfold is_byte; lia.
Defined.


(** ** Each ciphertext byte depends on the bytes before it only *)

Lemma byte_at_take (P : list Z) k i :
  (i < k)%nat → byte_at (take k P) i = byte_at P i.
Proof. intros Hi. unfold byte_at. by rewrite lookup_take_lt. Qed.

Lemma enc_state_take M (P : list Z) k i :
  (i ≤ k)%nat → enc_state M (take k P) i = enc_state M P i.
Proof.
  induction i as [|i IH]; intros Hi; [done|].
  cbn [enc_state]. by rewrite IH, byte_at_take by lia.
Qed.

Lemma enc_output_take M (P : list Z) k i :
  (i < k)%nat → enc_output M (take k P) i = enc_output M P i.
Proof.
  intros Hi. unfold enc_output.
  by rewrite enc_state_take, byte_at_take by lia.
Qed.

Lemma enc_entry_take M (P : list Z) k t :
  (t < k)%nat → enc_entry M (take k P) t = enc_entry M P t.
Proof.
  intros Ht. unfold enc_entry.
  by rewrite !enc_state_take, enc_output_take, byte_at_take by lia.
Qed.

(** X3. Encryption works from left to right: on a built machine, the
    ciphertext of the first [k] bytes of a sequence is the first [k]
    bytes of the ciphertext of the sequence, and likewise for the
    trajectory. A ciphertext byte never depends on a later plaintext
    byte. *)
Theorem encrypt_prefix (n : Z) (g : LogisticMoore.t) (P : list Z) (k : nat) :
  0 < n ≤ 2 ^ 31 → Forall is_byte P →
  ∃ M g', buildMealyMachine n 256 g = Ok (M, g') ∧
    ∀ M1 M2, reachable M M1 → reachable M M2 →
      ∃ ct tr M1' M2',
        MealyMachine.encryptBytes P M1 = Ok (ct, tr, M1') ∧
        MealyMachine.encryptBytes (take k P) M2 =
          Ok (take k ct, take k tr, M2').
Proof.
  intros Hn HP. destruct (build_wf n g Hn) as (M & Hb & _ & Hwf).
  eexists M, _. split; [exact Hb|].
  intros M1 M2 H1%reachable_same_tables H2%reachable_same_tables.
  do 4 eexists. split; [by apply (encryptBytes_spec M)|].
  rewrite (encryptBytes_spec M M2) by (done || by apply Forall_take).
  rewrite <- !fmap_take, !take_seq, length_take.
  replace ((k `min` length P) `min` 20)%nat
    with (k `min` (length P `min` 20))%nat by lia.
  rewrite (list_fmap_ext (enc_output M (take k P)) (enc_output M P)); cycle 1.
  { intros i t Ht. apply lookup_seq in Ht as [-> Ht].
    apply enc_output_take. lia. }
  rewrite (list_fmap_ext (enc_entry M (take k P)) (enc_entry M P)); cycle 1.
  { intros i t Ht. apply lookup_seq in Ht as [-> Ht].
    apply enc_entry_take. lia. }
  reflexivity.
Qed.

(** The same for 1024 states, the generator of key ["test"] and the
    first byte of ["Hi"]. *)
Lemma encrypt_prefix_Hi :
  ∃ M g', buildMealyMachine 1024 256
            (LogisticMoore.new (code_units "test") 1000) = Ok (M, g') ∧
    ∀ M1 M2, reachable M M1 → reachable M M2 →
      ∃ ct tr M1' M2',
        MealyMachine.encryptBytes [72; 105] M1 = Ok (ct, tr, M1') ∧
        MealyMachine.encryptBytes (take 1 [72; 105]) M2 =
          Ok (take 1 ct, take 1 tr, M2').
Proof.
  apply (encrypt_prefix 1024
           (LogisticMoore.new (code_units "test") 1000) [72; 105] 1).
  - lia.
  - repeat constructor; unfold is_byte; lia.
Defined.

Lemma enc_state_common_prefix M (P P' : list Z) i :
  take i P = take i P' → enc_state M P i = enc_state M P' i.
Proof.
  intros Heq.
  rewrite <- (enc_state_take M P i i), <- (enc_state_take M P' i i) by done.
  by rewrite Heq.
Qed.

(** X4. The first byte in which two plaintexts differ shows in the
    ciphertext at the same position: on a built machine, two sequences of
    bytes that agree on their first [i] elements and differ in element
    [i] have ciphertexts that agree on their first [i] bytes and differ in
    byte [i]. *)
Theorem first_difference_shows (n : Z) (g : LogisticMoore.t)
    (P P' : list Z) (i : nat) (x x' : Z) :
  0 < n ≤ 2 ^ 31 → Forall is_byte P → Forall is_byte P' →
  take i P = take i P' → P !! i = Some x → P' !! i = Some x' → x ≠ x' →
  ∃ M g', buildMealyMachine n 256 g = Ok (M, g') ∧
    ∀ M1 M2, reachable M M1 → reachable M M2 →
      ∃ ct tr M1' ct' tr' M2',
        MealyMachine.encryptBytes P M1 = Ok (ct, tr, M1') ∧
        MealyMachine.encryptBytes P' M2 = Ok (ct', tr', M2') ∧
        take i ct = take i ct' ∧ ct !! i ≠ ct' !! i.
Proof.
  intros Hn HP HP' Hpre Hx Hx' Hne.
  destruct (build_wf n g Hn) as (M & Hb & _ & Hwf).
  eexists M, _. split; [exact Hb|].
  intros M1 M2 H1%reachable_same_tables H2%reachable_same_tables.
  do 6 eexists. split; [by apply (encryptBytes_spec M)|].
  split; [by apply (encryptBytes_spec M)|].
  pose proof (lookup_lt_Some _ _ _ Hx) as Hi.
  pose proof (lookup_lt_Some _ _ _ Hx') as Hi'.
  split.
  - rewrite <- !fmap_take, !take_seq.
    rewrite !Nat.min_l by lia. apply list_fmap_ext. intros j t Ht.
    apply lookup_seq in Ht as [-> Ht].
    rewrite <- (enc_output_take M P i), <- (enc_output_take M P' i) by lia.
    by rewrite Hpre.
  - rewrite !list_lookup_fmap, !lookup_seq_lt by done. cbn.
    unfold enc_output, byte_at. rewrite Hx, Hx'. cbn.
    rewrite (enc_state_common_prefix M P P' i Hpre).
    intros [= Heq]. apply Hne.
    pose proof (enc_state_range M Hwf P' i) as Hs.
    assert (is_byte x) as Hbx by (by eapply (Forall_lookup_1 _ _ _ _ HP)).
    assert (is_byte x') as Hbx' by (by eapply (Forall_lookup_1 _ _ _ _ HP')).
    destruct (lambda_range M Hwf _ _ Hs Hbx) as (_ & _ & <-).
    destruct (lambda_range M Hwf _ _ Hs Hbx') as (_ & _ & <-).
    by rewrite Heq.
Qed.

(** The same for 1024 states, the generator of key ["test"] and the
    plaintexts ["Hi"] and ["Ho"]. *)
Lemma first_difference_shows_Hi_Ho :
  ∃ M g', buildMealyMachine 1024 256
            (LogisticMoore.new (code_units "test") 1000) = Ok (M, g') ∧
    ∀ M1 M2, reachable M M1 → reachable M M2 →
      ∃ ct tr M1' ct' tr' M2',
        MealyMachine.encryptBytes [72; 105] M1 = Ok (ct, tr, M1') ∧
        MealyMachine.encryptBytes [72; 111] M2 = Ok (ct', tr', M2') ∧
        take 1 ct = take 1 ct' ∧ ct !! 1%nat ≠ ct' !! 1%nat.
Proof.
  apply (first_difference_shows 1024
           (LogisticMoore.new (code_units "test") 1000)
           [72; 105] [72; 111] 1 105 111).
  - lia.
  - repeat constructor; unfold is_byte; lia.
  - repeat constructor; unfold is_byte; lia.
  - reflexivity.
  - reflexivity.
  - reflexivity.
  - lia.
Defined.


(** ** Alphabets below 256 symbols *)

Lemma for_up_add {St} (body : Z → St → result St) lo k1 k2 st :
  for_up lo (k1 + k2) body st =
  (for_up lo k1 body st ≫= for_up (lo + Z.of_nat k1) k2 body).
Proof.
  revert lo st. induction k1 as [|k1 IH]; intros lo st.
  - cbn. by replace (lo + Z.of_nat 0) with lo by lia.
  - cbn [Nat.add for_up]. destruct (body lo st) as [st1|e]; [|done].
    rewrite !bind_Ok, IH.
    by replace (lo + 1 + Z.of_nat k1) with (lo + Z.of_nat (S k1)) by lia.
Qed.

Lemma for_up_S_Err {St} (body : Z → St → result St) lo k st e :
  body lo st = Err e → for_up lo (S k) body st = Err e.
Proof. intros H. cbn [for_up]. by rewrite H. Qed.

Lemma aget_out_of_range {A} (a : list A) (i : Z) :
  Z.of_nat (length a) ≤ i → aget a i = Err Undefined.
Proof.
  intros Hi. unfold aget. destruct (Z.ltb_spec i 0); [done|].
  by rewrite lookup_ge_None_2 by lia.
Qed.

Lemma warm_up_small_alphabet entropy n m M M' :
  0 < n → 1 ≤ m < 256 → built_from entropy n m M → same_tables M M' →
  MealyMachine.warm_up 500 (MealyMachine.reset M') = Err Undefined.
Proof.
  intros Hn Hm (HMn & HMm & _ & HD & _ & _ & Hdelta & _) Hsame.
  unfold MealyMachine.warm_up.
  replace 500%nat with (Z.to_nat m + S (499 - Z.to_nat m))%nat by lia.
  rewrite for_up_add.
  destruct (for_up_inv
    (λ (j : Z) M'', same_tables M M'' ∧ 0 ≤ MealyMachine.currentState M'' < n)
    MealyMachine.warm_step 0 (Z.to_nat m) (MealyMachine.reset M'))
    as (Mm & -> & (_ & _ & Hd & _) & Hst).
  - split; [|cbn; lia].
    eapply same_tables_trans; [done|]. apply same_tables_set_currentState.
  - intros j M'' Hj [Hs Hst]. pose proof Hs as (_ & _ & Hd & _).
    destruct (Hdelta (MealyMachine.currentState M'') j) as (e & _ & He);
      [done|lia|].
    apply entry_aget in He as (row & Hrow & Hv); [|lia..].
    unfold MealyMachine.warm_step.
    rewrite Hd, Hrow, bind_Ok, js_rem_mod, Z.mod_small, Hv, bind_Ok by lia.
    eexists. split; [done|]. split.
    + eapply same_tables_trans; [done|]. apply same_tables_set_currentState.
    + cbn. apply Z.mod_pos_bound. lia.
  - rewrite bind_Ok. apply for_up_S_Err.
    destruct (table_shape_row _ _ _ _ HD Hst) as (row & Hrow & Hlen).
    unfold MealyMachine.warm_step.
    assert (aget (MealyMachine.delta Mm) (MealyMachine.currentState Mm)
            = Ok row) as ->.
    { rewrite Hd. apply aget_Ok. split; [lia|done]. }
    rewrite bind_Ok, js_rem_mod, Z.mod_small by lia.
    by rewrite aget_out_of_range by lia.
Qed.

(** X5. The warm-up indexes [delta] with [j % 256] whatever the
    alphabet: on a machine built for fewer than 256 symbols every call of
    [encryptBytes] and of [decryptBytes], on any input, reads past the end
    of a row of [delta] during the warm-up; no call stays inside the
    tables. *)
Theorem small_alphabet_cannot_run (n m : Z) (g : LogisticMoore.t)
    (bytes : list Z) :
  0 < n ≤ 2 ^ 31 → 1 ≤ m < 256 →
  ∃ M g', buildMealyMachine n m g = Ok (M, g') ∧
    ∀ M', reachable M M' →
      MealyMachine.encryptBytes bytes M' = Err Undefined ∧
      MealyMachine.decryptBytes bytes M' = Err Undefined.
Proof.
  intros Hn Hm.
  destruct (buildMealyMachine_spec n m g Hn ltac:(lia)) as (M & Hb & HM).
  eexists M, _. split; [exact Hb|].
  intros M' Hsame%reachable_same_tables.
  unfold MealyMachine.encryptBytes, MealyMachine.decryptBytes.
  by rewrite (warm_up_small_alphabet _ n m M M') by (done || lia).
Qed.

(** The same for two states over four symbols and the generator of key
    ["test"]. *)
Lemma small_alphabet_cannot_run_2_4 :
  ∃ M g', buildMealyMachine 2 4
            (LogisticMoore.new (code_units "test") 1000) = Ok (M, g') ∧
    ∀ M', reachable M M' →
      MealyMachine.encryptBytes [1; 2] M' = Err Undefined ∧
      MealyMachine.decryptBytes [1; 2] M' = Err Undefined.
Proof.
  apply (small_alphabet_cannot_run 2 4
           (LogisticMoore.new (code_units "test") 1000) [1; 2]); lia.
Defined.


(** ** Streams continue one another *)

Lemma outputs_app a b g :
  outputs (a + b) g =
  outputs a g ++ outputs b (Nat.iter a LogisticMoore._transition g).
Proof.
  revert g. induction a as [|a IH]; intros g; [done|].
  cbn [Nat.add]. rewrite !outputs_S, IH. cbn [app]. do 2 f_equal.
  by rewrite Nat.iter_succ_r.
Qed.

(** X6. A generator carries its state from one call of [generateStream]
    to the next: a call for [a + b] values returns the values of a call
    for [a] followed by those of a call for [b] on the generator the first
    call leaves, and leaves the same generator. A call for [a] values
    makes [a] transitions, one for each value, and every value is a 32-bit
    unsigned integer. *)
Theorem generateStream_continues (a b : Z) (g : LogisticMoore.t) :
  0 ≤ a → 0 ≤ b →
  ∃ s1 g1 s2 g2,
    LogisticMoore.generateStream a g = Ok (s1, g1) ∧
    LogisticMoore.generateStream b g1 = Ok (s2, g2) ∧
    LogisticMoore.generateStream (a + b) g = Ok (s1 ++ s2, g2) ∧
    g1 = Nat.iter (Z.to_nat a) LogisticMoore._transition g ∧
    Z.of_nat (length s1) = a ∧ Z.of_nat (length s2) = b ∧
    Forall (λ v, 0 ≤ v < 2 ^ 32) (s1 ++ s2).
Proof.
  intros Ha Hb. do 4 eexists.
  rewrite !generateStream_spec by lia.
  split; [done|]. split; [done|]. split; [|split; [done|split; [|split]]].
  - rewrite Z2Nat.inj_add, outputs_app by lia. do 2 f_equal.
    by rewrite <- Nat.iter_add, Nat.add_comm.
  - rewrite length_outputs. lia.
  - rewrite length_outputs. lia.
  - apply Forall_app. split; apply outputs_range.
Qed.

(** The same for two values and then three from the generator of key
    ["test"]. *)
Lemma generateStream_continues_2_3 :
  ∃ s1 g1 s2 g2,
    LogisticMoore.generateStream 2
      (LogisticMoore.new (code_units "test") 1000) = Ok (s1, g1) ∧
    LogisticMoore.generateStream 3 g1 = Ok (s2, g2) ∧
    LogisticMoore.generateStream (2 + 3)
      (LogisticMoore.new (code_units "test") 1000) = Ok (s1 ++ s2, g2) ∧
    g1 = Nat.iter (Z.to_nat 2) LogisticMoore._transition
           (LogisticMoore.new (code_units "test") 1000) ∧
    Z.of_nat (length s1) = 2 ∧ Z.of_nat (length s2) = 3 ∧
    Forall (λ v, 0 ≤ v < 2 ^ 32) (s1 ++ s2).
Proof.
  apply (generateStream_continues 2 3
           (LogisticMoore.new (code_units "test") 1000)); lia.
Defined.

(** ** Keys that construct one generator *)

(** X7. The constructor uses the key through the residue of [|hash|]
    modulo 800000 only: two keys with one residue construct the same
    generator, and with it the same tables and the same ciphertexts. The
    keys ["Aa"] and ["BB"] are such a pair. *)
Theorem keys_of_one_residue (key1 key2 : list Z) (steps : Z) :
  Z.abs (LogisticMoore.key_hash key1) mod 800000 =
  Z.abs (LogisticMoore.key_hash key2) mod 800000 →
  LogisticMoore.new key1 steps = LogisticMoore.new key2 steps ∧
  ∀ n m, buildMealyMachine n m (LogisticMoore.new key1 steps) =
         buildMealyMachine n m (LogisticMoore.new key2 steps).
Proof.
  intros Hres.
  assert (LogisticMoore.new key1 steps = LogisticMoore.new key2 steps) as Heq.
  { unfold LogisticMoore.new, LogisticMoore._initializeSeed.
    by rewrite !js_rem_mod, Hres by lia. }
  split; [done|]. intros n m. by rewrite Heq.
Qed.

(** The same for the distinct keys ["Aa"] and ["BB"]. *)
Lemma keys_of_one_residue_Aa_BB :
  code_units "Aa" ≠ code_units "BB" ∧
  LogisticMoore.new (code_units "Aa") 1000 =
    LogisticMoore.new (code_units "BB") 1000 ∧
  ∀ n m, buildMealyMachine n m (LogisticMoore.new (code_units "Aa") 1000) =
         buildMealyMachine n m (LogisticMoore.new (code_units "BB") 1000).
Proof.
  split; [by vm_compute|].
  apply (keys_of_one_residue (code_units "Aa") (code_units "BB") 1000).
  vm_compute. reflexivity.
Defined.

(** ** Symmetries of the metrics *)

Lemma count_diff_comm a b : count_diff a b = count_diff b a.
Proof.
  revert b. induction a as [|x a IH]; intros [|y b]; [done..|].
  cbn [count_diff]. rewrite IH. by repeat case_bool_decide; subst.
Qed.

(** X8. [calculateNPCR] does not tell its arguments apart: exchanging
    the two sequences gives the same string. *)
Theorem npcr_symmetric (Number_toString : float → string) (a b : list Z) :
  calculateNPCR Number_toString (Some a) (Some b) =
  calculateNPCR Number_toString (Some b) (Some a).
Proof.
  unfold calculateNPCR.
  destruct (decide (length a = length b)) as [Hlen|Hlen].
  - rewrite !bool_decide_eq_false_2 by (intros ?; congruence).
    pose proof (npcr_loop [] [] a b 0 eq_refl Hlen) as Hab.
    pose proof (npcr_loop [] [] b a 0 eq_refl (eq_sym Hlen)) as Hba.
    cbn [length app] in Hab, Hba. change (Z.of_nat 0) with 0 in Hab, Hba.
    by rewrite Hab, Hba, !bind_Ok, count_diff_comm, Hlen.
  - by rewrite !bool_decide_eq_true_2 by congruence.
Qed.

Lemma occurrences_Permutation d d' v :
  d ≡ₚ d' → occurrences d v = occurrences d' v.
Proof. intros Hp. unfold occurrences. by rewrite Hp. Qed.

(** X9. [calculateEntropy] depends on how often each byte occurs, not on
    where: two byte sequences that are rearrangements of one another get
    the same string. *)
Theorem entropy_of_rearrangement (Math_log2 : float → float)
    (Number_toString : float → string) (data data' : list Z) :
  Forall is_byte data → data ≡ₚ data' →
  calculateEntropy Math_log2 Number_toString (Some data) =
  calculateEntropy Math_log2 Number_toString (Some data').
Proof.
  intros Hd Hp. assert (Forall is_byte data') as Hd' by by rewrite <- Hp.
  unfold calculateEntropy. rewrite <- (Permutation_length Hp).
  case_bool_decide; [done|].
  rewrite <- (bins_zero 0 256 (occurrences [])) by done.
  rewrite !count_loop by done. cbn [app].
  by rewrite (bins_ext _ _ _ (occurrences data'))
    by (intros x _; by apply occurrences_Permutation).
Qed.

(** The same for [[1, 2, 2]] and [[2, 1, 2]]. *)
Lemma entropy_of_rearrangement_122 :
  calculateEntropy log2_pow2 no_toString (Some [1; 2; 2]) =
  calculateEntropy log2_pow2 no_toString (Some [2; 1; 2]).
Proof.
  apply (entropy_of_rearrangement log2_pow2 no_toString [1; 2; 2] [2; 1; 2]).
  - repeat constructor; unfold is_byte; lia.
  - apply Permutation_swap.
Defined.


(** ** The hexadecimal dump *)

Example uint8ToHex_bytes : uint8ToHex [0; 255; 16; 9; 171] = "00 ff 10 09 ab".
Proof. vm_compute. reflexivity. Qed.

Lemma length_append (s1 s2 : string) :
  String.length (s1 +:+ s2) = (String.length s1 + String.length s2)%nat.
Proof.
  induction s1 as [|c s1 IH]; [done|].
  unfold String.append; fold String.append. cbn. by f_equal.
Qed.

Lemma append_empty (s : string) : s +:+ EmptyString = s.
Proof.
  induction s as [|c s IH]; [done|].
  unfold String.append; fold String.append. by f_equal.
Qed.

Lemma substring_all (s : string) (m : nat) :
  (String.length s ≤ m)%nat → String.substring 0 m s = s.
Proof.
  revert m. induction s as [|c s IH]; intros m Hm; [by destruct m|].
  destruct m as [|m]; cbn in *; [lia|]. rewrite IH; [done|lia].
Qed.

Lemma length_substring (s : string) (m : nat) :
  (m ≤ String.length s)%nat → String.length (String.substring 0 m s) = m.
Proof.
  revert m. induction s as [|c s IH]; intros m Hm.
  - destruct m; cbn in *; [done|lia].
  - destruct m as [|m]; [done|]. cbn in *. rewrite IH; [done|lia].
Qed.

Lemma hex_pair_table :
  all_from 0 256
    (λ b, (String.length (padStart0 (toString16 b) 2) =? 2)%nat) = true.
Proof. vm_compute. reflexivity. Qed.

Lemma length_uint8ToHex (arr : list Z) :
  Forall is_byte arr →
  String.length (uint8ToHex arr) = (3 * length arr - 1)%nat.
Proof.
  unfold uint8ToHex. induction 1 as [|b arr Hb Harr IH]; [done|].
  assert (String.length (padStart0 (toString16 b) 2) = 2%nat) as Hpair.
  { apply Nat.eqb_eq.
    apply (all_from_spec _ _ _ b hex_pair_table). destruct Hb. lia. }
  destruct arr as [|b' arr]; [by cbn|].
  rewrite !fmap_cons in *. cbn [String.concat] in *.
  rewrite !length_append, Hpair, IH. cbn [length String.length]. lia.
Qed.

(** X10. [uint8ToHex] prints two digits for each byte and a space
    between two of them, [3 * length - 1] characters in all. The dump
    that [sendMessage] keeps of an image is the whole of it up to 1000
    bytes; beyond, it is the first 3000 characters and an ellipsis: the
    ellipsis is there exactly when characters were cut. *)
Theorem lastHex_ellipsis (ciphertext : list Z) :
  Forall is_byte ciphertext →
  String.length (uint8ToHex ciphertext) = (3 * length ciphertext - 1)%nat ∧
  if decide (length ciphertext ≤ 1000)%nat
  then lastHex_of_image ciphertext = uint8ToHex ciphertext
  else lastHex_of_image ciphertext =
         String.substring 0 3000 (uint8ToHex ciphertext) +:+ "..." ∧
       (3000 < String.length (uint8ToHex ciphertext))%nat ∧
       String.length (lastHex_of_image ciphertext) = 3003%nat.
Proof.
  intros Hb. pose proof (length_uint8ToHex _ Hb) as Hlen.
  split; [done|]. unfold lastHex_of_image. case_decide as Hn.
  - destruct (Z.ltb_spec 3000 (Z.of_nat (length ciphertext) * 3)); [lia|].
    rewrite substring_all by lia. apply append_empty.
  - destruct (Z.ltb_spec 3000 (Z.of_nat (length ciphertext) * 3)); [|lia].
    split; [done|]. split; [lia|].
    rewrite length_append, length_substring by lia. done.
Qed.

(** The same for the bytes [[0, 255, 16]]. *)
Lemma lastHex_ellipsis_3 :
  String.length (uint8ToHex [0; 255; 16]) =
    Nat.sub (Nat.mul 3 (length [0; 255; 16])) 1 ∧
  if decide (le (length [0; 255; 16]) 1000)
  then lastHex_of_image [0; 255; 16] = uint8ToHex [0; 255; 16]
  else lastHex_of_image [0; 255; 16] =
         String.substring 0 3000 (uint8ToHex [0; 255; 16]) +:+ "..." ∧
       lt 3000 (String.length (uint8ToHex [0; 255; 16])) ∧
       String.length (lastHex_of_image [0; 255; 16]) = 3003%nat.
Proof.
  apply (lastHex_ellipsis [0; 255; 16]).
  repeat constructor; unfold is_byte; lia.
Defined.


(** ** Text messages: from [sendMessage] to [handleDecrypt] *)

Lemma retrace_wf M P M1 M2 :
  wf M → Forall is_byte P → same_tables M M1 → same_tables M M2 →
  ∃ ct tr M1' M2',
    MealyMachine.encryptBytes P M1 = Ok (ct, tr, M1') ∧
    Forall is_byte ct ∧ length ct = length P ∧
    MealyMachine.decryptBytes ct M2 = Ok (P, tr, M2').
Proof.
  intros Hwf HP H1 H2.
  do 4 eexists. split; [by apply (encryptBytes_spec M)|].
  split; [by apply ciphertext_is_bytes|].
  split; [by rewrite length_fmap, length_seq|].
  rewrite (decryptBytes_spec M M2)
    by (done || by apply ciphertext_is_bytes).
  rewrite !length_fmap, !length_seq, decrypted_ciphertext by done.
  assert (dec_entry M (enc_output M P <$> seq 0 (length P)) <$>
            seq 0 (length P `min` 20)
          = enc_entry M P <$> seq 0 (length P `min` 20)) as ->; [|done].
  apply list_fmap_ext. intros i t Ht. apply lookup_seq in Ht as [-> Ht].
  apply dec_entry_of_ciphertext; [done|done|lia].
Qed.


Lemma charCodes_loop (binary : list Z) (k : nat) :
  (k ≤ length binary)%nat →
  fold_left
    (λ bytes i, aset ToUint8 bytes i (default 0 (binary !! Z.to_nat i)))
    (seqZ 0 (Z.of_nat k)) (replicate (length binary) 0)
  = (ToUint8 <$> take k binary) ++ replicate (length binary - k) 0.
Proof.
  induction k as [|k IH]; intros Hk.
  - by rewrite Nat.sub_0_r.
  - replace (Z.of_nat (S k)) with (Z.of_nat k + 1) by lia.
    rewrite seqZ_snoc, fold_left_app, IH by lia. cbn [fold_left].
    destruct (lookup_lt_is_Some_2 binary k) as [c Hc]; [lia|].
    rewrite Nat2Z.id, Hc. cbn [default]. unfold aset.
    destruct (Z.ltb_spec (Z.of_nat k) 0); [lia|]. rewrite Nat2Z.id.
    rewrite (take_S_r _ _ c), fmap_app by done. cbn [fmap list_fmap].
    replace (length binary - k)%nat with (S (length binary - S k)) by lia.
    cbn [replicate]. rewrite <- app_assoc. cbn [app].
    rewrite insert_app_r_alt by (rewrite length_fmap, length_take; lia).
    rewrite length_fmap, length_take.
    by replace (k - k `min` length binary)%nat with 0%nat by lia.
Qed.

Lemma b64ToUint8_Some atob b64 binary :
  atob b64 = Some binary → b64ToUint8 atob b64 = Some (ToUint8 <$> binary).
Proof.
  intros Hb. unfold b64ToUint8. rewrite Hb. cbn. f_equal.
  rewrite charCodes_loop by done.
  by rewrite firstn_all, Nat.sub_diag, app_nil_r.
Qed.


Lemma ToUint8_is_byte (l : list Z) : Forall is_byte (ToUint8 <$> l).
Proof.
  apply Forall_fmap, Forall_forall. intros x _. unfold is_byte, ToUint8.
  cbn. apply Z.mod_pos_bound. lia.
Qed.

(* The two-state machine of [small_machine_calls] sends ["Hi"]: the
   ciphertext [[147, 200]] travels as ["k8g="]. *)
Example text_message_Hi :
  b64_encode [147; 200] = code_units "k8g=" ∧
  atob_base64 (code_units "k8g=") = Some [147; 200] ∧
  (small_machine ≫= λ M,
     '(ct, _, M) ← MealyMachine.encryptBytes (code_units "Hi") M;
     match uint8ToB64 btoa_base64 ct with
     | Some b64 =>
         fst <$> handleDecrypt atob_base64 decode_ascii b64 M
     | None => Err Undefined
     end)
  = (small_machine ≫= λ M,
       Ok (code_units "Hi",
           [Trajectory.mk 0 0 72 1 147; Trajectory.mk 1 1 105 1 200])).
Proof. vm_compute. done. Qed.



(** X12. [handleDecrypt] answers every string. On a built machine, in
    whatever state earlier calls left it, it returns the empty text for
    the empty string, the text [[DECRYPTION ERROR]] for a string that
    [atob] rejects, and for any other string the decoding of as many bytes
    as [atob] returned characters; it reads no table outside its bounds. *)
Theorem handleDecrypt_answers (atob : list Z → option (list Z))
    (decode : list Z → list Z) (n : Z) (g : LogisticMoore.t)
    (b64 : list Z) :
  0 < n ≤ 2 ^ 31 →
  ∃ M g', buildMealyMachine n 256 g = Ok (M, g') ∧
    ∀ M2, reachable M M2 →
      ∃ text tr M2',
        handleDecrypt atob decode b64 M2 = Ok (text, tr, M2') ∧
        reachable M M2' ∧
        if bool_decide (b64 = []) then text = [] ∧ tr = []
        else match atob b64 with
             | None => text = DECRYPTION_ERROR ∧ tr = []
             | Some binary =>
                 ∃ pt, text = decode pt ∧ length pt = length binary ∧
                       Forall is_byte pt
             end.
Proof.
  intros Hn. destruct (build_wf n g Hn) as (M & Hb & _ & Hwf).
  eexists M, _. split; [exact Hb|]. intros M2 HM2.
  unfold handleDecrypt. case_bool_decide as Hempty.
  { eexists _, _, _. split; [done|]. by split. }
  destruct (atob b64) as [binary|] eqn:Hatob.
  - rewrite (b64ToUint8_Some _ _ _ Hatob).
    destruct (inverse_roundtrip_wf M (ToUint8 <$> binary) Hwf
                (ToUint8_is_byte binary) M2 M2)
      as (pt & tr & M2' & _ & _ & Hdec & Hlen & Hpt & _);
      [by apply reachable_same_tables..|].
    rewrite Hdec, bind_Ok. eexists _, _, _. split; [done|]. split.
    + by eapply reach_decrypt.
    + exists pt. by rewrite Hlen, length_fmap.
  - unfold b64ToUint8. rewrite Hatob. cbn. by eexists _, _, _.
Qed.

(** The same for 1024 states, the generator of key ["test"], an [atob]
    that rejects every string and the string ["?"]. *)
Lemma handleDecrypt_answers_rejected :
  ∃ M g', buildMealyMachine 1024 256
            (LogisticMoore.new (code_units "test") 1000) = Ok (M, g') ∧
    ∀ M2, reachable M M2 →
      ∃ text tr M2',
        handleDecrypt (λ _, None) id [63] M2 = Ok (text, tr, M2') ∧
        reachable M M2' ∧
        text = DECRYPTION_ERROR ∧ tr = [].
Proof.
  apply (handleDecrypt_answers (λ _, None) id 1024
           (LogisticMoore.new (code_units "test") 1000) [63]).
  lia.
Defined.


(** ** Images in the vault *)

Example rgb_stream_2_pixels :
  rgb_stream [1; 2; 3; 255; 4; 5; 6; 7] 2 1 = Ok [1; 2; 3; 4; 5; 6] ∧
  render [1; 2; 3; 4; 5; 6] 2 1 (replicate 8 0)
    = Ok [1; 2; 3; 255; 4; 5; 6; 255] ∧
  opaque [1; 2; 3; 255; 4; 5; 6; 7] = [1; 2; 3; 255; 4; 5; 6; 255].
Proof. vm_compute. done. Qed.

Lemma list_eq_Z (l1 l2 : list Z) :
  length l1 = length l2 →
  (∀ j, 0 ≤ j < Z.of_nat (length l1) →
        l1 !! Z.to_nat j = l2 !! Z.to_nat j) →
  l1 = l2.
Proof.
  intros Hlen Hj. apply list_eq. intros i.
  destruct (decide (i < length l1)%nat) as [Hi|Hi].
  - specialize (Hj (Z.of_nat i)). rewrite Nat2Z.id in Hj. apply Hj. lia.
  - by rewrite !lookup_ge_None_2 by lia.
Qed.

Lemma rgb_stream_spec (data : list Z) (w h : Z) :
  0 ≤ w * h → Z.of_nat (length data) = w * h * 4 →
  ∃ pixels, rgb_stream data w h = Ok pixels ∧
    Z.of_nat (length pixels) = w * h * 3 ∧
    ∀ j, 0 ≤ j < w * h * 3 →
      pixels !! Z.to_nat j =
      ToUint8 <$> data !! Z.to_nat (4 * (j / 3) + j mod 3).
Proof.
  intros HN Hdata. unfold rgb_stream. rewrite alloc_Ok, bind_Ok by lia.
  replace ((Z.of_nat (length data) + 3) / 4) with (w * h)
    by (rewrite Hdata; Z.div_mod_to_equations; lia).
  destruct (for_up_inv
    (λ k pixels, Z.of_nat (length pixels) = w * h * 3 ∧
       ∀ j, 0 ≤ j < k * 3 →
         pixels !! Z.to_nat j =
         ToUint8 <$> data !! Z.to_nat (4 * (j / 3) + j mod 3))
    (rgb_step data) 0 (Z.to_nat (w * h))
    (replicate (Z.to_nat (w * h * 3)) 0)) as (pixels & Hrun & Hlen & Hpix).
  - split; [rewrite length_replicate; lia|]. intros j Hj. lia.
  - intros k pixels Hk [Hlen Hpix]. unfold rgb_step.
    destruct (aget_in_range data (4 * k)) as (r & -> & Hr); [lia|].
    destruct (aget_in_range data (4 * k + 1)) as (gr & -> & Hg); [lia|].
    destruct (aget_in_range data (4 * k + 2)) as (b & -> & Hb); [lia|].
    rewrite !bind_Ok. replace (4 * k / 4 * 3) with (k * 3)
      by (Z.div_mod_to_equations; lia).
    eexists. split; [done|]. split; [by rewrite !length_aset|].
    intros j Hj.
    rewrite !lookup_aset by (rewrite ?length_aset; lia).
    repeat case_decide; subst.
    + replace (4 * ((k * 3 + 2) / 3) + (k * 3 + 2) mod 3) with (4 * k + 2)
        by (Z.div_mod_to_equations; lia).
      by rewrite Hb.
    + replace (4 * ((k * 3 + 1) / 3) + (k * 3 + 1) mod 3) with (4 * k + 1)
        by (Z.div_mod_to_equations; lia).
      by rewrite Hg.
    + replace (4 * (k * 3 / 3) + (k * 3) mod 3) with (4 * k)
        by (Z.div_mod_to_equations; lia).
      by rewrite Hr.
    + apply Hpix. lia.
  - exists pixels. split; [done|]. split; [done|].
    intros j Hj. apply Hpix. lia.
Qed.

Lemma render_spec (stream blank : list Z) (w h : Z) :
  0 ≤ w * h → Z.of_nat (length stream) = w * h * 3 →
  Z.of_nat (length blank) = w * h * 4 →
  ∃ data, render stream w h blank = Ok data ∧
    Z.of_nat (length data) = w * h * 4 ∧
    ∀ x, 0 ≤ x < w * h * 4 →
      data !! Z.to_nat x =
      if decide (x mod 4 = 3) then Some 255
      else ToUint8Clamp <$> stream !! Z.to_nat (3 * (x / 4) + x mod 4).
Proof.
  intros HN Hstream Hblank. unfold render.
  destruct (for_up_inv
    (λ i data, Z.of_nat (length data) = w * h * 4 ∧
       ∀ x, 0 ≤ x < i * 4 →
         data !! Z.to_nat x =
         if decide (x mod 4 = 3) then Some 255
         else ToUint8Clamp <$> stream !! Z.to_nat (3 * (x / 4) + x mod 4))
    (render_step stream) 0 (Z.to_nat (w * h)) blank)
    as (data & Hrun & Hlen & Hdata).
  - split; [done|]. intros x Hx. lia.
  - intros i data Hi [Hlen Hdata]. unfold render_step.
    destruct (aget_in_range stream (i * 3)) as (r & -> & Hr); [lia|].
    destruct (aget_in_range stream (i * 3 + 1)) as (gr & -> & Hg); [lia|].
    destruct (aget_in_range stream (i * 3 + 2)) as (b & -> & Hb); [lia|].
    rewrite !bind_Ok. eexists. split; [done|].
    split; [by rewrite !length_aset|]. intros x Hx.
    rewrite !lookup_aset by (rewrite ?length_aset; lia).
    repeat case_decide; subst; try (exfalso; Z.div_mod_to_equations; lia).
    + done.
    + replace (3 * ((i * 4 + 2) / 4) + (i * 4 + 2) mod 4) with (i * 3 + 2)
        by (Z.div_mod_to_equations; lia).
      by rewrite Hb.
    + replace (3 * ((i * 4 + 1) / 4) + (i * 4 + 1) mod 4) with (i * 3 + 1)
        by (Z.div_mod_to_equations; lia).
      by rewrite Hg.
    + replace (3 * (i * 4 / 4) + (i * 4) mod 4) with (i * 3)
        by (Z.div_mod_to_equations; lia).
      by rewrite Hr.
    + rewrite Hdata by lia. by rewrite decide_True by done.
    + rewrite Hdata by lia. by rewrite decide_False by done.
  - exists data. split; [done|]. split; [done|].
    intros x Hx. apply Hdata. lia.
Qed.

Lemma rgb_stream_bytes (data pixels : list Z) (w h : Z) :
  0 ≤ w * h → Z.of_nat (length data) = w * h * 4 →
  rgb_stream data w h = Ok pixels → Forall is_byte pixels.
Proof.
  intros HN Hdata Hrun.
  destruct (rgb_stream_spec data w h HN Hdata) as (px & Hpx & Hlen & Hj).
  rewrite Hrun in Hpx. injection Hpx as <-.
  apply Forall_lookup. intros i v Hv.
  pose proof (lookup_lt_Some _ _ _ Hv) as Hi.
  specialize (Hj (Z.of_nat i) ltac:(lia)). rewrite Nat2Z.id, Hv in Hj.
  destruct (data !! _) as [d|]; [|done]. injection Hj as ->.
  unfold is_byte, ToUint8. apply Z.mod_pos_bound. lia.
Qed.

Lemma ToUint8Clamp_small z : is_byte z → ToUint8Clamp z = z.
Proof. unfold is_byte, ToUint8Clamp. lia. Qed.

(* The stream of a rendered stream is the stream. *)
Lemma rgb_stream_render (stream blank : list Z) (w h : Z) :
  0 ≤ w * h → Z.of_nat (length stream) = w * h * 3 →
  Forall is_byte stream → Z.of_nat (length blank) = w * h * 4 →
  ∃ data, render stream w h blank = Ok data ∧
          rgb_stream data w h = Ok stream.
Proof.
  intros HN Hstream Hbytes Hblank.
  destruct (render_spec stream blank w h HN Hstream Hblank)
    as (data & Hrun & Hdata & Hx).
  exists data. split; [done|].
  destruct (rgb_stream_spec data w h HN Hdata) as (px & -> & Hlen & Hpx).
  f_equal. apply list_eq_Z; [lia|]. intros j Hj. rewrite Hpx by lia.
  rewrite Hx by (Z.div_mod_to_equations; lia).
  rewrite decide_False by (Z.div_mod_to_equations; lia).
  replace (3 * ((4 * (j / 3) + j mod 3) / 4) + (4 * (j / 3) + j mod 3) mod 4)
    with j by (Z.div_mod_to_equations; lia).
  destruct (stream !! Z.to_nat j) as [v|] eqn:Hv; [|done]. cbn.
  apply (Forall_lookup_1 _ _ _ _ Hbytes) in Hv.
  by rewrite ToUint8Clamp_small, ToUint8_small.
Qed.

(* Rendering the stream of an image gives the image, made opaque. *)
Lemma render_rgb_stream (data blank pixels : list Z) (w h : Z) :
  0 ≤ w * h → Z.of_nat (length data) = w * h * 4 →
  Forall is_byte data → Z.of_nat (length blank) = w * h * 4 →
  rgb_stream data w h = Ok pixels →
  render pixels w h blank = Ok (opaque data).
Proof.
  intros HN Hdata Hbytes Hblank Hrun.
  destruct (rgb_stream_spec data w h HN Hdata) as (px & Hpx & Hlen & Hj).
  rewrite Hrun in Hpx. injection Hpx as <-.
  destruct (render_spec pixels blank w h HN Hlen Hblank)
    as (rec & -> & Hrec & Hx).
  f_equal. unfold opaque.
  apply list_eq_Z; [rewrite length_imap; lia|]. intros x Hxr.
  rewrite Hx, list_lookup_imap by lia. rewrite Z2Nat.id by lia.
  destruct (lookup_lt_is_Some_2 data (Z.to_nat x)) as [v Hv]; [lia|].
  rewrite Hv. cbn. case_decide as Hmod.
  - by rewrite Hmod.
  - destruct (Z.eqb_spec (x mod 4) 3); [done|].
    rewrite Hj by (Z.div_mod_to_equations; lia).
    replace (4 * ((3 * (x / 4) + x mod 4) / 3) + (3 * (x / 4) + x mod 4) mod 3)
      with x by (Z.div_mod_to_equations; lia).
    rewrite Hv. cbn. apply (Forall_lookup_1 _ _ _ _ Hbytes) in Hv.
    by rewrite ToUint8_small, ToUint8Clamp_small.
Qed.

(** X13. An image comes back from the vault. The RGB stream of an
    image is encrypted and the ciphertext rendered as an opaque image;
    the RGB stream of that image is the ciphertext again, decrypting it
    gives the stream of the original, and rendering that gives the
    original image with every alpha value at 255. *)
Theorem vault_image_roundtrip (n w h : Z) (g : LogisticMoore.t)
    (data blank : list Z) :
  0 < n ≤ 2 ^ 31 → 0 < w → 0 < h →
  Z.of_nat (length data) = w * h * 4 → Forall is_byte data →
  Z.of_nat (length blank) = w * h * 4 →
  ∃ M g', buildMealyMachine n 256 g = Ok (M, g') ∧
    ∀ M1 M2, reachable M M1 → reachable M M2 →
      ∃ pixels ct tr M1' encData M2',
        rgb_stream data w h = Ok pixels ∧
        MealyMachine.encryptBytes pixels M1 = Ok (ct, tr, M1') ∧
        render ct w h blank = Ok encData ∧
        rgb_stream encData w h = Ok ct ∧
        MealyMachine.decryptBytes ct M2 = Ok (pixels, tr, M2') ∧
        render pixels w h blank = Ok (opaque data).
Proof.
  intros Hn Hw Hh Hdata Hbytes Hblank.
  assert (0 ≤ w * h) as HN by lia.
  destruct (build_wf n g Hn) as (M & Hb & _ & Hwf).
  eexists M, _. split; [exact Hb|].
  intros M1 M2 H1%reachable_same_tables H2%reachable_same_tables.
  destruct (rgb_stream_spec data w h HN Hdata) as (pixels & Hpx & Hlen & _).
  pose proof (rgb_stream_bytes _ _ _ _ HN Hdata Hpx) as Hpixels.
  destruct (retrace_wf M pixels M1 M2 Hwf Hpixels H1 H2)
    as (ct & tr & M1' & M2' & Henc & Hct & Hctlen & Hdec).
  destruct (rgb_stream_render ct blank w h HN ltac:(lia) Hct Hblank)
    as (encData & Hrender & Hback).
  exists pixels, ct, tr, M1', encData, M2'.
  split; [done|]. split; [done|]. split; [done|]. split; [done|].
  split; [done|]. by apply render_rgb_stream.
Qed.

(** The same for 1024 states, the generator of key ["test"] and an image
    of two pixels, one of them half transparent. *)
Lemma vault_image_roundtrip_2_pixels :
  ∃ M g', buildMealyMachine 1024 256
            (LogisticMoore.new (code_units "test") 1000) = Ok (M, g') ∧
    ∀ M1 M2, reachable M M1 → reachable M M2 →
      ∃ pixels ct tr M1' encData M2',
        rgb_stream [1; 2; 3; 255; 4; 5; 6; 128] 2 1 = Ok pixels ∧
        MealyMachine.encryptBytes pixels M1 = Ok (ct, tr, M1') ∧
        render ct 2 1 (replicate 8 0) = Ok encData ∧
        rgb_stream encData 2 1 = Ok ct ∧
        MealyMachine.decryptBytes ct M2 = Ok (pixels, tr, M2') ∧
        render pixels 2 1 (replicate 8 0)
          = Ok (opaque [1; 2; 3; 255; 4; 5; 6; 128]).
Proof.
  apply (vault_image_roundtrip 1024 2 1
           (LogisticMoore.new (code_units "test") 1000)
           [1; 2; 3; 255; 4; 5; 6; 128] (replicate 8 0)).
  - lia.
  - lia.
  - lia.
  - reflexivity.
  - repeat constructor; unfold is_byte; lia.
  - reflexivity.
Defined.


(** ** Calls do not remember *)

(** X14. A call of [encryptBytes] or [decryptBytes] starts from state 0
    and changes no table: on a machine that earlier calls have used it
    returns what it returns on the machine as it was, the ciphertext (or
    plaintext), the trajectory and the state it leaves. Equal messages
    under one key get equal ciphertexts. *)
Theorem calls_forget_history (M M1 : MealyMachine.t) (bytes : list Z) :
  reachable M M1 →
  MealyMachine.encryptBytes bytes M1 = MealyMachine.encryptBytes bytes M ∧
  MealyMachine.decryptBytes bytes M1 = MealyMachine.decryptBytes bytes M.
Proof.
  intros (Hn & Hm & Hd & Hl & Hi)%reachable_same_tables.
  assert (MealyMachine.reset M1 = MealyMachine.reset M) as Hreset.
  { destruct M, M1. cbn in *. by subst. }
  unfold MealyMachine.encryptBytes, MealyMachine.decryptBytes.
  by rewrite Hreset.
Qed.

(** The same for the bytes of ["Hi"] on the machine of two states, after
    a call that encrypted one byte and left it in state 1. *)
Lemma calls_forget_history_flip :
  MealyMachine.encryptBytes [72; 105] (flip_machine 1) =
    MealyMachine.encryptBytes [72; 105] (flip_machine 0) ∧
  MealyMachine.decryptBytes [72; 105] (flip_machine 1) =
    MealyMachine.decryptBytes [72; 105] (flip_machine 0).
Proof.
  apply (calls_forget_history (flip_machine 0) (flip_machine 1) [72; 105]).
  apply (reach_encrypt _ (flip_machine 0) [7] [7] [Trajectory.mk 0 0 7 1 7]).
  - apply reach_here.
  - vm_compute. reflexivity.
Defined.

(** ** Sizes the builder was not written for *)

Lemma encryptBytes_no_rows bytes M :
  MealyMachine.delta M = [] →
  MealyMachine.encryptBytes bytes M = Err Undefined ∧
  MealyMachine.decryptBytes bytes M = Err Undefined.
Proof.
  intros Hd. unfold MealyMachine.encryptBytes, MealyMachine.decryptBytes.
  assert (MealyMachine.warm_up 500 (MealyMachine.reset M) = Err Undefined)
    as ->; [|done].
  unfold MealyMachine.warm_up. apply for_up_S_Err.
  unfold MealyMachine.warm_step. cbn. by rewrite Hd.
Qed.

(** X15. [buildMealyMachine] outside its sizes. A positive number of
    states with a negative alphabet, or the reverse, ends in a
    [RangeError]: a typed array of negative length is requested. With no
    state at all the builder returns a machine without rows and leaves the
    generator as it was; on that machine no call of [encryptBytes] or
    [decryptBytes] gets past the first read of the warm-up. *)
Theorem builder_degenerate_sizes (n m : Z) (g : LogisticMoore.t) :
  (0 < n → m < 0 → buildMealyMachine n m g = Err RangeError) ∧
  (n < 0 → 0 < m → buildMealyMachine n m g = Err RangeError) ∧
  buildMealyMachine 0 m g = Ok (MealyMachine.mk 0 m 0 [] [] [], g) ∧
  ∀ M' bytes,
    reachable (MealyMachine.mk 0 m 0 [] [] []) M' →
    MealyMachine.encryptBytes bytes M' = Err Undefined ∧
    MealyMachine.decryptBytes bytes M' = Err Undefined.
Proof.
  split; [|split; [|split]].
  - intros Hn Hm.
    unfold buildMealyMachine, MealyMachine.new, MealyMachine.new_table.
    destruct (Z.leb_spec n 0); [lia|]. unfold alloc.
    by destruct (Z.ltb_spec m 0); [|lia].
  - intros Hn Hm.
    unfold buildMealyMachine, MealyMachine.new, MealyMachine.new_table.
    destruct (Z.leb_spec n 0); [|lia]. rewrite !bind_Ok.
    by rewrite generateStream_negative by lia.
  - unfold buildMealyMachine, MealyMachine.new, MealyMachine.new_table.
    change (0 <=? 0) with true. cbv iota. rewrite !bind_Ok.
    replace (0 * m * 2) with 0 by lia.
    by rewrite generateStream_spec by lia.
  - intros M' bytes (_ & _ & Hd & _)%reachable_same_tables.
    by apply encryptBytes_no_rows.
Qed.


(** ** Values that are not bytes *)

Lemma first_not_byte (l : list Z) :
  ¬ Forall is_byte l →
  ∃ pre x post, l = pre ++ x :: post ∧ Forall is_byte pre ∧ ¬ is_byte x.
Proof.
  induction l as [|y l IH]; intros Hl; [by destruct Hl|].
  destruct (decide (is_byte y)) as [Hy|Hy].
  - destruct IH as (pre & x & post & -> & Hpre & Hx).
    { intros Hl'. apply Hl. by constructor. }
    exists (y :: pre), x, post. split; [done|]. split; [by constructor|done].
  - exists [], y, l. split; [done|]. split; [constructor|done].
Qed.

Lemma row_of_256 M (t : list (list Z)) s x :
  table_shape (MealyMachine.n M) 256 t → 0 ≤ s < MealyMachine.n M →
  ¬ is_byte x →
  ∃ row, aget t s = Ok row ∧ aget row x = Err Undefined.
Proof.
  intros Ht Hs Hx. destruct (table_shape_row _ _ _ _ Ht Hs) as (row & Hrow & Hlen).
  exists row. split; [apply aget_Ok; split; [lia|done]|].
  unfold aget. destruct (Z.ltb_spec x 0); [done|].
  rewrite lookup_ge_None_2; [done|]. unfold is_byte in Hx. lia.
Qed.

Section not_bytes.
Context (M : MealyMachine.t) (pre post : list Z) (x : Z).
Hypothesis Hwf : wf M.
Hypothesis Hpre : Forall is_byte pre.
Hypothesis Hx : ¬ is_byte x.

Lemma encrypt_prefix_runs M0 ct :
  same_tables M M0 → 0 ≤ MealyMachine.currentState M0 < MealyMachine.n M →
  ∃ M' ct' tr',
    for_up 0 (length pre) (MealyMachine.encrypt_step (pre ++ x :: post))
      (M0, ct, []) = Ok (M', ct', tr') ∧
    same_tables M M' ∧
    0 ≤ MealyMachine.currentState M' < MealyMachine.n M.
Proof.
  intros Hsame Hst.
  destruct (for_up_inv
    (λ (_ : Z) (st : MealyMachine.t * list Z * list Trajectory.step),
       same_tables M st.1.1 ∧
       0 ≤ MealyMachine.currentState st.1.1 < MealyMachine.n M)
    (MealyMachine.encrypt_step (pre ++ x :: post)) 0 (length pre)
    (M0, ct, [])) as ([[M' ct'] tr'] & Hrun & HI); [done| |by eauto].
  intros i [[M1 ct1] tr1] Hi [Hsame1 Hs]. cbn in Hsame1, Hs.
  destruct Hsame1 as (Hn & Hm & Hd & Hl & Hinv).
  destruct (lookup_lt_is_Some_2 pre (Z.to_nat i)) as [b Hb]; [lia|].
  pose proof (Forall_lookup_1 _ _ _ _ Hpre Hb) as Hbyte.
  destruct (lambda_range M Hwf _ _ Hs Hbyte) as (Hlam & _ & _).
  destruct (delta_range M Hwf _ _ Hs Hbyte) as (Hdel & Hdr).
  apply entry_aget in Hlam as (lrow & Hlrow & Hout); [|lia|by destruct Hbyte].
  apply entry_aget in Hdel as (drow & Hdrow & Hdv); [|lia|by destruct Hbyte].
  unfold MealyMachine.encrypt_step.
  assert (aget (pre ++ x :: post) i = Ok b) as ->.
  { apply aget_Ok. split; [lia|]. by apply lookup_app_l_Some. }
  rewrite bind_Ok, Hl, Hd, Hn, Hlrow, bind_Ok, Hout, bind_Ok, Hdrow, bind_Ok,
    Hdv, bind_Ok.
  eexists (_, _, _). split; [done|]. cbn. split; [done|].
  rewrite js_rem_mod by lia. apply Z.mod_pos_bound. lia.
Qed.

Lemma decrypt_prefix_runs M0 pt :
  same_tables M M0 → 0 ≤ MealyMachine.currentState M0 < MealyMachine.n M →
  ∃ M' pt' tr',
    for_up 0 (length pre) (MealyMachine.decrypt_step (pre ++ x :: post))
      (M0, pt, []) = Ok (M', pt', tr') ∧
    same_tables M M' ∧
    0 ≤ MealyMachine.currentState M' < MealyMachine.n M.
Proof.
  intros Hsame Hst.
  destruct (for_up_inv
    (λ (_ : Z) (st : MealyMachine.t * list Z * list Trajectory.step),
       same_tables M st.1.1 ∧
       0 ≤ MealyMachine.currentState st.1.1 < MealyMachine.n M)
    (MealyMachine.decrypt_step (pre ++ x :: post)) 0 (length pre)
    (M0, pt, [])) as ([[M' pt'] tr'] & Hrun & HI); [done| |by eauto].
  intros i [[M1 pt1] tr1] Hi [Hsame1 Hs]. cbn in Hsame1, Hs.
  destruct Hsame1 as (Hn & Hm & Hd & Hl & Hinv).
  destruct (lookup_lt_is_Some_2 pre (Z.to_nat i)) as [b Hb]; [lia|].
  pose proof (Forall_lookup_1 _ _ _ _ Hpre Hb) as Hbyte.
  destruct (lambdaInv_range M Hwf _ _ Hs Hbyte) as (Hlam & Hrec & _).
  destruct (delta_range M Hwf _ _ Hs Hrec) as (Hdel & Hdr).
  apply entry_aget in Hlam as (irow & Hirow & Hout); [|lia|by destruct Hbyte].
  apply entry_aget in Hdel as (drow & Hdrow & Hdv); [|lia|by destruct Hrec].
  unfold MealyMachine.decrypt_step.
  assert (aget (pre ++ x :: post) i = Ok b) as ->.
  { apply aget_Ok. split; [lia|]. by apply lookup_app_l_Some. }
  rewrite bind_Ok, Hinv, Hd, Hn, Hirow, bind_Ok, Hout, bind_Ok, Hdrow, bind_Ok,
    Hdv, bind_Ok.
  eexists (_, _, _). split; [done|]. cbn. split; [done|].
  rewrite js_rem_mod by lia. apply Z.mod_pos_bound. lia.
Qed.

Lemma not_bytes_fail M1 :
  same_tables M M1 →
  MealyMachine.encryptBytes (pre ++ x :: post) M1 = Err Undefined ∧
  MealyMachine.decryptBytes (pre ++ x :: post) M1 = Err Undefined.
Proof.
  intros Hsame.
  pose proof Hwf as (_ & _ & _ & HL & HI & _).
  assert (same_tables M
            (MealyMachine.set_currentState (MealyMachine.reset M1)
               (warm_state (MealyMachine.delta M) 500))) as Hsame0.
  { eapply same_tables_trans; [done|].
    eapply same_tables_trans; apply same_tables_set_currentState. }
  assert (aget (pre ++ x :: post) (Z.of_nat (length pre)) = Ok x) as Hget.
  { apply aget_lookup. by rewrite list_lookup_middle. }
  unfold MealyMachine.encryptBytes, MealyMachine.decryptBytes.
  rewrite (warm_up_spec M Hwf);
    [|by eapply same_tables_trans; [|apply same_tables_set_currentState]
     |done].
  rewrite alloc_Ok, !bind_Ok by lia.
  rewrite length_app. cbn [length]. rewrite !for_up_add. split.
  - destruct (encrypt_prefix_runs _
                (replicate (Z.to_nat (Z.of_nat (length pre + S (length post)))) 0)
                Hsame0 (warm_state_range M Hwf 500))
      as (M' & ct' & tr' & -> & (Hn & Hm & Hd & Hl & Hinv) & Hs).
    rewrite bind_Ok, for_up_S_Err with (e := Undefined); [done|].
    unfold MealyMachine.encrypt_step. rewrite Z.add_0_l, Hget, bind_Ok.
    destruct (row_of_256 M _ _ x HL Hs Hx) as (row & Hrow & Hbad).
    by rewrite Hl, Hrow, bind_Ok, Hbad.
  - destruct (decrypt_prefix_runs _
                (replicate (Z.to_nat (Z.of_nat (length pre + S (length post)))) 0)
                Hsame0 (warm_state_range M Hwf 500))
      as (M' & pt' & tr' & -> & (Hn & Hm & Hd & Hl & Hinv) & Hs).
    rewrite bind_Ok, for_up_S_Err with (e := Undefined); [done|].
    unfold MealyMachine.decrypt_step. rewrite Z.add_0_l, Hget, bind_Ok.
    destruct (row_of_256 M _ _ x HI Hs Hx) as (row & Hrow & Hbad).
    by rewrite Hinv, Hrow, bind_Ok, Hbad.
Qed.

End not_bytes.

(** X17. The tables have 256 columns: on a built machine a call of
    [encryptBytes] or [decryptBytes] reads inside the tables throughout
    exactly when the values of its argument are all bytes. At the first
    value outside 0..255 it indexes a row outside its bounds. *)
Theorem bytes_exactly (n : Z) (g : LogisticMoore.t) (bytes : list Z) :
  0 < n ≤ 2 ^ 31 →
  ∃ M g', buildMealyMachine n 256 g = Ok (M, g') ∧
    ∀ M1, reachable M M1 →
      (is_Ok (MealyMachine.encryptBytes bytes M1) ↔ Forall is_byte bytes) ∧
      (is_Ok (MealyMachine.decryptBytes bytes M1) ↔ Forall is_byte bytes) ∧
      (¬ Forall is_byte bytes →
         MealyMachine.encryptBytes bytes M1 = Err Undefined ∧
         MealyMachine.decryptBytes bytes M1 = Err Undefined).
Proof.
  intros Hn. destruct (build_wf n g Hn) as (M & Hb & _ & Hwf).
  eexists M, _. split; [exact Hb|].
  intros M1 H1%reachable_same_tables.
  assert (¬ Forall is_byte bytes →
            MealyMachine.encryptBytes bytes M1 = Err Undefined ∧
            MealyMachine.decryptBytes bytes M1 = Err Undefined) as Hbad.
  { intros (pre & x & post & -> & Hpre & Hx)%first_not_byte.
    by apply (not_bytes_fail M). }
  split; [|split; [|done]].
  - split.
    + intros [r Hr]. destruct (decide (Forall is_byte bytes)) as [|Hno];
        [done|]. apply Hbad in Hno as [Hno _]. congruence.
    + intros Hbytes. eexists. by apply (encryptBytes_spec M).
  - split.
    + intros [r Hr]. destruct (decide (Forall is_byte bytes)) as [|Hno];
        [done|]. apply Hbad in Hno as [_ Hno]. congruence.
    + intros Hbytes. eexists. by apply (decryptBytes_spec M).
Qed.

(** The same for 1024 states, the generator of key ["test"] and the
    values [[72, 300]]. *)
Lemma bytes_exactly_300 :
  ∃ M g', buildMealyMachine 1024 256
            (LogisticMoore.new (code_units "test") 1000) = Ok (M, g') ∧
    ∀ M1, reachable M M1 →
      (is_Ok (MealyMachine.encryptBytes [72; 300] M1)
         ↔ Forall is_byte [72; 300]) ∧
      (is_Ok (MealyMachine.decryptBytes [72; 300] M1)
         ↔ Forall is_byte [72; 300]) ∧
      (¬ Forall is_byte [72; 300] →
         MealyMachine.encryptBytes [72; 300] M1 = Err Undefined ∧
         MealyMachine.decryptBytes [72; 300] M1 = Err Undefined).
Proof.
  apply (bytes_exactly 1024
           (LogisticMoore.new (code_units "test") 1000) [72; 300]).
  lia.
Defined.
